(** * RSA-in-py: a shallow embedding of [rsa.py] and its verification

    The Python integers of the program are mathematical integers ([Z]);
    [%] and [//] are floor modulus and floor division, which is what
    [Z.modulo] and [Z.div] compute for every sign of the operands.  Python
    lists are Rocq lists read with stdpp's lookup and written with stdpp's
    insert, behind the bounds check and the negative-index wrap of the
    interpreter.  Exceptions and loops are carried by a small outcome monad.
    The two float expressions of the program, [int(x**0.5 + 1)] and
    [int(10**(max_digits/2))], are computed as doubles compute them, with
    the one freedom the C library has (the last bit of [pow]) left to the
    platform.  The narration ([print], [show_steps]) changes no value and is
    left out. *)

From Stdlib Require Import ZArith Zdivisibility Lia String.
From Stdlib Require Zmod.ZmodInv.
From stdpp Require Import base tactics option numbers list list_numbers.

Local Open Scope Z_scope.

(** ** The fragment of the Python runtime the program uses *)
Module Py.

(** The exceptions that the statements of [rsa.py] can raise. *)
Inductive exn : Set :=
| Exception (msg : string)
| IndexError
| TypeError
| ZeroDivisionError
| OverflowError.

(** A call returns a value, raises, or is still looping when the resources
    handed to the model (loop fuel, random draws) are used up. *)
Inductive outcome (A : Type) : Type :=
| Return (v : A)
| Raise (e : exn)
| Unfinished.

Arguments Return {A} v.
Arguments Raise {A} e.
Arguments Unfinished {A}.

Definition bind {A B : Type} (m : outcome A) (k : A -> outcome B) : outcome B :=
  match m with
  | Return v => k v
  | Raise e => Raise e
  | Unfinished => Unfinished
  end.

#[global] Instance outcome_bind : MBind outcome := fun A B k m => bind m k.

(** [x % y] *)
Definition mod_ (x y : Z) : outcome Z :=
  if decide (y = 0) then Raise ZeroDivisionError else Return (x mod y).

(** [x // y] *)
Definition floordiv (x y : Z) : outcome Z :=
  if decide (y = 0) then Raise ZeroDivisionError else Return (x / y).

(** The position a subscript [i] denotes in a list of length [n]: negative
    subscripts count from the end, anything outside is an error. *)
Definition index (n i : Z) : option nat :=
  let j := if decide (i < 0) then i + n else i in
  if decide (0 <= j < n) then Some (Z.to_nat j) else None.

(** [l[i]] *)
Definition getitem {A : Type} (l : list A) (i : Z) : outcome A :=
  match index (Z.of_nat (length l)) i with
  | Some k => match l !! k with Some v => Return v | None => Raise IndexError end
  | None => Raise IndexError
  end.

(** [l[i] = v] *)
Definition setitem {A : Type} (l : list A) (i : Z) (v : A) : outcome (list A) :=
  match index (Z.of_nat (length l)) i with
  | Some k => Return (<[k := v]> l)
  | None => Raise IndexError
  end.

(** [l[:-1]] *)
Definition drop_last {A : Type} (l : list A) : list A :=
  take (length l - 1)%nat l.

(** [len(l)] *)
Definition len {A : Type} (l : list A) : Z := Z.of_nat (length l).

(** [range(start, stop)] *)
Definition range (start stop : Z) : list Z := seqZ start (stop - start).

(** [range(start, stop, step)]; a zero step is rejected by the interpreter
    and never occurs in the program. *)
Definition range_step (start stop step : Z) : list Z :=
  if decide (0 < step) then
    (fun k => start + k * step) <$> seqZ 0 ((stop - start + step - 1) / step)
  else if decide (step < 0) then
    (fun k => start + k * step) <$> seqZ 0 ((start - stop - step - 1) / (- step))
  else [].

(** *** Floats

    A Python float is an IEEE-754 double: 53 significant bits, magnitude
    below [2^1024].  The doubles the program computes are zero or at least
    1, hence whole numbers of [2^-54], and a double is written here as an
    integer: its own value where it is a whole number, its number of
    [2^-54] units where it is a root or a power.  Both readings have the
    same 53 significant bits, so one rounding serves both. *)

(** The binary logarithm of the spacing of the doubles around [v]. *)
Definition ulp_exponent (v : Z) : Z := Z.max 0 (Z.log2 v - 52).

Definition round_down (v : Z) : Z :=
  let u := 2 ^ ulp_exponent v in v / u * u.

Definition round_up (v : Z) : Z :=
  let u := 2 ^ ulp_exponent v in (v + u - 1) / u * u.

(** Rounding to the nearest double, a tie to the even significand: what the
    conversion from [int] and the float [+] do. *)
Definition round_even (v : Z) : Z :=
  let u := 2 ^ ulp_exponent v in
  let q := v / u in
  let r := v mod u in
  if decide (2 * r < u) then q * u
  else if decide (u < 2 * r) then (q + 1) * u
  else if Z.even q then q * u else (q + 1) * u.

(** [**] with a float operand is the [pow] of the C library.  It is
    accurate to less than one unit in the last place, but no standard fixes
    its last bit: where the exact power is no double, [pow] returns one of
    the two doubles around it, and which one is the choice of the platform.
    [pow_rounds_up base n] is that choice for [base ** (n/2)]. *)
Class Libm := pow_rounds_up : Z -> Z -> bool.

(** [float(x)] for [x >= 0], as the interpreter converts the [int] operand
    of a float operation. *)
Definition float_of_int (x : Z) : outcome Z :=
  let f := round_even x in
  if decide (2 ^ 1024 <= f) then Raise OverflowError else Return f.

(** [base ** (n/2)] for a whole [base >= 0] and [n >= 1], in units of
    [2^-54]: the exact value is the square root of [base ^ n]. *)
Definition float_pow_half `{!Libm} (base n : Z) : Z :=
  let y := base ^ n * 2 ^ 108 in
  let r := Z.sqrt y in
  if pow_rounds_up base n
  then round_up (if decide (r * r = y) then r else r + 1)
  else round_down r.

(** [int(x**0.5 + 1)] and [int(x**(1/2) + 1)].  The operand is converted
    first, which fails from [2^1024] on for either sign; the power of a
    negative float with a fractional exponent is a complex number, which
    [int] refuses. *)
Definition int_sqrt_plus_1 `{!Libm} (x : Z) : outcome Z :=
  f ← float_of_int (Z.abs x);
  if decide (x < 0) then Raise TypeError
  else Return (round_even (float_pow_half f 1 + 2 ^ 54) / 2 ^ 54).

(** [int(10**(n/2))].  The true division fails when its quotient is no
    double.  A negative exponent gives a double below 1 (or 0.0, which is
    no error for Python's [**]), a zero exponent gives 1.0; a power from
    [2^1024] on is refused. *)
Definition int_pow10_half `{!Libm} (n : Z) : outcome Z :=
  if decide (2 ^ 1025 <= round_even (Z.abs n)) then Raise OverflowError
  else if decide (n < 0) then Return 0
  else if decide (n = 0) then Return 1
  else
    let v := float_pow_half 10 n in
    if decide (2 ^ 1024 * 2 ^ 54 <= v) then Raise OverflowError
    else Return (v / 2 ^ 54).

(** [for x in xs: s = body(x, s)] *)
Fixpoint for_ {A S : Type} (xs : list A) (body : A -> S -> outcome S) (s : S)
  : outcome S :=
  match xs with
  | [] => Return s
  | x :: xs' => s' ← body x s; for_ xs' body s'
  end.

(** [while cond(s): s = body(s)], run for at most [fuel] tests of [cond]. *)
Fixpoint while {S : Type} (fuel : nat) (cond : S -> outcome bool)
  (body : S -> outcome S) (s : S) : outcome S :=
  match fuel with
  | O => Unfinished
  | Datatypes.S fuel' =>
      c ← cond s;
      if c : bool then s' ← body s; while fuel' cond body s' else Return s
  end.

End Py.

Import Py.

(** ** The program *)
Module RSA.

(** [ex_gcd(a, b, show_steps)], lines 23-72.  The remainder loop strictly
    shrinks the absolute value of the last entry, so [S |b|] tests of its
    condition are enough for every input (lemma [remainder_loop_returns]). *)
Definition remainder_cond (vals : list Z) : outcome bool :=
  x ← getitem vals (-1);
  Return (negb (x =? 0)).

Definition remainder_step (vals : list Z) : outcome (list Z) :=
  x ← getitem vals (-2);
  y ← getitem vals (-1);
  r ← mod_ x y;
  Return (vals ++ [r]).

Definition remainder_loop (a b : Z) : outcome (list Z) :=
  while (S (Z.abs_nat b)) remainder_cond remainder_step [a; b].

Definition substitute (vals : list Z) (i : Z) (st : Z * Z) : outcome (Z * Z) :=
  let '(s, t) := st in
  x ← getitem vals (i - 2);
  y ← getitem vals (i - 1);
  q ← floordiv x y;
  let nt := - q in
  let s_tmp := t in
  let t := s + t * nt in
  let s := s_tmp in
  Return (s, t).

Definition ex_gcd (a b : Z) : outcome (Z * Z) :=
  let '(a, b, did_swap) := if decide (b > a) then (b, a, true) else (a, b, false) in
  vals ← remainder_loop a b;
  let vals := drop_last vals in
  let s := 1 in
  x ← getitem vals (-3);
  y ← getitem vals (-2);
  q ← floordiv x y;
  let t := - q in
  '(s, t) ← for_ (range_step (len vals - 2) 1 (-1)) (substitute vals) (s, t);
  if did_swap : bool then
    g ← getitem vals (-1);
    r ← mod_ t a;
    Return (g, r)
  else
    g ← getitem vals (-1);
    r ← mod_ s b;
    Return (g, r).

(** [dual_factor(N)], lines 79-84: [None] when no candidate divides. *)
Fixpoint dual_factor_scan (N : Z) (candidates : list Z) : outcome (option (Z * Z)) :=
  match candidates with
  | [] => Return None
  | a :: rest =>
      r ← mod_ N a;
      if decide (r = 0) then
        q ← floordiv N a;
        Return (Some (a, q))
      else dual_factor_scan N rest
  end.

Definition dual_factor `{!Libm} (N : Z) : outcome (option (Z * Z)) :=
  stop ← int_sqrt_plus_1 N;
  dual_factor_scan N (range 2 stop).

(** [gen_prime(a, b)], lines 90-111.  [random.randint] is replaced by the
    list of the midpoints it hands out, one per round of the [while True]
    loop; the unused draws are returned with the prime. *)
Definition range_message : string :=
  "Prime must be generated in the range a to b where a >= 2 and b > a".

Definition mark_from (start end_ d p : Z) (is_prime : list bool) : outcome (list bool) :=
  for_ (range_step p (end_ + 1) d)
       (fun q is_prime => setitem is_prime (q - start) false) is_prime.

Definition mark_divisor (start end_ d : Z) (is_prime : list bool) : outcome (list bool) :=
  for_ (range start (end_ + 1))
       (fun p is_prime =>
          r ← mod_ p d;
          if decide (r = 0) then mark_from start end_ d p is_prime
          else Return is_prime)
       is_prime.

Definition sieve `{!Libm} (start end_ : Z) : outcome (list bool) :=
  let len := end_ - start + 1 in
  let is_prime := replicate (Z.to_nat len) true in
  stop ← int_sqrt_plus_1 end_;
  for_ (range 2 stop) (mark_divisor start end_) is_prime.

Fixpoint first_unmarked (is_prime : list bool) (indices : list Z) : outcome (option Z) :=
  match indices with
  | [] => Return None
  | i :: rest =>
      v ← getitem is_prime i;
      if v : bool then Return (Some i) else first_unmarked is_prime rest
  end.

Fixpoint gen_prime_loop `{!Libm} (a b : Z) (draws : list Z) : outcome (Z * list Z) :=
  match draws with
  | [] => Unfinished
  | midpoint :: draws' =>
      let start := Z.max a (midpoint - 50) in
      let end_ := Z.min b (midpoint + 50) in
      let len := end_ - start + 1 in
      is_prime ← sieve start end_;
      found ← first_unmarked is_prime (range 0 len);
      match found with
      | Some i => Return (start + i, draws')
      | None => gen_prime_loop a b draws'
      end
  end.

Definition gen_prime `{!Libm} (a b : Z) (draws : list Z) : outcome (Z * list Z) :=
  if decide (a < 2 \/ b < a) then Raise (Exception range_message)
  else gen_prime_loop a b draws.

(** [pow(a, b, N)], lines 114-123.  The exponent is halved in every round,
    so [log2 b + 2] tests of [b > 0] are enough (lemma [pow_positive_exponent]). *)
Definition pow_cond (st : Z * Z * Z) : outcome bool :=
  let '(ret, a, b) := st in Return (bool_decide (b > 0)).

Definition pow_step (N : Z) (st : Z * Z * Z) : outcome (Z * Z * Z) :=
  let '(ret, a, b) := st in
  r ← mod_ b 2;
  ret ← (if decide (r = 1) then mod_ (ret * a) N else Return ret);
  b ← floordiv b 2;
  a ← mod_ (a * a) N;
  Return (ret, a, b).

Definition pow (a b N : Z) : outcome Z :=
  let ret := 1 in
  '(ret, _, _) ← while (Z.to_nat (Z.log2 b) + 2) pow_cond (pow_step N) (ret, a, b);
  Return ret.

(** [int(10**(max_digits/2))], line 128. *)
Definition max_gen_of `{!Libm} (max_digits : Z) : outcome Z :=
  int_pow10_half max_digits.

(** Line 143: [d = ex_gcd(e, phi, True)[1]]; line 176 is the same
    statement with the narration off. *)
Definition inverse_component (e phi : Z) : outcome Z :=
  gd ← ex_gcd e phi;
  Return (snd gd).

(** Lines 130-148 of [gen_keys], for the bound [max_gen] of line 128. *)
Definition gen_keys_below `{!Libm} (max_gen : Z) (draws : list Z) : outcome (Z * Z * Z * list Z) :=
  '(p, draws) ← gen_prime 2 max_gen draws;
  '(q, draws) ← gen_prime 2 max_gen draws;
  let N := p * q in
  let phi := (p - 1) * (q - 1) in
  '(e, draws) ← gen_prime (Z.max p q) max_gen draws;
  d ← inverse_component e phi;
  Return (N, e, d, draws).

(** [gen_keys(max_digits)], lines 127-148. *)
Definition gen_keys `{!Libm} (max_digits : Z) (draws : list Z) : outcome (Z * Z * Z * list Z) :=
  max_gen ← max_gen_of max_digits;
  gen_keys_below max_gen draws.

(** [encrypt(m, N, e)], lines 151-156. *)
Definition encrypt (m N e : Z) : outcome Z :=
  c ← pow m e N;
  Return c.

(** [decrypt(c, N, d)], lines 159-164. *)
Definition decrypt (c N d : Z) : outcome Z :=
  m ← pow c d N;
  Return m.

(** [crack(N, e)], lines 167-181.  Unpacking [None] into [p, q] is a
    [TypeError]. *)
Definition crack `{!Libm} (N e : Z) : outcome Z :=
  factors ← dual_factor N;
  match factors with
  | None => Raise TypeError
  | Some (p, q) =>
      let phi := (p - 1) * (q - 1) in
      d ← inverse_component e phi;
      Return d
  end.

End RSA.

Import RSA.

(** A platform whose [pow] is correctly rounded, on which the concrete runs
    below are evaluated. *)
#[global] Instance round_to_nearest : Libm := fun base n =>
  let y := base ^ n * 2 ^ 108 in
  let r := Z.sqrt y in
  bool_decide (((round_down r + round_up (r + 1)) / 2) ^ 2 < y).


(** The module-level statements of the script, lines 184-198, and the
    global names they leave bound.  Line 198 rebinds [d] to what [crack]
    returns. *)
Record globals : Set := Globals {
  global_N : Z;
  global_e : Z;
  global_d : Z;
  global_m : Z;
  global_c : Z;
  global_m2 : Z
}.

Definition script `{!Libm} (draws : list Z) : outcome (globals * list Z) :=
  '(N, e, d, draws) ← gen_keys 5 draws;
  let m := 12345 in
  c ← encrypt m N e;
  m2 ← decrypt c N d;
  d ← crack N e;
  Return (Globals N e d m c m2, draws).

(** ** The narration of [ex_gcd] *)

From Stdlib Require Import Ascii.
From stdpp Require Import strings pretty.

Local Open Scope Z_scope.

(** What a run prints, one entry per call of [print].  An equation that
    [format_rsatb] formats is kept with its five numbers and the text
    printed around it; [render] gives the text that [print] receives. *)
Inductive event : Set :=
| Line (text : string)
| Equation (prefix : string) (r s a t b : Z) (suffix : string).

(** The line feed that the format strings of the program write as [\n]. *)
Definition newline : string := String "010"%char "".

(** [format_rsatb(r, s, a, t, b)], lines 14-20; [%d] prints an integer in
    decimal with a minus sign when negative, as [pretty] does. *)
Definition format_rsatb (r s a t b : Z) : string :=
  let op := "+" in
  let '(op, t) := if decide (t < 0) then ("-", - t) else (op, t) in
  pretty r +:+ " = " +:+ pretty s +:+ " * " +:+ pretty a +:+ " " +:+ op +:+ " "
    +:+ pretty t +:+ " * " +:+ pretty b.

Definition render (e : event) : string :=
  match e with
  | Line text => text
  | Equation prefix r s a t b suffix => prefix +:+ format_rsatb r s a t b +:+ suffix
  end.

(** [str(vals)] for a list of integers. *)
Definition str_list (vals : list Z) : string :=
  "[" +:+ String.concat ", " (pretty <$> vals) +:+ "]".

(** A run with its output: what was printed stays printed when the run
    raises. *)
Record run (A : Type) : Type := Run { stdout : list event; result : outcome A }.

Arguments Run {A} stdout result.
Arguments stdout {A} r.
Arguments result {A} r.

#[global] Instance run_bind : MBind run := fun A B k m =>
  match result m with
  | Return v => Run (stdout m ++ stdout (k v)) (result (k v))
  | Raise e => Run (stdout m) (Raise e)
  | Unfinished => Run (stdout m) Unfinished
  end.

Definition quiet {A : Type} (m : outcome A) : run A := Run [] m.

Definition print (text : string) : run unit := Run [Line text] (Return tt).

Definition print_equation (prefix : string) (r s a t b : Z) (suffix : string) : run unit :=
  Run [Equation prefix r s a t b suffix] (Return tt).

(** [if show_steps: block] *)
Definition when (show_steps : bool) (block : run unit) : run unit :=
  if show_steps then block else quiet (Return tt).

Fixpoint for_run {A S : Type} (xs : list A) (body : A -> S -> run S) (s : S) : run S :=
  match xs with
  | [] => quiet (Return s)
  | x :: xs' => s' ← body x s; for_run xs' body s'
  end.

(** The body of the loop of lines 49-60, with its two [print] calls. *)
Definition substitute_steps (vals : list Z) (show_steps : bool) (i : Z) (st : Z * Z)
  : run (Z * Z) :=
  let '(s, t) := st in
  x ← quiet (getitem vals (i - 2));
  y ← quiet (getitem vals (i - 1));
  q ← quiet (floordiv x y);
  let nt := - q in
  when show_steps (
    vi ← quiet (getitem vals i);
    x ← quiet (getitem vals (i - 2));
    y ← quiet (getitem vals (i - 1));
    print_equation "  ^ " vi 1 x nt y (" -> " +:+ newline)) ;;
  let s_tmp := t in
  let t := s + t * nt in
  let s := s_tmp in
  when show_steps (
    g ← quiet (getitem vals (-1));
    x ← quiet (getitem vals (i - 2));
    y ← quiet (getitem vals (i - 1));
    print_equation "" g s x t y "") ;;
  quiet (Return (s, t)).

(** [ex_gcd(a, b, show_steps)], lines 23-72, with everything it prints. *)
Definition ex_gcd_steps (a b : Z) (show_steps : bool) : run (Z * Z) :=
  when show_steps (
    print ("Finding GCD of " +:+ pretty a +:+ " and " +:+ pretty b
           +:+ " and the inverse of " +:+ pretty a +:+ " mod " +:+ pretty b
           +:+ "..." +:+ newline)) ;;
  let '(a, b, did_swap) := if decide (b > a) then (b, a, true) else (a, b, false) in
  vals ← quiet (remainder_loop a b);
  let vals := drop_last vals in
  when show_steps (
    print ("Sequence of mod operatorws: " +:+ str_list vals) ;;
    g ← quiet (getitem vals (-1));
    print ("GCD(" +:+ pretty a +:+ ", " +:+ pretty b +:+ ") = " +:+ pretty g +:+ newline) ;;
    print "Performing repeated substitution...") ;;
  let s := 1 in
  x ← quiet (getitem vals (-3));
  y ← quiet (getitem vals (-2));
  q ← quiet (floordiv x y);
  let t := - q in
  when show_steps (
    g ← quiet (getitem vals (-1));
    x ← quiet (getitem vals (-3));
    y ← quiet (getitem vals (-2));
    print_equation "" g s x t y "") ;;
  '(s, t) ← for_run (range_step (len vals - 2) 1 (-1)) (substitute_steps vals show_steps) (s, t);
  if did_swap : bool then
    when show_steps (
      r ← quiet (mod_ t a);
      print ("The multiplicative inverse of " +:+ pretty b +:+ " mod " +:+ pretty a
             +:+ " = " +:+ pretty t +:+ " mod " +:+ pretty a +:+ " = " +:+ pretty r)) ;;
    g ← quiet (getitem vals (-1));
    r ← quiet (mod_ t a);
    quiet (Return (g, r))
  else
    when show_steps (
      r ← quiet (mod_ s b);
      print ("The multiplicative inverse of " +:+ pretty a +:+ " mod " +:+ pretty b
             +:+ " = " +:+ pretty s +:+ " mod " +:+ pretty b +:+ " = " +:+ pretty r)) ;;
    g ← quiet (getitem vals (-1));
    r ← quiet (mod_ s b);
    quiet (Return (g, r)).

(** The texts printed by a run. *)
Definition printed {A : Type} (r : run A) : list string := render <$> stdout r.

(** ** Invariants and predicates used by the proofs *)

(** What the loop of [pow] keeps true of [(ret, a, b)] on the way to
    [a0 ^ b0 mod N]: the part of the power still to be folded in, and that
    [ret] is reduced once the exponent has run out. *)
Definition pow_invariant (a0 b0 N : Z) (st : Z * Z * Z) : Prop :=
  let '(ret, a, b) := st in
  0 <= b /\ (ret * a ^ b) mod N = a0 ^ b0 mod N /\ (b = 0 -> ret mod N = ret).

Definition pow_measure (st : Z * Z * Z) : nat :=
  let '(_, _, b) := st in
  if decide (b <= 0) then 0%nat else S (Z.to_nat (Z.log2 b)).

(** What the remainder loop of [ex_gcd] keeps true of [vals], started on
    [[a; b]]: every entry after the first two is the remainder of the two
    before it, no divisor used so far is zero, neighbours keep the gcd of
    [a] and [b], and nothing becomes negative when [a] and [b] are not. *)
Definition remainders_invariant (a b : Z) (vals : list Z) : Prop :=
  vals !! 0%nat = Some a /\ vals !! 1%nat = Some b /\
  (forall i x y z, vals !! i = Some x -> vals !! S i = Some y ->
                   vals !! S (S i) = Some z -> y <> 0 /\ z = x mod y) /\
  (forall i x y, vals !! i = Some x -> vals !! S i = Some y ->
                 Z.gcd x y = Z.gcd a b) /\
  (0 <= a -> 0 <= b -> forall i x, vals !! i = Some x -> 0 <= x).

Definition remainders_measure (vals : list Z) : nat :=
  Z.abs_nat (default 0 (last vals)).

(** The remainder sequence as the back-substitution reads it: each entry
    that has a successor is a nonzero divisor of the step that produced the
    entry after it. *)
Definition remainder_chain (vals : list Z) : Prop :=
  forall i x y, vals !! i = Some x -> vals !! S i = Some y ->
    y <> 0 /\ (forall z, vals !! S (S i) = Some z -> z = x mod y).

(** After [j] rounds of the back-substitution the pair [(s, t)] writes the
    last entry [g] of [vals] over the entries [j] places further up. *)
Definition substitution_invariant (vals : list Z) (g : Z) (j : nat) (st : Z * Z) : Prop :=
  let '(s, t) := st in
  exists x y, vals !! (length vals - 3 - j)%nat = Some x /\
              vals !! (length vals - 2 - j)%nat = Some y /\
              g = s * x + t * y.

(** The marking table of the sieve over the window [[start, end_]]: the
    entry of [x] is [False] exactly when [x] is in the set [C]. *)
Definition table (start end_ : Z) (C : Z -> Prop) (is_prime : list bool) : Prop :=
  length is_prime = Z.to_nat (end_ - start + 1) /\
  forall x, start <= x <= end_ ->
    (is_prime !! Z.to_nat (x - start) = Some false <-> C x).

(** What the trial divisors below [stop] mark. *)
Definition marked_below (stop x : Z) : Prop :=
  exists d, 2 <= d < stop /\ x mod d = 0.

(** What the trial divisors up to the root of [end_] mark. *)
Definition trial_multiple (end_ x : Z) : Prop :=
  exists d, 2 <= d <= Z.sqrt end_ /\ x mod d = 0.

(** The integers that are doubles: at most 53 significant bits. *)
Definition representable (v : Z) : Prop :=
  exists m e, 0 <= m < 2 ^ 53 /\ 0 <= e /\ v = m * 2 ^ e.

(** Below [exact_limit] the float expression [int(x**0.5 + 1)] is the
    integer square root plus one on every platform (lemma
    [int_sqrt_plus_1_exact]); at [2^52 - 1] itself the platforms differ. *)
Definition exact_limit : Z := 2 ^ 52 - 1.

(** The least integer that is no double: it rounds to [2^1024]. *)
Definition float_limit : Z := 2 ^ 1024 - 2 ^ 970.

(** The draws that [random.randint(a, b)] can hand out. *)
Definition draws_within (a b : Z) (draws : list Z) : Prop :=
  Forall (fun midpoint => a <= midpoint <= b) draws.

(** Primality by exhaustive trial division, independent of the sieve: used
    to check the primes of the concrete runs. *)
Definition trial_division_prime (x : Z) : bool :=
  bool_decide (2 <= x) &&
  forallb (fun d => negb (x mod d =? 0)) (seqZ 2 (Z.sqrt x - 1)).

(** The exception of line 92, which the specification calls
    InvalidRangeError. *)
Definition InvalidRangeError : exn := Exception range_message.

(** An explicit failure is an exception the program raises with a [raise]
    statement of its own; the other exceptions come from the interpreter
    when a statement crashes. *)
Definition explicit_failure (e : exn) : Prop := exists msg, e = Exception msg.


(** Whether [int(10**(n/2))] is the integer square root of [10^n] whichever
    way [pow] rounds. *)
Definition pow10_half_exact (n : Z) : bool :=
  let y := 10 ^ n * 2 ^ 108 in
  let r := Z.sqrt y in
  let up := round_up (if decide (r * r = y) then r else r + 1) in
  let down := round_down r in
  (up <? 2 ^ 1024 * 2 ^ 54) &&
  (up / 2 ^ 54 =? Z.sqrt (10 ^ n)) && (down / 2 ^ 54 =? Z.sqrt (10 ^ n)).

(** Two primes beyond the reach of doubles.  [root_prime] is the Proth
    prime [3 * 2^66 + 1]: it is odd and above [2^53], so it is no double,
    and its square rounds to the double [9 * 2^132] whose root [3 * 2^66]
    is one less.  [linked_prime] is a prime that is 1 modulo
    [root_prime]. *)
Definition root_prime : Z := 3 * 2 ^ 66 + 1.
Definition linked_prime : Z := 16 * root_prime + 1.

(** The statements of [ex_gcd] after the swap of lines 28-32, for the
    operands [a >= b] as reordered and the flag [did_swap]. *)
Definition ex_gcd_after_swap (a b : Z) (did_swap : bool) : outcome (Z * Z) :=
  vals ← remainder_loop a b;
  let vals := drop_last vals in
  let s := 1 in
  x ← getitem vals (-3);
  y ← getitem vals (-2);
  q ← floordiv x y;
  let t := - q in
  '(s, t) ← for_ (range_step (len vals - 2) 1 (-1)) (substitute vals) (s, t);
  if did_swap : bool then
    g ← getitem vals (-1);
    r ← mod_ t a;
    Return (g, r)
  else
    g ← getitem vals (-1);
    r ← mod_ s b;
    Return (g, r).

(** An equation of the narration is true when its left side is the
    combination its right side shows. *)
Definition equation_holds (e : event) : Prop :=
  match e with
  | Line _ => True
  | Equation _ r s a t b _ => r = s * a + t * b
  end.

(** The narrated statements of [ex_gcd] after the swap of lines 28-32. *)
Definition ex_gcd_steps_after_swap (a b : Z) (did_swap show_steps : bool) : run (Z * Z) :=
  vals ← quiet (remainder_loop a b);
  let vals := drop_last vals in
  when show_steps (
    print ("Sequence of mod operatorws: " +:+ str_list vals) ;;
    g ← quiet (getitem vals (-1));
    print ("GCD(" +:+ pretty a +:+ ", " +:+ pretty b +:+ ") = " +:+ pretty g +:+ newline) ;;
    print "Performing repeated substitution...") ;;
  let s := 1 in
  x ← quiet (getitem vals (-3));
  y ← quiet (getitem vals (-2));
  q ← quiet (floordiv x y);
  let t := - q in
  when show_steps (
    g ← quiet (getitem vals (-1));
    x ← quiet (getitem vals (-3));
    y ← quiet (getitem vals (-2));
    print_equation "" g s x t y "") ;;
  '(s, t) ← for_run (range_step (len vals - 2) 1 (-1)) (substitute_steps vals show_steps) (s, t);
  if did_swap : bool then
    when show_steps (
      r ← quiet (mod_ t a);
      print ("The multiplicative inverse of " +:+ pretty b +:+ " mod " +:+ pretty a
             +:+ " = " +:+ pretty t +:+ " mod " +:+ pretty a +:+ " = " +:+ pretty r)) ;;
    g ← quiet (getitem vals (-1));
    r ← quiet (mod_ t a);
    quiet (Return (g, r))
  else
    when show_steps (
      r ← quiet (mod_ s b);
      print ("The multiplicative inverse of " +:+ pretty a +:+ " mod " +:+ pretty b
             +:+ " = " +:+ pretty s +:+ " mod " +:+ pretty b +:+ " = " +:+ pretty r)) ;;
    g ← quiet (getitem vals (-1));
    r ← quiet (mod_ s b);
    quiet (Return (g, r)).

(** ** Reasoning about the runtime fragment *)
Section runtime.

Lemma bind_Return {A B : Type} (v : A) (k : A -> outcome B) :
  (Return v ≫= k) = k v.
Proof. reflexivity. Qed.

Lemma bind_Return_inv {A B : Type} (m : outcome A) (k : A -> outcome B) (w : B) :
  (m ≫= k) = Return w -> exists v, m = Return v /\ k v = Return w.
Proof. destruct m as [v| |]; [eauto | discriminate | discriminate]. Qed.

Lemma mod_Return (x y : Z) : y <> 0 -> mod_ x y = Return (x mod y).
Proof. intros Hy. unfold mod_. case_decide; [lia | reflexivity]. Qed.

Lemma floordiv_Return (x y : Z) : y <> 0 -> floordiv x y = Return (x / y).
Proof. intros Hy. unfold floordiv. case_decide; [lia | reflexivity]. Qed.

Lemma getitem_front {A : Type} (l : list A) (k : nat) (v : A) :
  l !! k = Some v -> getitem l (Z.of_nat k) = Return v.
Proof.
  intros Hk. pose proof (lookup_lt_Some _ _ _ Hk) as Hlt.
  unfold getitem, index.
  destruct (decide (Z.of_nat k < 0)) as [?|_]; [lia|].
  destruct (decide (0 <= Z.of_nat k < Z.of_nat (length l))) as [_|?]; [|lia].
  rewrite Nat2Z.id, Hk. reflexivity.
Qed.

Lemma getitem_back {A : Type} (l : list A) (k : nat) (v : A) :
  (0 < k <= length l)%nat -> l !! (length l - k)%nat = Some v ->
  getitem l (- Z.of_nat k) = Return v.
Proof.
  intros Hk Hv. unfold getitem, index.
  destruct (decide (- Z.of_nat k < 0)) as [_|?]; [|lia].
  destruct (decide (0 <= - Z.of_nat k + Z.of_nat (length l) < Z.of_nat (length l)))
    as [_|?]; [|lia].
  replace (Z.to_nat (- Z.of_nat k + Z.of_nat (length l))) with (length l - k)%nat by lia.
  rewrite Hv. reflexivity.
Qed.

Lemma getitem_short {A : Type} (l : list A) (k : nat) :
  (length l < k)%nat -> getitem l (- Z.of_nat k) = Raise IndexError.
Proof.
  intros Hk. unfold getitem, index.
  destruct (decide (- Z.of_nat k < 0)) as [_|?]; [|lia].
  destruct (decide (0 <= - Z.of_nat k + Z.of_nat (length l) < Z.of_nat (length l)))
    as [?|_]; [lia|reflexivity].
Qed.

Lemma setitem_front {A : Type} (l : list A) (i : Z) (v : A) :
  0 <= i < Z.of_nat (length l) -> setitem l i v = Return (<[Z.to_nat i := v]> l).
Proof.
  intros Hi. unfold setitem, index.
  destruct (decide (i < 0)) as [?|_]; [lia|].
  destruct (decide (0 <= i < Z.of_nat (length l))) as [_|?]; [reflexivity|lia].
Qed.

(** A [for] loop whose body keeps an invariant indexed by the number of
    rounds done runs to its end and establishes the invariant there. *)
Lemma for_inv {A S : Type} (body : A -> S -> outcome S) (xs : list A) :
  forall (P : nat -> S -> Prop) (s : S),
    P 0%nat s ->
    (forall j x s, xs !! j = Some x -> P j s ->
                   exists s', body x s = Return s' /\ P (Datatypes.S j) s') ->
    exists s', for_ xs body s = Return s' /\ P (length xs) s'.
Proof.
  induction xs as [|x xs IH]; intros P s H0 Hstep; simpl.
  - eauto.
  - destruct (Hstep 0%nat x s eq_refl H0) as (s1 & Hb & H1).
    rewrite Hb, bind_Return.
    apply (IH (fun j => P (Datatypes.S j))); [exact H1|].
    intros j y s2 Hy Hj. apply (Hstep (Datatypes.S j)); assumption.
Qed.

(** A [while] loop whose body keeps an invariant and lowers a measure
    leaves through its test once the fuel exceeds the measure. *)
Lemma while_inv {S : Type} (I : S -> Prop) (mu : S -> nat)
  (cond : S -> outcome bool) (body : S -> outcome S) :
  (forall s, I s -> exists c, cond s = Return c /\
     (c = true -> exists s', body s = Return s' /\ I s' /\ (mu s' < mu s)%nat)) ->
  forall fuel s, I s -> (mu s < fuel)%nat ->
    exists s', while fuel cond body s = Return s' /\ I s' /\ cond s' = Return false.
Proof.
  intros Hstep. induction fuel as [|fuel IH]; intros s Hs Hmu; [lia|].
  simpl. destruct (Hstep s Hs) as (c & Hc & Hbody). rewrite Hc, bind_Return.
  destruct c.
  - destruct (Hbody eq_refl) as (s1 & Hb & Hs1 & Hlt).
    rewrite Hb, bind_Return. apply IH; [assumption | lia].
  - eauto.
Qed.

Lemma while_S {S : Type} (fuel : nat) (cond : S -> outcome bool)
  (body : S -> outcome S) (s : S) :
  while (Datatypes.S fuel) cond body s =
  cond s ≫= fun c : bool =>
    if c then body s ≫= fun s' => while fuel cond body s' else Return s.
Proof. reflexivity. Qed.

Lemma elem_of_range (start stop x : Z) : x ∈ range start stop <-> start <= x < stop.
Proof. unfold range. rewrite elem_of_seqZ. lia. Qed.

Lemma lookup_range (start stop : Z) (j : nat) (x : Z) :
  range start stop !! j = Some x <-> x = start + Z.of_nat j /\ start + Z.of_nat j < stop.
Proof. unfold range. rewrite lookup_seqZ. lia. Qed.

Lemma length_range (start stop : Z) : length (range start stop) = Z.to_nat (stop - start).
Proof. unfold range. apply length_seqZ. Qed.

End runtime.


(** ** Doubles: rounding, and the two float expressions of the program *)
Section floats.

Lemma ulp_exponent_spec (v : Z) :
  0 < v ->
  0 <= ulp_exponent v /\ 2 ^ ulp_exponent v <= v /\ v < 2 ^ (ulp_exponent v + 53).
Proof.
  intros Hv. unfold ulp_exponent.
  pose proof (Z.log2_spec v Hv) as [Hlo Hhi]. pose proof (Z.log2_nonneg v) as Hnn.
  destruct (Z.max_spec 0 (Z.log2 v - 52)) as [[Hlt ->]|[Hge ->]].
  - split; [lia|]. split.
    + etransitivity; [|exact Hlo]. apply Z.pow_le_mono_r; lia.
    + replace (Z.log2 v - 52 + 53) with (Z.succ (Z.log2 v)) by lia. exact Hhi.
  - split; [lia|]. split; [simpl; lia|].
    eapply Z.lt_le_trans; [exact Hhi|]. apply Z.pow_le_mono_r; lia.
Qed.

Lemma ulp_positive (v : Z) : 0 < 2 ^ ulp_exponent v.
Proof. apply Z.pow_pos_nonneg; [lia|]. unfold ulp_exponent. lia. Qed.

Lemma round_down_le (v : Z) : round_down v <= v.
Proof.
  unfold round_down. pose proof (ulp_positive v) as Hu.
  rewrite Z.mul_comm. apply Z.mul_div_le. exact Hu.
Qed.

Lemma round_up_ge (v : Z) : v <= round_up v.
Proof.
  unfold round_up. pose proof (ulp_positive v) as Hu.
  set (u := 2 ^ ulp_exponent v) in *.
  pose proof (Z.div_mod (v + u - 1) u ltac:(lia)) as Hdm.
  pose proof (Z.mod_pos_bound (v + u - 1) u Hu). nia.
Qed.

(** The two doubles around [v] bracket every rounding of [v]. *)
Lemma round_even_between (v : Z) : round_down v <= round_even v <= round_up v.
Proof.
  unfold round_down, round_up, round_even. pose proof (ulp_positive v) as Hu.
  set (u := 2 ^ ulp_exponent v) in *.
  pose proof (Z.div_mod v u ltac:(lia)) as Hdm.
  pose proof (Z.mod_pos_bound v u Hu) as Hr.
  set (q := v / u) in *. set (r := v mod u) in *.
  assert ((v + u - 1) / u = if decide (r = 0) then q else q + 1) as ->.
  { destruct (decide (r = 0)) as [Hz|Hnz].
    - symmetry. apply (Z.div_unique _ _ _ (u - 1)); lia.
    - symmetry. apply (Z.div_unique _ _ _ (r - 1)); lia. }
  destruct (decide (r = 0)) as [Hz|Hnz];
    repeat (destruct (decide _)); destruct (Z.even q); nia.
Qed.

(** Rounding never crosses a double. *)
Lemma round_down_representable (A v : Z) :
  representable A -> A <= v -> 0 < v -> A <= round_down v.
Proof.
  intros (m & e & Hm & He & ->) Hle Hv. unfold round_down.
  destruct (ulp_exponent_spec v Hv) as (Hk & Hlo & Hhi).
  pose proof (ulp_positive v) as Hu.
  set (k := ulp_exponent v) in *.
  destruct (decide (k <= e)) as [Hke|Hek].
  - replace e with ((e - k) + k) in * by lia. rewrite Z.pow_add_r in * by lia.
    assert (0 <= 2 ^ (e - k)) by (apply Z.pow_nonneg; lia).
    rewrite Z.mul_assoc in *. apply Z.mul_le_mono_nonneg_r; [lia|].
    apply Z.div_le_lower_bound; [exact Hu | lia].
  - assert (2 ^ (52 + k) <= v) as Hbig.
    { unfold k, ulp_exponent in *.
      destruct (Z.max_spec 0 (Z.log2 v - 52)) as [[? Heq]|[? Heq]]; rewrite Heq in *; [|lia].
      replace (52 + (Z.log2 v - 52)) with (Z.log2 v) by lia.
      apply Z.log2_spec. exact Hv. }
    assert (m * 2 ^ e <= 2 ^ (52 + k)) as Hsmall.
    { replace (52 + k) with (53 + (k - 1)) by lia. rewrite Z.pow_add_r by lia.
      assert (2 ^ e <= 2 ^ (k - 1)) by (apply Z.pow_le_mono_r; lia).
      assert (0 < 2 ^ e) by (apply Z.pow_pos_nonneg; lia). nia. }
    etransitivity; [exact Hsmall|].
    replace (2 ^ (52 + k)) with (2 ^ 52 * 2 ^ k) in * by (rewrite Z.pow_add_r; lia).
    apply Z.mul_le_mono_nonneg_r; [lia|].
    apply Z.div_le_lower_bound; [exact Hu | lia].
Qed.

Lemma round_up_representable (B v : Z) :
  representable B -> v <= B -> 0 < v -> round_up v <= B.
Proof.
  intros (m & e & Hm & He & ->) Hle Hv. unfold round_up.
  destruct (ulp_exponent_spec v Hv) as (Hk & Hlo & Hhi).
  pose proof (ulp_positive v) as Hu.
  set (k := ulp_exponent v) in *.
  destruct (decide (k <= e)) as [Hke|Hek].
  - replace e with ((e - k) + k) in * by lia. rewrite Z.pow_add_r in * by lia.
    assert (0 <= 2 ^ (e - k)) by (apply Z.pow_nonneg; lia).
    rewrite Z.mul_assoc in *. apply Z.mul_le_mono_nonneg_r; [lia|].
    assert ((v + 2 ^ k - 1) / 2 ^ k < m * 2 ^ (e - k) + 1); [|lia].
    apply Z.div_lt_upper_bound; [exact Hu | lia].
  - exfalso.
    assert (2 ^ (52 + k) <= v) as Hbig.
    { unfold k, ulp_exponent in *.
      destruct (Z.max_spec 0 (Z.log2 v - 52)) as [[? Heq]|[? Heq]]; rewrite Heq in *; [|lia].
      replace (52 + (Z.log2 v - 52)) with (Z.log2 v) by lia.
      apply Z.log2_spec. exact Hv. }
    assert (m * 2 ^ e < 2 ^ (52 + k)); [|lia].
    replace (52 + k) with (53 + (k - 1)) by lia. rewrite Z.pow_add_r by lia.
    assert (2 ^ e <= 2 ^ (k - 1)) by (apply Z.pow_le_mono_r; lia).
    assert (0 < 2 ^ e) by (apply Z.pow_pos_nonneg; lia). nia.
Qed.

Lemma round_even_lower (A v : Z) :
  representable A -> A <= v -> 0 < v -> A <= round_even v.
Proof.
  intros HA Hle Hv. etransitivity; [apply (round_down_representable A v); assumption|].
  apply round_even_between.
Qed.

Lemma round_even_upper (B v : Z) :
  representable B -> v <= B -> 0 < v -> round_even v <= B.
Proof.
  intros HB Hle Hv. etransitivity; [apply round_even_between|].
  apply round_up_representable; assumption.
Qed.

Lemma ulp_exponent_small (v : Z) : v < 2 ^ 53 -> ulp_exponent v = 0.
Proof.
  intros Hv. unfold ulp_exponent.
  destruct (decide (0 < v)) as [Hpos|Hneg].
  - assert (Z.log2 v < 53) by (apply Z.log2_lt_pow2; assumption). lia.
  - rewrite Z.log2_nonpos by lia. reflexivity.
Qed.

Lemma round_even_small (v : Z) : v < 2 ^ 53 -> round_even v = v.
Proof.
  intros Hv. unfold round_even. rewrite (ulp_exponent_small v Hv).
  change (2 ^ 0) with 1. rewrite Z.mod_1_r, Z.div_1_r.
  destruct (decide (2 * 0 < 1)); lia.
Qed.

Lemma representable_small (v : Z) : 0 <= v < 2 ^ 53 -> representable v.
Proof. intros Hv. exists v, 0. split; [exact Hv|]. split; [lia|]. simpl. lia. Qed.

Lemma representable_pow2 (e : Z) : 0 <= e -> representable (2 ^ e).
Proof. intros He. exists 1, e. split; [simpl; lia|]. split; [exact He | lia]. Qed.

Lemma ulp_exponent_binade (v e : Z) :
  52 <= e -> 2 ^ e <= v < 2 ^ (e + 1) -> ulp_exponent v = e - 52.
Proof.
  intros He Hv. unfold ulp_exponent.
  rewrite (Z.log2_unique v e) by (replace (Z.succ e) with (e + 1) by lia; lia). lia.
Qed.

(** Where rounding to nearest reaches the next power of two. *)
Lemma round_even_reaches_pow2 (x e : Z) :
  53 <= e -> 0 <= x ->
  (2 ^ (e + 1) <= round_even x <-> 2 ^ (e + 1) - 2 ^ (e - 53) <= x).
Proof.
  intros He Hx.
  assert (0 < 2 ^ (e - 53)) as HP by (apply Z.pow_pos_nonneg; lia).
  assert (2 ^ (e - 52) = 2 * 2 ^ (e - 53)) as Eu.
  { replace (e - 52) with (Z.succ (e - 53)) by lia. apply Z.pow_succ_r. lia. }
  assert (2 ^ e = 2 ^ 52 * 2 ^ (e - 52)) as E1.
  { rewrite <- Z.pow_add_r by lia. f_equal. lia. }
  assert (2 ^ (e + 1) = 2 ^ 53 * 2 ^ (e - 52)) as E2.
  { rewrite <- Z.pow_add_r by lia. f_equal. lia. }
  destruct (decide (x < 2 ^ e)) as [Hlow|Hhigh].
  - split; [|lia]. intros Hov.
    destruct (decide (0 < x)) as [Hpos|?].
    + pose proof (round_even_upper (2 ^ e) x (representable_pow2 e ltac:(lia))
                    ltac:(lia) Hpos). lia.
    + assert (x = 0) as -> by lia. rewrite round_even_small in Hov by lia. lia.
  - destruct (decide (2 ^ (e + 1) <= x)) as [Hbig|Htop].
    + split; [lia|]. intros _.
      apply (round_even_lower (2 ^ (e + 1)) x (representable_pow2 (e + 1) ltac:(lia))); lia.
    + unfold round_even. rewrite (ulp_exponent_binade x e) by lia.
      pose proof (Z.div_mod x (2 ^ (e - 52)) ltac:(lia)) as Hdm.
      pose proof (Z.mod_pos_bound x (2 ^ (e - 52)) ltac:(lia)) as Hr.
      set (q := x / 2 ^ (e - 52)) in *. set (r := x mod 2 ^ (e - 52)) in *.
      rewrite E2. rewrite E1, E2 in *. rewrite Eu in *.
      set (P := 2 ^ (e - 53)) in *.
      assert (2 ^ 52 <= q < 2 ^ 53) as Hq by nia.
      destruct (decide (q = 2 ^ 53 - 1)) as [Hq1|Hq1].
      * assert (Z.even q = false) as Hodd by (rewrite Hq1; reflexivity).
        rewrite Hodd.
        destruct (decide (2 * r < 2 * P)); [|destruct (decide (2 * P < 2 * r))]; nia.
      * destruct (decide (2 * r < 2 * P)); [|destruct (decide (2 * P < 2 * r))];
          [| |destruct (Z.even q)]; nia.
Qed.

(** [float(x)] exists exactly below [float_limit]. *)
Lemma round_even_overflow (x : Z) :
  0 <= x -> (2 ^ 1024 <= round_even x <-> float_limit <= x).
Proof. intros Hx. apply (round_even_reaches_pow2 x 1023); lia. Qed.

Lemma float_of_int_returns (x : Z) :
  0 <= x < float_limit -> float_of_int x = Return (round_even x).
Proof.
  intros Hx. unfold float_of_int.
  destruct (decide (2 ^ 1024 <= round_even x)) as [Hov|_]; [|reflexivity].
  apply round_even_overflow in Hov; lia.
Qed.

Lemma float_of_int_overflow (x : Z) :
  float_limit <= x -> float_of_int x = Raise OverflowError.
Proof.
  intros Hx. assert (0 <= x) by (unfold float_limit in Hx; lia).
  unfold float_of_int.
  destruct (decide (2 ^ 1024 <= round_even x)) as [_|Hov]; [reflexivity|].
  exfalso. apply Hov. apply round_even_overflow; assumption.
Qed.

(** The power lies between any two doubles that bracket the exact root,
    whichever way the platform rounds. *)
Lemma float_pow_half_sandwich `{!Libm} (base n A B : Z) :
  let r := Z.sqrt (base ^ n * 2 ^ 108) in
  representable A -> representable B -> 0 < A <= r -> r + 1 <= B ->
  A <= float_pow_half base n <= B.
Proof.
  intros r HA HB [HA0 HAr] HrB. unfold float_pow_half. fold r.
  destruct (pow_rounds_up base n).
  - destruct (decide (r * r = base ^ n * 2 ^ 108)) as [_|_].
    + split.
      * etransitivity; [exact HAr | apply round_up_ge].
      * apply round_up_representable; [assumption | lia | lia].
    + split.
      * etransitivity; [|apply round_up_ge]. lia.
      * apply round_up_representable; [assumption | lia | lia].
  - split.
    + apply round_down_representable; [assumption | assumption | lia].
    + etransitivity; [apply round_down_le | lia].
Qed.

Lemma int_sqrt_plus_1_zero `{!Libm} : int_sqrt_plus_1 0 = Return 1.
Proof.
  unfold int_sqrt_plus_1, float_of_int. change (Z.abs 0) with 0.
  rewrite (round_even_small 0) by lia.
  destruct (decide (2 ^ 1024 <= 0)) as [?|_]; [lia|]. rewrite bind_Return.
  unfold float_pow_half. destruct (pow_rounds_up 0 1); reflexivity.
Qed.

(** Below [2^52 - 1] the doubles absorb every rounding: the expression is
    the integer square root plus one, on every platform. *)
Lemma int_sqrt_plus_1_exact `{!Libm} (x : Z) :
  0 <= x < exact_limit -> int_sqrt_plus_1 x = Return (Z.sqrt x + 1).
Proof.
  unfold exact_limit. intros [Hx0 Hx].
  destruct (decide (x = 0)) as [->|Hnz]; [apply int_sqrt_plus_1_zero|].
  unfold int_sqrt_plus_1. rewrite Z.abs_eq by lia.
  unfold float_of_int. rewrite round_even_small by lia.
  destruct (decide (2 ^ 1024 <= x)) as [?|_]; [lia|]. rewrite bind_Return.
  destruct (decide (x < 0)) as [?|_]; [lia|]. f_equal.
  pose proof (Z.sqrt_spec x ltac:(lia)) as [Hlo Hhi].
  pose proof (Z.sqrt_nonneg x) as Hnn.
  set (a := Z.sqrt x) in *. set (c := a + 1).
  assert (1 <= a) as Ha1 by nia.
  assert (c <= 2 ^ 26) as Hc by (unfold c; nia).
  assert (2 ^ 108 = 2 ^ 54 * 2 ^ 54) as E108 by reflexivity.
  assert (0 <= x ^ 1 * 2 ^ 108) as Hy by (rewrite Z.pow_1_r; lia).
  assert (a * 2 ^ 54 <= Z.sqrt (x ^ 1 * 2 ^ 108)) as Hlower.
  { apply Z.sqrt_le_square; [exact Hy | lia|]. rewrite Z.pow_1_r. nia. }
  assert (representable (a * 2 ^ 54)) as HA.
  { exists a, 54. split; [lia|]. split; [lia | reflexivity]. }
  assert (representable (c * 2 ^ 54)) as HC.
  { exists c, 54. split; [lia|]. split; [lia | reflexivity]. }
  assert (exists B, representable B /\ representable (B + 2 ^ 54) /\
                    Z.sqrt (x ^ 1 * 2 ^ 108) + 1 <= B /\ B < c * 2 ^ 54) as (B & HB & HB1 & HrB & HBc).
  { destruct (decide (c = 2 ^ 26)) as [Hc26|Hc26].
    - exists (c * 2 ^ 54 - 2 ^ 28). split; [|split; [|split]].
      + exists (c * 2 ^ 26 - 1), 28. split; [lia|]. split; [lia|]. rewrite Hc26. reflexivity.
      + exists ((c + 1) * 2 ^ 26 - 1), 28. split; [lia|]. split; [lia|]. rewrite Hc26. reflexivity.
      + assert (Z.sqrt (x ^ 1 * 2 ^ 108) < c * 2 ^ 54 - 2 ^ 28); [|lia].
        apply Z.sqrt_lt_square; [exact Hy | lia|]. rewrite Z.pow_1_r, Hc26. lia.
      + lia.
    - exists (c * 2 ^ 54 - 2 ^ 27). split; [|split; [|split]].
      + exists (c * 2 ^ 27 - 1), 27. split; [lia|]. split; [lia|].
        change (2 ^ 54) with (2 ^ 27 * 2 ^ 27). ring.
      + exists ((c + 1) * 2 ^ 27 - 1), 27. split; [lia|]. split; [lia|].
        change (2 ^ 54) with (2 ^ 27 * 2 ^ 27). ring.
      + assert (Z.sqrt (x ^ 1 * 2 ^ 108) < c * 2 ^ 54 - 2 ^ 27); [|lia].
        apply Z.sqrt_lt_square; [exact Hy | lia|]. rewrite Z.pow_1_r.
        assert (x <= c * c - 1) as Hxc by (unfold c; lia).
        change (2 ^ 108) with (2 ^ 27 * 2 ^ 27 * (2 ^ 27 * 2 ^ 27)).
        change (2 ^ 54) with (2 ^ 27 * 2 ^ 27).
        change (2 ^ 26) with 67108864 in *. change (2 ^ 27) with 134217728. nia.
      + lia. }
  destruct (float_pow_half_sandwich x 1 (a * 2 ^ 54) B HA HB ltac:(lia) HrB) as [Hs1 Hs2].
  set (s := float_pow_half x 1) in *.
  assert (c * 2 ^ 54 <= round_even (s + 2 ^ 54)) as Ht1.
  { apply round_even_lower; [exact HC | unfold c; lia | lia]. }
  assert (round_even (s + 2 ^ 54) <= B + 2 ^ 54) as Ht2.
  { apply round_even_upper; [exact HB1 | lia | lia]. }
  fold c. symmetry.
  apply (Z.div_unique _ _ _ (round_even (s + 2 ^ 54) - c * 2 ^ 54)); lia.
Qed.

Lemma round_up_double (v : Z) : 0 < v -> round_up v < 2 * v.
Proof.
  intros Hv. destruct (ulp_exponent_spec v Hv) as (_ & Hu & _).
  unfold round_up. pose proof (ulp_positive v) as Hpos.
  set (u := 2 ^ ulp_exponent v) in *.
  pose proof (Z.mul_div_le (v + u - 1) u Hpos). lia.
Qed.

Lemma float_pow_half_crude `{!Libm} (base n A : Z) :
  let r := Z.sqrt (base ^ n * 2 ^ 108) in
  representable A -> 0 < A <= r ->
  A <= float_pow_half base n < 2 * (r + 1).
Proof.
  intros r HA [HA0 HAr]. unfold float_pow_half. fold r.
  destruct (pow_rounds_up base n).
  - destruct (decide (r * r = base ^ n * 2 ^ 108)) as [_|_].
    + split; [etransitivity; [exact HAr | apply round_up_ge]|].
      pose proof (round_up_double r ltac:(lia)). lia.
    + split; [etransitivity; [|apply round_up_ge]; lia|].
      apply round_up_double. lia.
  - split; [apply round_down_representable; [assumption | assumption | lia]|].
    pose proof (round_down_le r). lia.
Qed.

(** What the expression does on every integer: it fails on an operand that
    is no double and on a negative one, and otherwise returns a bound that
    is at least 1 and, from 2 on, at most the operand. *)
Lemma int_sqrt_plus_1_overflow `{!Libm} (x : Z) :
  float_limit <= Z.abs x -> int_sqrt_plus_1 x = Raise OverflowError.
Proof.
  intros Hx. unfold int_sqrt_plus_1. rewrite float_of_int_overflow by assumption.
  reflexivity.
Qed.

Lemma int_sqrt_plus_1_negative `{!Libm} (x : Z) :
  - float_limit < x < 0 -> int_sqrt_plus_1 x = Raise TypeError.
Proof.
  intros Hx. unfold int_sqrt_plus_1. rewrite float_of_int_returns by lia.
  rewrite bind_Return. destruct (decide (x < 0)); [reflexivity | lia].
Qed.

Lemma int_sqrt_plus_1_returns `{!Libm} (x : Z) :
  0 <= x < float_limit ->
  exists stop, int_sqrt_plus_1 x = Return stop /\
               1 <= stop /\ (2 <= x -> stop <= x) /\ (4 <= x -> 3 <= stop).
Proof.
  intros Hx. destruct (decide (x < exact_limit)) as [Hsmall|Hbig].
  - exists (Z.sqrt x + 1). split; [apply int_sqrt_plus_1_exact; lia|].
    pose proof (Z.sqrt_nonneg x). split; [lia|]. split.
    + intros Hx2. assert (Z.sqrt x < x) by (apply Z.sqrt_lt_lin; lia). lia.
    + intros Hx4. assert (2 <= Z.sqrt x); [|lia]. apply Z.sqrt_le_square; lia.
  - unfold exact_limit in Hbig.
    unfold int_sqrt_plus_1. rewrite Z.abs_eq by lia.
    rewrite float_of_int_returns by lia. rewrite bind_Return.
    destruct (decide (x < 0)) as [?|_]; [lia|].
    eexists. split; [reflexivity|].
    assert (2 ^ 51 <= round_even x) as Hf1.
    { apply round_even_lower; [apply representable_pow2; lia | lia | lia]. }
    assert (round_even x < 2 * x) as Hf2.
    { pose proof (round_even_between x). pose proof (round_up_double x ltac:(lia)). lia. }
    set (f := round_even x) in *.
    assert (0 <= f ^ 1 * 2 ^ 108) as Hy by (rewrite Z.pow_1_r; lia).
    assert (2 ^ 79 <= Z.sqrt (f ^ 1 * 2 ^ 108)) as Hr1.
    { apply Z.sqrt_le_square; [exact Hy | lia|]. rewrite Z.pow_1_r.
      change (2 ^ 79 * 2 ^ 79) with (2 ^ 50 * 2 ^ 108). nia. }
    assert (Z.sqrt (f ^ 1 * 2 ^ 108) < (x - 1) * 2 ^ 52) as Hr2.
    { apply Z.sqrt_lt_square; [exact Hy | lia|]. rewrite Z.pow_1_r.
      change (2 ^ 108) with (16 * (2 ^ 52 * 2 ^ 52)).
      assert (32 * x <= (x - 1) * (x - 1)) by nia.
      assert (0 < 2 ^ 52 * 2 ^ 52) by lia.
      set (K := 2 ^ 52 * 2 ^ 52) in *.
      replace ((x - 1) * 2 ^ 52 * ((x - 1) * 2 ^ 52)) with ((x - 1) * (x - 1) * K)
        by (unfold K; ring).
      nia. }
    destruct (float_pow_half_crude f 1 (2 ^ 79) (representable_pow2 79 ltac:(lia))
                ltac:(lia)) as [Hs1 Hs2].
    set (r := Z.sqrt (f ^ 1 * 2 ^ 108)) in *. set (s := float_pow_half f 1) in *.
    assert (2 ^ 79 <= round_even (s + 2 ^ 54)) as Ht1.
    { apply round_even_lower; [apply representable_pow2; lia | lia | lia]. }
    assert (round_even (s + 2 ^ 54) < 2 * (s + 2 ^ 54)) as Ht2.
    { pose proof (round_even_between (s + 2 ^ 54)).
      pose proof (round_up_double (s + 2 ^ 54) ltac:(lia)). lia. }
    set (t := round_even (s + 2 ^ 54)) in *.
    assert (2 ^ 25 <= t / 2 ^ 54) as Hstop1.
    { apply Z.div_le_lower_bound; [lia|]. change (2 ^ 54 * 2 ^ 25) with (2 ^ 79). lia. }
    assert (t / 2 ^ 54 <= x) as Hstop2.
    { assert (t / 2 ^ 54 < x + 1); [|lia]. apply Z.div_lt_upper_bound; [lia|].
      change (2 ^ 54) with (4 * 2 ^ 52) in *. lia. }
    split; [lia|]. split; [intros _; exact Hstop2|]. intros _. lia.
Qed.

Lemma int_sqrt_plus_1_raises `{!Libm} (x : Z) (e : exn) :
  int_sqrt_plus_1 x = Raise e ->
  (e = OverflowError /\ float_limit <= Z.abs x) \/ (e = TypeError /\ x < 0).
Proof.
  intros Hrun. destruct (decide (float_limit <= Z.abs x)) as [Hov|Hin].
  - rewrite int_sqrt_plus_1_overflow in Hrun by assumption. injection Hrun as <-. auto.
  - destruct (decide (x < 0)) as [Hneg|Hnn].
    + rewrite int_sqrt_plus_1_negative in Hrun by lia. injection Hrun as <-. auto.
    + destruct (int_sqrt_plus_1_returns x ltac:(lia)) as (stop & Heq & _).
      rewrite Heq in Hrun. discriminate.
Qed.

Lemma int_sqrt_plus_1_Return_inv `{!Libm} (x stop : Z) :
  int_sqrt_plus_1 x = Return stop ->
  0 <= x < float_limit /\ 1 <= stop /\ (2 <= x -> stop <= x) /\ (4 <= x -> 3 <= stop).
Proof.
  intros Hrun. destruct (decide (float_limit <= Z.abs x)) as [Hov|Hin].
  { rewrite int_sqrt_plus_1_overflow in Hrun by assumption. discriminate. }
  destruct (decide (x < 0)) as [Hneg|Hnn].
  { rewrite int_sqrt_plus_1_negative in Hrun by lia. discriminate. }
  destruct (int_sqrt_plus_1_returns x ltac:(lia)) as (stop' & Heq & Hbounds).
  rewrite Heq in Hrun. injection Hrun as <-. split; [lia | exact Hbounds].
Qed.

(** *** [int(10**(n/2))] *)

Lemma int_pow10_half_unrepresentable `{!Libm} (n : Z) :
  2 * float_limit <= Z.abs n -> int_pow10_half n = Raise OverflowError.
Proof.
  intros Hn. unfold int_pow10_half.
  destruct (decide (2 ^ 1025 <= round_even (Z.abs n))) as [_|Hno]; [reflexivity|].
  exfalso. apply Hno. apply (round_even_reaches_pow2 (Z.abs n) 1024); [lia | lia|].
  unfold float_limit in Hn. change (1024 + 1) with 1025. change (1024 - 53) with 971.
  change (2 ^ 1025) with (2 * 2 ^ 1024). change (2 ^ 971) with (2 * 2 ^ 970). lia.
Qed.

Lemma int_pow10_half_divides `{!Libm} (n : Z) :
  Z.abs n < 2 * float_limit ->
  int_pow10_half n =
    if decide (n < 0) then Return 0
    else if decide (n = 0) then Return 1
    else
      let v := float_pow_half 10 n in
      if decide (2 ^ 1024 * 2 ^ 54 <= v) then Raise OverflowError
      else Return (v / 2 ^ 54).
Proof.
  intros Hn. unfold int_pow10_half.
  destruct (decide (2 ^ 1025 <= round_even (Z.abs n))) as [Hov|_]; [|reflexivity].
  exfalso. apply (round_even_reaches_pow2 (Z.abs n) 1024) in Hov; [|lia|lia].
  unfold float_limit in Hn. change (1024 + 1) with 1025 in Hov.
  change (1024 - 53) with 971 in Hov.
  change (2 ^ 1025) with (2 * 2 ^ 1024) in Hov. change (2 ^ 971) with (2 * 2 ^ 970) in Hov.
  lia.
Qed.

Lemma float_limit_large : 2 ^ 1023 < float_limit.
Proof. reflexivity. Qed.

Lemma int_pow10_half_overflow `{!Libm} (n : Z) :
  617 <= n -> int_pow10_half n = Raise OverflowError.
Proof.
  intros Hn. destruct (decide (2 * float_limit <= Z.abs n)) as [Hdiv|Hdiv].
  { apply int_pow10_half_unrepresentable. exact Hdiv. }
  rewrite int_pow10_half_divides by lia.
  destruct (decide (n < 0)) as [?|_]; [lia|]. destruct (decide (n = 0)) as [?|_]; [lia|].
  cbv zeta.
  destruct (decide (2 ^ 1024 * 2 ^ 54 <= float_pow_half 10 n)) as [_|Hno]; [reflexivity|].
  exfalso. apply Hno.
  assert (10 ^ 617 <= 10 ^ n) as Hpow by (apply Z.pow_le_mono_r; lia).
  assert (2 ^ 2048 <= 10 ^ 617) as Hnum by (apply Z.leb_le; vm_compute; reflexivity).
  assert (2 ^ 1078 <= Z.sqrt (10 ^ n * 2 ^ 108)) as Hr.
  { apply Z.sqrt_le_square; [lia | lia|].
    change (2 ^ 1078 * 2 ^ 1078) with (2 ^ 2048 * 2 ^ 108). nia. }
  change (2 ^ 1024 * 2 ^ 54) with (2 ^ 1078).
  apply (float_pow_half_crude 10 n (2 ^ 1078)); [apply representable_pow2; lia | lia].
Qed.

Lemma int_pow10_half_returns `{!Libm} (n : Z) :
  1 <= n <= 616 ->
  exists max_gen, int_pow10_half n = Return max_gen /\ 3 <= max_gen < float_limit.
Proof.
  intros Hn. pose proof float_limit_large as Hlim.
  rewrite int_pow10_half_divides by lia.
  destruct (decide (n < 0)) as [?|_]; [lia|]. destruct (decide (n = 0)) as [?|_]; [lia|].
  cbv zeta.
  assert (10 ^ 1 <= 10 ^ n <= 10 ^ 616) as Hpow
    by (split; apply Z.pow_le_mono_r; lia).
  set (B := (2 ^ 53 - 1) * 2 ^ 1025).
  assert (10 ^ 616 * 2 ^ 108 < B * B) as Hnum by (apply Z.ltb_lt; vm_compute; reflexivity).
  assert (representable B) as HB.
  { exists (2 ^ 53 - 1), 1025. split; [lia|]. split; [lia | reflexivity]. }
  assert (representable (3 * 2 ^ 54)) as HA.
  { exists 3, 54. split; [lia|]. split; [lia | reflexivity]. }
  assert (3 * 2 ^ 54 <= Z.sqrt (10 ^ n * 2 ^ 108)) as Hr1.
  { apply Z.sqrt_le_square; [lia | lia|].
    change (3 * 2 ^ 54 * (3 * 2 ^ 54)) with (9 * 2 ^ 108). change (10 ^ 1) with 10 in Hpow. lia. }
  assert (Z.sqrt (10 ^ n * 2 ^ 108) < B) as Hr2.
  { apply Z.sqrt_lt_square; [lia | unfold B; lia|]. nia. }
  destruct (float_pow_half_sandwich 10 n (3 * 2 ^ 54) B HA HB ltac:(lia) ltac:(lia))
    as [Hv1 Hv2].
  set (v := float_pow_half 10 n) in *.
  destruct (decide (2 ^ 1024 * 2 ^ 54 <= v)) as [Hov|_].
  { exfalso. unfold B in Hv2. change (2 ^ 1024 * 2 ^ 54) with (2 ^ 53 * 2 ^ 1025) in Hov. lia. }
  eexists. split; [reflexivity|]. split.
  - apply Z.div_le_lower_bound; lia.
  - apply Z.div_lt_upper_bound; [lia|]. unfold float_limit.
    eapply Z.le_lt_trans; [exact Hv2|]. unfold B. apply Z.ltb_lt. vm_compute. reflexivity.
Qed.

Lemma pow10_half_exact_upto_32 : forallb pow10_half_exact (seqZ 1 32) = true.
Proof. vm_compute. reflexivity. Qed.

(** Up to 32 digits the bound of [gen_keys] is the integer square root of
    [10^n] on every platform. *)
Lemma int_pow10_half_exact `{!Libm} (n : Z) :
  1 <= n <= 32 -> int_pow10_half n = Return (Z.sqrt (10 ^ n)).
Proof.
  intros Hn. pose proof float_limit_large as Hlim.
  rewrite int_pow10_half_divides by lia.
  destruct (decide (n < 0)) as [?|_]; [lia|]. destruct (decide (n = 0)) as [?|_]; [lia|].
  pose proof pow10_half_exact_upto_32 as Hall. rewrite forallb_forall in Hall.
  specialize (Hall n). rewrite <- list_elem_of_In, elem_of_seqZ in Hall.
  specialize (Hall ltac:(lia)). unfold pow10_half_exact in Hall.
  apply andb_true_iff in Hall as [Hall Hdown]. apply andb_true_iff in Hall as [Hup1 Hup2].
  apply Z.ltb_lt in Hup1. apply Z.eqb_eq in Hup2, Hdown.
  unfold float_pow_half. cbv zeta.
  set (y := 10 ^ n * 2 ^ 108) in *. set (r := Z.sqrt y) in *.
  destruct (pow_rounds_up 10 n).
  - destruct (decide (2 ^ 1024 * 2 ^ 54 <= _)) as [?|_]; [lia|]. rewrite Hup2. reflexivity.
  - pose proof (round_down_le r).
    pose proof (round_up_ge (if decide (r * r = y) then r else r + 1)).
    destruct (decide (2 ^ 1024 * 2 ^ 54 <= _)) as [Hov|_].
    + exfalso. destruct (decide (r * r = y)); lia.
    + rewrite Hdown. reflexivity.
Qed.

Lemma round_multiple (w : Z) :
  2 ^ 107 <= w -> (2 ^ 55 | round_down w) /\ (2 ^ 55 | round_up w).
Proof.
  intros Hw.
  assert (55 <= ulp_exponent w) as Hk.
  { unfold ulp_exponent. assert (107 <= Z.log2 w); [|lia].
    apply Z.log2_le_pow2; lia. }
  assert ((2 ^ 55 | 2 ^ ulp_exponent w)) as Hdiv.
  { exists (2 ^ (ulp_exponent w - 55)). rewrite <- Z.pow_add_r by lia. f_equal. lia. }
  unfold round_down, round_up. split; apply Z.divide_mul_r; exact Hdiv.
Qed.

(** From 32 digits on the bound is a double of at least [10^16], and such a
    double is an even integer. *)
Lemma int_pow10_half_even `{!Libm} (n max_gen : Z) :
  32 <= n -> int_pow10_half n = Return max_gen -> 2 ^ 53 <= max_gen /\ (2 | max_gen).
Proof.
  intros Hn Hrun.
  destruct (decide (617 <= n)) as [Hbig|Hsmall].
  { rewrite int_pow10_half_overflow in Hrun by assumption. discriminate. }
  pose proof float_limit_large as Hlim.
  rewrite int_pow10_half_divides in Hrun by lia.
  destruct (decide (n < 0)) as [?|_]; [lia|]. destruct (decide (n = 0)) as [?|_]; [lia|].
  cbv zeta in Hrun.
  destruct (decide (2 ^ 1024 * 2 ^ 54 <= float_pow_half 10 n)) as [?|_]; [discriminate|].
  injection Hrun as <-.
  assert (10 ^ 32 <= 10 ^ n) as Hpow by (apply Z.pow_le_mono_r; lia).
  assert (2 ^ 107 <= Z.sqrt (10 ^ n * 2 ^ 108)) as Hr.
  { apply Z.sqrt_le_square; [lia | lia|].
    assert (2 ^ 107 * 2 ^ 107 <= 10 ^ 32 * 2 ^ 108) by (apply Z.leb_le; vm_compute; reflexivity).
    nia. }
  assert ((2 ^ 55 | float_pow_half 10 n)) as [j Hj].
  { unfold float_pow_half. set (r := Z.sqrt (10 ^ n * 2 ^ 108)) in *.
    destruct (pow_rounds_up 10 n).
    - destruct (decide (r * r = 10 ^ n * 2 ^ 108)); apply round_multiple; lia.
    - apply round_multiple; lia. }
  pose proof (float_pow_half_crude 10 n (2 ^ 107) (representable_pow2 107 ltac:(lia))
                ltac:(lia)) as [Hv _].
  rewrite Hj in *. change (2 ^ 55) with (2 * 2 ^ 54) in *.
  rewrite Z.mul_assoc, Z.div_mul by lia. split.
  - change (2 ^ 107) with (2 ^ 53 * 2 ^ 54) in Hv. nia.
  - exists j. ring.
Qed.

(** *** Evaluating the float expressions on a concrete operand

    The platform has one choice to make per expression; an operand on which
    both choices give the same value has that value on every platform. *)
Lemma int_sqrt_plus_1_both `{!Libm} (x : Z) (r : outcome Z) :
  @int_sqrt_plus_1 (fun _ _ => true) x = r ->
  @int_sqrt_plus_1 (fun _ _ => false) x = r ->
  int_sqrt_plus_1 x = r.
Proof.
  unfold int_sqrt_plus_1. destruct (float_of_int (Z.abs x)) as [f|e|]; simpl; try tauto.
  destruct (decide (x < 0)); [tauto|].
  unfold float_pow_half, pow_rounds_up. intros Hup Hdown.
  destruct (H f 1); assumption.
Qed.

Lemma int_pow10_half_cases `{!Libm} (n : Z) :
  int_pow10_half n = @int_pow10_half (fun _ _ => true) n \/
  int_pow10_half n = @int_pow10_half (fun _ _ => false) n.
Proof.
  unfold int_pow10_half, float_pow_half, pow_rounds_up.
  destruct (H 10 n); [left | right]; reflexivity.
Qed.

End floats.
(** ** Modular exponentiation *)
Section pow_correct.

Variables (a0 b0 N : Z).
Hypothesis N_nonzero : N <> 0.
Hypothesis b0_pos : 0 < b0.

Lemma log2_half_lt (b : Z) : 0 < b / 2 -> Z.log2 (b / 2) < Z.log2 b.
Proof.
  intros Hh. assert (0 < b) as Hb.
  { destruct (decide (0 < b)) as [?|Hn]; [assumption|].
    assert (b / 2 <= 0) by (apply Z.div_le_upper_bound; lia). lia. }
  apply Z.log2_lt_pow2; [assumption|].
  destruct (Z.log2_spec b Hb) as [_ Hup].
  rewrite Z.pow_succ_r in Hup by apply Z.log2_nonneg.
  pose proof (Z.mul_div_le b 2 ltac:(lia)). lia.
Qed.

Lemma pow_step_keeps (st : Z * Z * Z) :
  pow_invariant a0 b0 N st ->
  exists c, pow_cond st = Return c /\
    (c = true -> exists st', pow_step N st = Return st' /\ pow_invariant a0 b0 N st' /\
                             (pow_measure st' < pow_measure st)%nat).
Proof.
  destruct st as [[ret a] b]. intros (Hb & Hpow & _).
  eexists; split; [reflexivity|]. intros Hc.
  apply bool_decide_eq_true in Hc.
  unfold pow_step.
  rewrite (mod_Return b 2), bind_Return by lia. cbv beta.
  pose proof (Z.div_mod b 2 ltac:(lia)) as Hdm.
  pose proof (Z.mod_pos_bound b 2 ltac:(lia)) as Hbit.
  assert (0 <= b / 2) as Hhalf by (apply Z.div_pos; lia).
  assert (a ^ b = a ^ (b mod 2) * (a * a) ^ (b / 2)) as Hsplit.
  { rewrite Hdm at 1. rewrite Z.add_comm, Z.pow_add_r, Z.pow_mul_r, Z.pow_2_r by lia.
    reflexivity. }
  assert (Hmeasure : (pow_measure (ret, a, b / 2)%Z < pow_measure (ret, a, b))%nat).
  { unfold pow_measure. destruct (decide (b <= 0)) as [?|_]; [lia|].
    destruct (decide (b / 2 <= 0)) as [_|Hpos]; [lia|].
    pose proof (log2_half_lt b ltac:(lia)). pose proof (Z.log2_nonneg (b / 2)). lia. }
  destruct (decide (b mod 2 = 1)) as [Hodd|Heven].
  - rewrite (mod_Return (ret * a) N N_nonzero), bind_Return.
    rewrite (floordiv_Return b 2), bind_Return by lia.
    rewrite (mod_Return (a * a) N N_nonzero), bind_Return.
    eexists; split; [reflexivity|]. split; [|exact Hmeasure].
    split; [assumption|]. split.
    + rewrite <- Hpow, Hsplit, Hodd, Z.pow_1_r.
      rewrite <- Z.mul_mod_idemp_r, Z.mod_pow_l, Z.mul_mod_idemp_r by assumption.
      rewrite Z.mul_mod_idemp_l by assumption. f_equal. ring.
    + intros _. apply Z.mod_mod; assumption.
  - rewrite bind_Return.
    rewrite (floordiv_Return b 2), bind_Return by lia.
    rewrite (mod_Return (a * a) N N_nonzero), bind_Return.
    eexists; split; [reflexivity|]. split; [|exact Hmeasure].
    split; [assumption|]. split.
    + rewrite <- Hpow, Hsplit. replace (b mod 2) with 0 by lia. rewrite Z.pow_0_r.
      rewrite <- Z.mul_mod_idemp_r, Z.mod_pow_l, Z.mul_mod_idemp_r by assumption.
      f_equal. ring.
    + intros Hz. lia.
Qed.

Lemma pow_positive_exponent : pow a0 b0 N = Return (a0 ^ b0 mod N).
Proof.
  unfold pow.
  destruct (while_inv (pow_invariant a0 b0 N) pow_measure pow_cond (pow_step N) pow_step_keeps
              (Z.to_nat (Z.log2 b0) + 2)%nat (1, a0, b0)) as ([[ret a] b] & Hrun & Hinv & Hexit).
  - split; [lia|]. split; [f_equal; ring | lia].
  - unfold pow_measure. destruct (decide (b0 <= 0)); lia.
  - rewrite Hrun, bind_Return. destruct Hinv as (Hb & Hpow & Hred).
    injection Hexit as Hexit. apply bool_decide_eq_false in Hexit.
    assert (b = 0) as -> by lia.
    rewrite Z.pow_0_r, Z.mul_1_r in Hpow. rewrite <- Hpow, Hred; reflexivity.
Qed.

End pow_correct.

(** The exponent zero (and any exponent that is not positive) leaves the
    loop at its first test: the result is the initial [ret = 1], whatever
    the modulus. *)
Lemma pow_nonpositive_exponent (a b N : Z) : b <= 0 -> pow a b N = Return 1.
Proof.
  intros Hb. unfold pow.
  replace (Z.to_nat (Z.log2 b) + 2)%nat with (S (Z.to_nat (Z.log2 b) + 1)) by lia.
  simpl. rewrite bool_decide_eq_false_2 by lia. reflexivity.
Qed.

Lemma pow_spec (a b N : Z) :
  0 < N -> 0 <= b -> (b = 0 -> N <> 1) -> pow a b N = Return (a ^ b mod N).
Proof.
  intros Hpos Hb H1. destruct (decide (b = 0)) as [->|Hnz].
  - rewrite pow_nonpositive_exponent by lia.
    rewrite Z.pow_0_r, Z.mod_small by (specialize (H1 eq_refl); lia). reflexivity.
  - apply pow_positive_exponent; lia.
Qed.

(** ** The extended Euclidean algorithm *)
Section ex_gcd_correct.

Lemma lookup_range_down (start stop : Z) (j : nat) (i : Z) :
  range_step start stop (-1) !! j = Some i <->
  i = start - Z.of_nat j /\ stop < start - Z.of_nat j.
Proof.
  unfold range_step. destruct (decide (0 < -1)) as [?|_]; [lia|].
  destruct (decide (-1 < 0)) as [_|?]; [|lia].
  rewrite list_lookup_fmap.
  replace ((start - stop - -1 - 1) / - -1) with (start - stop)
    by (change (- -1) with 1; rewrite Z.div_1_r; lia).
  split.
  - intros H. apply fmap_Some in H as (k & Hk & ->).
    apply lookup_seqZ in Hk. lia.
  - intros [-> Hlt]. rewrite lookup_seqZ_lt by lia. simpl. f_equal. lia.
Qed.

Lemma length_range_down (start stop : Z) :
  length (range_step start stop (-1)) = Z.to_nat (start - stop).
Proof.
  unfold range_step. destruct (decide (0 < -1)) as [?|_]; [lia|].
  destruct (decide (-1 < 0)) as [_|?]; [|lia].
  rewrite length_fmap, length_seqZ.
  change (- -1) with 1. rewrite Z.div_1_r. f_equal. lia.
Qed.

Lemma last_two {A : Type} (l : list A) :
  (2 <= length l)%nat ->
  exists x y, l !! (length l - 2)%nat = Some x /\ l !! (length l - 1)%nat = Some y.
Proof.
  intros Hlen.
  destruct (lookup_lt_is_Some_2 l (length l - 2)%nat ltac:(lia)) as [x Hx].
  destruct (lookup_lt_is_Some_2 l (length l - 1)%nat ltac:(lia)) as [y Hy].
  eauto.
Qed.

Lemma mod_abs_lt (x y : Z) : y <> 0 -> Z.abs (x mod y) < Z.abs y.
Proof.
  intros Hy. destruct (Z.lt_total y 0) as [Hneg|[?|Hpos]]; [|lia|].
  - pose proof (Z.mod_neg_bound x y Hneg). lia.
  - pose proof (Z.mod_pos_bound x y Hpos). lia.
Qed.

Lemma remainder_step_keeps (a b : Z) (vals : list Z) :
  remainders_invariant a b vals ->
  exists c, remainder_cond vals = Return c /\
    (c = true -> exists vals', remainder_step vals = Return vals' /\
       remainders_invariant a b vals' /\
       (remainders_measure vals' < remainders_measure vals)%nat).
Proof.
  intros (Ha & Hb & Hchain & Hgcd & Hsign).
  assert (2 <= length vals)%nat as Hlen.
  { apply lookup_lt_Some in Hb. lia. }
  destruct (last_two vals Hlen) as (x & y & Hx & Hy).
  assert (getitem vals (-1) = Return y) as Hg1.
  { apply (getitem_back vals 1); [lia | exact Hy]. }
  assert (getitem vals (-2) = Return x) as Hg2.
  { apply (getitem_back vals 2); [lia | exact Hx]. }
  unfold remainder_cond. rewrite Hg1, bind_Return.
  eexists; split; [reflexivity|]. intros Hc.
  apply negb_true_iff, Z.eqb_neq in Hc.
  unfold remainder_step.
  rewrite Hg2, bind_Return, Hg1, bind_Return, (mod_Return x y Hc), bind_Return.
  eexists; split; [reflexivity|].
  assert (Hnew : forall i v, (vals ++ [x mod y]) !! i = Some v ->
            (i < length vals)%nat /\ vals !! i = Some v \/
            i = length vals /\ v = x mod y).
  { intros i v Hv. apply lookup_snoc_Some in Hv.
    destruct Hv as [[? ?]|[? ?]]; [left | right]; split; congruence. }
  split; [|].
  - split; [rewrite lookup_app_l by lia; exact Ha|].
    split; [rewrite lookup_app_l by lia; exact Hb|].
    split; [|split].
    + intros i u v w Hu Hv Hw.
      apply Hnew in Hu, Hv, Hw.
      destruct Hw as [[Hlt Hw]|[Hi ->]].
      * destruct Hu as [[_ Hu]|[? _]]; [|lia].
        destruct Hv as [[_ Hv]|[? _]]; [|lia]. eauto.
      * destruct Hu as [[_ Hu]|[? _]]; [|lia].
        destruct Hv as [[_ Hv]|[? _]]; [|lia].
        replace i with (length vals - 2)%nat in Hu by lia.
        replace (S i) with (length vals - 1)%nat in Hv by lia.
        rewrite Hx in Hu. rewrite Hy in Hv. injection Hu as <-. injection Hv as <-.
        split; [assumption | reflexivity].
    + intros i u v Hu Hv. apply Hnew in Hu, Hv.
      destruct Hv as [[Hlt Hv]|[Hi ->]].
      * destruct Hu as [[_ Hu]|[? _]]; [|lia]. eauto.
      * destruct Hu as [[_ Hu]|[? _]]; [|lia].
        replace i with (length vals - 1)%nat in Hu by lia.
        rewrite Hy in Hu. injection Hu as <-.
        rewrite Z.gcd_mod_r. rewrite Z.gcd_comm.
        apply (Hgcd (length vals - 2)%nat); [exact Hx|].
        replace (S (length vals - 2)) with (length vals - 1)%nat by lia. exact Hy.
    + intros Ha0 Hb0 i v Hv. apply Hnew in Hv.
      destruct Hv as [[_ Hv]|[_ ->]]; [eauto|].
      assert (0 <= y) by eauto.
      apply Z.mod_pos_bound. lia.
  - unfold remainders_measure. rewrite last_snoc, last_lookup.
    replace (pred (length vals)) with (length vals - 1)%nat by lia.
    rewrite Hy. simpl. pose proof (mod_abs_lt x y Hc). lia.
Qed.

(** The remainder loop returns for every pair of integers, with a list that
    ends in the zero remainder. *)
Lemma remainder_loop_returns (a b : Z) :
  exists vals, remainder_loop a b = Return vals /\
    remainders_invariant a b vals /\ last vals = Some 0.
Proof.
  destruct (while_inv (remainders_invariant a b) remainders_measure
              remainder_cond remainder_step (remainder_step_keeps a b)
              (S (Z.abs_nat b)) [a; b]) as (vals & Hrun & Hinv & Hexit).
  - split; [reflexivity|]. split; [reflexivity|].
    split; [|split].
    + intros [|[|i]] x y z Hx Hy Hz; simpl in *; discriminate.
    + intros [|[|i]] x y Hx Hy; simpl in *; try discriminate. congruence.
    + intros Ha0 Hb0 [|[|[|i]]] x Hx; simpl in *; try discriminate; congruence.
  - unfold remainders_measure. simpl. lia.
  - exists vals. split; [exact Hrun|]. split; [exact Hinv|].
    destruct Hinv as (_ & Hb & _).
    assert (2 <= length vals)%nat as Hlen by (apply lookup_lt_Some in Hb; lia).
    destruct (last_two vals Hlen) as (x & y & _ & Hy).
    assert (getitem vals (-1) = Return y) as Hg1.
    { apply (getitem_back vals 1); [lia | exact Hy]. }
    unfold remainder_cond in Hexit.
    rewrite Hg1, bind_Return in Hexit. injection Hexit as Hexit.
    apply negb_false_iff, Z.eqb_eq in Hexit. subst y.
    rewrite last_lookup. replace (pred (length vals)) with (length vals - 1)%nat by lia.
    exact Hy.
Qed.


Lemma length_drop_last {A : Type} (l : list A) :
  length (drop_last l) = (length l - 1)%nat.
Proof. unfold drop_last. rewrite length_take. lia. Qed.

Lemma lookup_drop_last {A : Type} (l : list A) (i : nat) (v : A) :
  drop_last l !! i = Some v <-> l !! i = Some v /\ (i < length l - 1)%nat.
Proof. unfold drop_last. apply lookup_take_Some. Qed.

Lemma chain_of_remainders (a b : Z) (vals : list Z) :
  remainders_invariant a b vals -> remainder_chain (drop_last vals).
Proof.
  intros (_ & _ & Hchain & _) i x y Hx Hy.
  apply lookup_drop_last in Hx as [Hx _], Hy as [Hy Hlt].
  destruct (lookup_lt_is_Some_2 vals (S (S i)) ltac:(lia)) as [z' Hz'].
  split; [exact (proj1 (Hchain i x y z' Hx Hy Hz'))|].
  intros z Hz. apply lookup_drop_last in Hz as [Hz _].
  exact (proj2 (Hchain i x y z Hx Hy Hz)).
Qed.

(** The back-substitution, on a remainder chain of at least three entries
    that ends in [g], returns coefficients of [g] over the first two. *)
Lemma back_substitution (vals : list Z) (g : Z) :
  remainder_chain vals -> (3 <= length vals)%nat -> last vals = Some g ->
  exists x y a b s t,
    vals !! (length vals - 3)%nat = Some x /\
    vals !! (length vals - 2)%nat = Some y /\ y <> 0 /\
    vals !! 0%nat = Some a /\ vals !! 1%nat = Some b /\
    for_ (range_step (len vals - 2) 1 (-1)) (substitute vals) (1, - (x / y))
      = Return (s, t) /\
    g = s * a + t * b.
Proof.
  intros Hchain Hlen Hlast.
  rewrite last_lookup in Hlast.
  destruct (lookup_lt_is_Some_2 vals (length vals - 3)%nat ltac:(lia)) as [x Hx].
  destruct (lookup_lt_is_Some_2 vals (length vals - 2)%nat ltac:(lia)) as [y Hy].
  destruct (lookup_lt_is_Some_2 vals 0%nat ltac:(lia)) as [a Ha].
  destruct (lookup_lt_is_Some_2 vals 1%nat ltac:(lia)) as [b Hb].
  assert (y <> 0 /\ g = x mod y) as [Hy0 Hg].
  { destruct (Hchain (length vals - 3)%nat x y Hx) as [? Hz].
    - replace (S (length vals - 3)) with (length vals - 2)%nat by lia. exact Hy.
    - split; [assumption|]. apply Hz.
      replace (S (S (length vals - 3))) with (pred (length vals)) by lia. exact Hlast. }
  destruct (for_inv (substitute vals) (range_step (len vals - 2) 1 (-1))
              (substitution_invariant vals g) (1, - (x / y))) as ([s t] & Hrun & Hend).
  - exists x, y. rewrite !Nat.sub_0_r. repeat split; try assumption.
    rewrite Hg, Z.mod_eq by assumption. ring.
  - intros j i [s t] Hi (x1 & y1 & Hx1 & Hy1 & Hcomb).
    apply lookup_range_down in Hi as [Hi Hlow]. unfold len in Hi, Hlow.
    destruct (lookup_lt_is_Some_2 vals (length vals - 4 - j)%nat ltac:(lia)) as [w Hw].
    destruct (Hchain (length vals - 4 - j)%nat w x1 Hw) as [Hx0 Hz].
    { replace (S (length vals - 4 - j)) with (length vals - 3 - j)%nat by lia. exact Hx1. }
    assert (y1 = w mod x1) as Hy1eq.
    { apply Hz. replace (S (S (length vals - 4 - j))) with (length vals - 2 - j)%nat by lia.
      exact Hy1. }
    unfold substitute.
    replace (i - 2) with (Z.of_nat (length vals - 4 - j)) by lia.
    rewrite (getitem_front vals _ w Hw), bind_Return.
    replace (i - 1) with (Z.of_nat (length vals - 3 - j)) by lia.
    rewrite (getitem_front vals _ x1 Hx1), bind_Return.
    rewrite (floordiv_Return w x1 Hx0), bind_Return.
    eexists; split; [reflexivity|].
    exists w, x1.
    replace (length vals - 3 - S j)%nat with (length vals - 4 - j)%nat by lia.
    replace (length vals - 2 - S j)%nat with (length vals - 3 - j)%nat by lia.
    repeat split; try assumption.
    rewrite Hcomb, Hy1eq, Z.mod_eq by assumption. ring.
  - exists x, y, a, b, s, t. repeat split; try assumption.
    rewrite length_range_down in Hend. unfold len in Hend.
    destruct Hend as (x' & y' & Hx' & Hy' & Hcomb).
    replace (length vals - 3 - Z.to_nat (Z.of_nat (length vals) - 2 - 1))%nat
      with 0%nat in Hx' by lia.
    replace (length vals - 2 - Z.to_nat (Z.of_nat (length vals) - 2 - 1))%nat
      with 1%nat in Hy' by lia.
    congruence.
Qed.

(** The statements of [ex_gcd] up to the [if did_swap], for operands that
    are coprime and whose second is at least 2. *)
Lemma coprime_coefficients (a b : Z) :
  0 <= a -> 2 <= b -> Z.gcd a b = 1 ->
  exists vals x y s t,
    remainder_loop a b = Return vals /\
    getitem (drop_last vals) (-3) = Return x /\
    getitem (drop_last vals) (-2) = Return y /\ y <> 0 /\
    for_ (range_step (len (drop_last vals) - 2) 1 (-1)) (substitute (drop_last vals))
         (1, - (x / y)) = Return (s, t) /\
    getitem (drop_last vals) (-1) = Return 1 /\
    1 = s * a + t * b.
Proof.
  intros Ha Hb Hco.
  destruct (remainder_loop_returns a b) as (vals & Hrun & Hinv & Hlast).
  pose proof (chain_of_remainders a b vals Hinv) as Hchain.
  destruct Hinv as (Hv0 & Hv1 & Htriple & Hgcd & Hsign).
  specialize (Hsign Ha ltac:(lia)).
  rewrite last_lookup in Hlast.
  assert (2 <= length vals)%nat as Hlen2 by (apply lookup_lt_Some in Hv1; lia).
  destruct (lookup_lt_is_Some_2 vals (length vals - 2)%nat ltac:(lia)) as [g Hg].
  assert (g = 1) as ->.
  { assert (Z.gcd g 0 = Z.gcd a b) as Hg0.
    { apply (Hgcd (length vals - 2)%nat); [exact Hg|].
      replace (S (length vals - 2)) with (pred (length vals)) by lia. exact Hlast. }
    rewrite Z.gcd_0_r, Hco in Hg0. pose proof (Hsign _ _ Hg). lia. }
  assert (4 <= length vals)%nat as Hlen4.
  { destruct (decide (length vals = 2%nat)) as [E|?].
    { rewrite E in Hlast. simpl in Hlast. rewrite Hv1 in Hlast.
      injection Hlast as Hlast. lia. }
    destruct (decide (length vals = 3%nat)) as [E|?]; [|lia].
    rewrite E in Hg. simpl in Hg. rewrite Hv1 in Hg. injection Hg as Hg. lia. }
  set (V := drop_last vals) in *.
  assert (length V = (length vals - 1)%nat) as HlenV by apply length_drop_last.
  assert (last V = Some 1) as HlastV.
  { rewrite last_lookup. apply lookup_drop_last. split; [|lia].
    replace (pred (length V)) with (length vals - 2)%nat by lia. exact Hg. }
  destruct (back_substitution V 1 Hchain ltac:(lia) HlastV)
    as (x & y & a' & b' & s & t & Hx & Hy & Hy0 & Ha' & Hb' & Hfor & Hcomb).
  apply lookup_drop_last in Ha' as [Ha' _], Hb' as [Hb' _].
  assert (a' = a) as -> by congruence. assert (b' = b) as -> by congruence.
  exists vals, x, y, s, t. repeat split; try assumption.
  - apply (getitem_back V 3); [lia | exact Hx].
  - apply (getitem_back V 2); [lia | exact Hy].
  - apply (getitem_back V 1); [lia|]. rewrite last_lookup in HlastV.
    replace (length V - 1)%nat with (pred (length V)) by lia. exact HlastV.
Qed.

(** For coprime operands that are both at least 2, [ex_gcd] returns the gcd
    1 and the inverse of its first argument modulo its second, reduced
    into [0, b). *)
Lemma ex_gcd_inverse (a b : Z) :
  2 <= a -> 2 <= b -> Z.gcd a b = 1 ->
  exists inv, ex_gcd a b = Return (1, inv) /\ (a * inv) mod b = 1 /\ 0 <= inv < b.
Proof.
  intros Ha Hb Hco. unfold ex_gcd.
  destruct (decide (b > a)) as [Hswap|Hkeep].
  - destruct (coprime_coefficients b a ltac:(lia) Ha ltac:(rewrite Z.gcd_comm; exact Hco))
      as (vals & x & y & s & t & Hrun & Hx & Hy & Hy0 & Hfor & Hg & Hcomb).
    rewrite Hrun, bind_Return. cbv zeta.
    rewrite Hx, bind_Return, Hy, bind_Return, (floordiv_Return x y Hy0), bind_Return.
    rewrite Hfor, bind_Return, Hg, bind_Return, (mod_Return t b), bind_Return by lia.
    eexists; split; [reflexivity|]. split; [|apply Z.mod_pos_bound; lia].
    rewrite Z.mul_mod_idemp_r by lia.
    replace (a * t) with (1 + (- s) * b) by lia.
    rewrite Z.mod_add by lia. apply Z.mod_small; lia.
  - destruct (coprime_coefficients a b ltac:(lia) Hb Hco)
      as (vals & x & y & s & t & Hrun & Hx & Hy & Hy0 & Hfor & Hg & Hcomb).
    rewrite Hrun, bind_Return. cbv zeta.
    rewrite Hx, bind_Return, Hy, bind_Return, (floordiv_Return x y Hy0), bind_Return.
    rewrite Hfor, bind_Return, Hg, bind_Return, (mod_Return s b), bind_Return by lia.
    eexists; split; [reflexivity|]. split; [|apply Z.mod_pos_bound; lia].
    rewrite Z.mul_mod_idemp_r by lia.
    replace (a * s) with (1 + (- t) * b) by lia.
    rewrite Z.mod_add by lia. apply Z.mod_small; lia.
Qed.


(** When the smaller operand is 1 the remainder sequence has only the two
    operands left after the zero is dropped, and the subscript [-3] of
    line 46 is out of range. *)
Lemma remainder_loop_unit (x : Z) : remainder_loop x 1 = Return [x; 1; 0].
Proof.
  assert (remainder_step [x; 1] = Return [x; 1; 0]) as Hstep.
  { transitivity (Return (A := list Z) [x; 1; x mod 1]); [reflexivity|].
    rewrite Z.mod_1_r. reflexivity. }
  assert (remainder_cond [x; 1] = Return true) as Hgo by reflexivity.
  assert (remainder_cond [x; 1; 0] = Return false) as Hstop by reflexivity.
  unfold remainder_loop. change (Z.abs_nat 1) with 1%nat.
  rewrite while_S, Hgo, bind_Return, Hstep, bind_Return.
  rewrite while_S, Hstop, bind_Return. reflexivity.
Qed.

Lemma ex_gcd_unit_operand (a b : Z) :
  1 <= a -> 1 <= b -> Z.min a b = 1 -> ex_gcd a b = Raise IndexError.
Proof.
  intros Ha Hb Hmin. unfold ex_gcd.
  destruct (decide (b > a)) as [Hswap|Hkeep].
  - assert (a = 1) as -> by lia. rewrite remainder_loop_unit. reflexivity.
  - assert (b = 1) as -> by lia. rewrite remainder_loop_unit. reflexivity.
Qed.

End ex_gcd_correct.

(** ** The windowed sieve *)
Section sieve_correct.

Lemma lookup_range_up (start stop step : Z) (j : nat) (x : Z) :
  0 < step ->
  range_step start stop step !! j = Some x <->
  x = start + Z.of_nat j * step /\ start + Z.of_nat j * step < stop.
Proof.
  intros Hstep. unfold range_step.
  destruct (decide (0 < step)) as [_|?]; [|lia].
  rewrite list_lookup_fmap.
  set (n := (stop - start + step - 1) / step).
  assert (Z.of_nat j < n <-> start + Z.of_nat j * step < stop) as Hcount.
  { unfold n. split; intros H.
    - pose proof (Z.mul_div_le (stop - start + step - 1) step Hstep). nia.
    - assert (Z.of_nat j + 1 <= (stop - start + step - 1) / step); [|lia].
      apply Z.div_le_lower_bound; [assumption | nia]. }
  split.
  - intros H. apply fmap_Some in H as (k & Hk & ->).
    apply lookup_seqZ in Hk as [-> Hk]. rewrite Z.add_0_l. split; [reflexivity | tauto].
  - intros [-> Hlt]. rewrite lookup_seqZ_lt by tauto. reflexivity.
Qed.

Lemma table_ext (start end_ : Z) (C C' : Z -> Prop) (l : list bool) :
  (forall x, start <= x <= end_ -> (C x <-> C' x)) ->
  table start end_ C l -> table start end_ C' l.
Proof.
  intros Hext [Hlen Htab]. split; [exact Hlen|].
  intros x Hx. rewrite <- (Hext x Hx). apply Htab; exact Hx.
Qed.

Lemma table_mark (start end_ : Z) (C : Z -> Prop) (l : list bool) (q : Z) :
  table start end_ C l -> start <= q <= end_ ->
  exists l', setitem l (q - start) false = Return l' /\
             table start end_ (fun x => C x \/ x = q) l'.
Proof.
  intros [Hlen Htab] Hq.
  rewrite setitem_front by lia.
  eexists; split; [reflexivity|]. split; [rewrite length_insert; exact Hlen|].
  intros x Hx. destruct (decide (x = q)) as [->|Hne].
  - rewrite list_lookup_insert_eq by lia. tauto.
  - rewrite list_lookup_insert_ne by lia. rewrite (Htab x Hx). tauto.
Qed.

Lemma mark_from_spec (start end_ d p : Z) (C : Z -> Prop) (l : list bool) :
  table start end_ C l -> start <= p -> 0 < d ->
  exists l', mark_from start end_ d p l = Return l' /\
    table start end_ (fun x => C x \/ exists k, 0 <= k /\ x = p + k * d) l'.
Proof.
  intros Htab Hp Hd. unfold mark_from.
  destruct (for_inv (fun q is_prime => setitem is_prime (q - start) false)
              (range_step p (end_ + 1) d)
              (fun j => table start end_
                 (fun x => C x \/ exists k, 0 <= k < Z.of_nat j /\ x = p + k * d)) l)
    as (l' & Hrun & Hend).
  - revert Htab. apply table_ext. intros x _. split; [tauto|].
    intros [?|(k & ? & _)]; [assumption | lia].
  - intros j q l1 Hq Hl1. apply lookup_range_up in Hq as [-> Hq]; [|assumption].
    destruct (table_mark start end_ _ l1 (p + Z.of_nat j * d) Hl1 ltac:(nia))
      as (l2 & Hset & Hl2).
    exists l2. split; [exact Hset|]. revert Hl2. apply table_ext. intros x _. split.
    + intros [[?|(k & ? & ?)]| ->]; [tauto | right; exists k; lia |].
      right. exists (Z.of_nat j). lia.
    + intros [?|(k & Hk & ->)]; [tauto|].
      destruct (decide (k = Z.of_nat j)) as [->|?]; [tauto|].
      left. right. exists k. lia.
  - exists l'. split; [exact Hrun|]. revert Hend. apply table_ext. intros x Hx. split.
    + intros [?|(k & ? & ?)]; [tauto | right; exists k; lia].
    + intros [?|(k & Hk & ->)]; [tauto|]. right. exists k. split; [|reflexivity].
      assert (Z.to_nat k < length (range_step p (end_ + 1) d))%nat; [|lia].
      apply lookup_lt_is_Some_1. exists (p + k * d).
      apply lookup_range_up; [assumption|]. rewrite Z2Nat.id by lia. lia.
Qed.

Lemma mark_divisor_spec (start end_ d : Z) (C : Z -> Prop) (l : list bool) :
  table start end_ C l -> 0 < d ->
  exists l', mark_divisor start end_ d l = Return l' /\
    table start end_ (fun x => C x \/ x mod d = 0) l'.
Proof.
  intros Htab Hd. unfold mark_divisor.
  destruct (for_inv
              (fun p is_prime =>
                 r ← mod_ p d;
                 if decide (r = 0) then mark_from start end_ d p is_prime
                 else Return is_prime)
              (range start (end_ + 1))
              (fun j => table start end_
                 (fun x => C x \/ exists p k, start <= p < start + Z.of_nat j /\
                                              p mod d = 0 /\ 0 <= k /\ x = p + k * d)) l)
    as (l' & Hrun & Hend).
  - revert Htab. apply table_ext. intros x _. split; [tauto|].
    intros [?|(p & k & ? & _)]; [assumption | lia].
  - intros j p l1 Hp Hl1. apply lookup_range in Hp as [-> Hp].
    rewrite (mod_Return _ d) by lia. rewrite bind_Return.
    destruct (decide ((start + Z.of_nat j) mod d = 0)) as [Hdiv|Hndiv].
    + destruct (mark_from_spec start end_ d (start + Z.of_nat j) _ l1 Hl1 ltac:(lia) Hd)
        as (l2 & Hmark & Hl2).
      exists l2. split; [exact Hmark|]. revert Hl2. apply table_ext. intros x _. split.
      * intros [[?|(p & k & ? & ? & ? & ?)]|(k & ? & ?)]; [tauto | |].
        -- right. exists p, k. repeat split; try assumption; lia.
        -- right. exists (start + Z.of_nat j), k. repeat split; try assumption; lia.
      * intros [?|(p & k & Hp' & ? & ? & ?)]; [tauto|].
        destruct (decide (p = start + Z.of_nat j)) as [->|?].
        -- right. exists k. tauto.
        -- left. right. exists p, k. repeat split; try assumption; lia.
    + exists l1. split; [reflexivity|]. revert Hl1. apply table_ext. intros x _. split.
      * intros [?|(p & k & ? & ? & ? & ?)]; [tauto|].
        right. exists p, k. repeat split; try assumption; lia.
      * intros [?|(p & k & Hp' & ? & ? & ?)]; [tauto|].
        destruct (decide (p = start + Z.of_nat j)) as [->|?]; [contradiction|].
        right. exists p, k. repeat split; try assumption; lia.
  - exists l'. split; [exact Hrun|]. revert Hend. apply table_ext. intros x Hx.
    rewrite length_range. split.
    + intros [?|(p & k & ? & Hp0 & ? & ->)]; [tauto|]. right.
      rewrite Z.mod_add by lia. exact Hp0.
    + intros [?|Hx0]; [tauto|]. right. exists x, 0. repeat split; try assumption; lia.
Qed.

(** The marking loop of the sieve, for any bound [stop] of its divisors:
    it marks exactly the multiples of the divisors below [stop]. *)
Lemma sieve_loop_spec (start end_ stop : Z) :
  exists l, for_ (range 2 stop) (mark_divisor start end_)
              (replicate (Z.to_nat (end_ - start + 1)) true) = Return l /\
            table start end_ (marked_below stop) l.
Proof.
  destruct (for_inv (mark_divisor start end_) (range 2 stop)
              (fun j => table start end_
                 (fun x => exists d, 2 <= d < 2 + Z.of_nat j /\ x mod d = 0))
              (replicate (Z.to_nat (end_ - start + 1)) true))
    as (l & Hrun & Hl).
  - split; [apply length_replicate|]. intros x Hx.
    rewrite lookup_replicate_2 by lia. split; [discriminate|].
    intros (d & ? & _). lia.
  - intros j d l1 Hd Hl1. apply lookup_range in Hd as [-> Hd].
    destruct (mark_divisor_spec start end_ (2 + Z.of_nat j) _ l1 Hl1 ltac:(lia))
      as (l2 & Hmark & Hl2).
    exists l2. split; [exact Hmark|]. revert Hl2. apply table_ext. intros x _. split.
    + intros [(d & ? & ?)|?]; [exists d; split; [lia | assumption]|].
      exists (2 + Z.of_nat j). split; [lia | assumption].
    + intros (d & Hd' & Hx0).
      destruct (decide (d = 2 + Z.of_nat j)) as [->|?]; [tauto|].
      left. exists d. split; [lia | assumption].
  - exists l. split; [exact Hrun|]. revert Hl. apply table_ext. intros x _.
    rewrite length_range. unfold marked_below.
    split; intros (d & ? & ?); exists d; (split; [lia | assumption]).
Qed.

(** The sieve with the bound that [int(end**0.5 + 1)] gave. *)
Lemma sieve_stop_spec `{!Libm} (start end_ stop : Z) :
  int_sqrt_plus_1 end_ = Return stop ->
  exists l, sieve start end_ = Return l /\ table start end_ (marked_below stop) l.
Proof.
  intros Hstop. unfold sieve. rewrite Hstop, bind_Return. apply sieve_loop_spec.
Qed.

(** Below [exact_limit] the sieve marks exactly the multiples of the trial
    divisors up to the root of the upper end of its window. *)
Lemma sieve_spec `{!Libm} (start end_ : Z) :
  0 <= end_ < exact_limit ->
  exists l, sieve start end_ = Return l /\ table start end_ (trial_multiple end_) l.
Proof.
  intros Hend.
  destruct (sieve_stop_spec start end_ _ (int_sqrt_plus_1_exact end_ Hend))
    as (l & Hrun & Htab).
  exists l. split; [exact Hrun|]. revert Htab. apply table_ext. intros x _.
  unfold marked_below, trial_multiple.
  split; intros (d & ? & ?); exists d; (split; [lia | assumption]).
Qed.

(** The sieve fails only where the float expression does. *)
Lemma sieve_raises `{!Libm} (start end_ : Z) (e : exn) :
  sieve start end_ = Raise e ->
  (e = OverflowError /\ float_limit <= Z.abs end_) \/ (e = TypeError /\ end_ < 0).
Proof.
  intros Hrun. destruct (int_sqrt_plus_1 end_) as [stop|e'|] eqn:Hstop.
  - destruct (sieve_stop_spec start end_ stop Hstop) as (l & Heq & _).
    rewrite Heq in Hrun. discriminate.
  - unfold sieve in Hrun. rewrite Hstop in Hrun. injection Hrun as <-.
    apply int_sqrt_plus_1_raises. exact Hstop.
  - unfold sieve in Hrun. rewrite Hstop in Hrun. discriminate.
Qed.

Lemma int_sqrt_plus_1_finishes `{!Libm} (x : Z) : int_sqrt_plus_1 x <> Unfinished.
Proof.
  unfold int_sqrt_plus_1, float_of_int.
  destruct (decide (2 ^ 1024 <= round_even (Z.abs x))); [discriminate|].
  rewrite bind_Return. destruct (decide (x < 0)); discriminate.
Qed.

Lemma table_lookup (start end_ : Z) (C : Z -> Prop) (l : list bool) (x : Z) :
  table start end_ C l -> start <= x <= end_ ->
  l !! Z.to_nat (x - start) = Some true <-> ~ C x.
Proof.
  intros [Hlen Htab] Hx.
  destruct (lookup_lt_is_Some_2 l (Z.to_nat (x - start)) ltac:(lia)) as [v Hv].
  rewrite <- (Htab x Hx), Hv. destruct v; split; congruence.
Qed.

Lemma first_unmarked_spec (l : list bool) (indices : list Z) :
  (forall i, i ∈ indices -> 0 <= i < Z.of_nat (length l)) ->
  exists r, first_unmarked l indices = Return r /\
    match r with
    | Some i => i ∈ indices /\ l !! Z.to_nat i = Some true
    | None => forall i, i ∈ indices -> l !! Z.to_nat i = Some false
    end.
Proof.
  induction indices as [|i rest IH]; intros Hin; simpl.
  - exists None. split; [reflexivity|]. intros i Hi. inversion Hi.
  - assert (0 <= i < Z.of_nat (length l)) as Hi by (apply Hin; left).
    destruct (lookup_lt_is_Some_2 l (Z.to_nat i) ltac:(lia)) as [v Hv].
    assert (getitem l i = Return v) as Hget.
    { replace i with (Z.of_nat (Z.to_nat i)) by lia. apply getitem_front.
      exact Hv. }
    rewrite Hget, bind_Return.
    destruct v.
    + exists (Some i). split; [reflexivity|]. split; [left | exact Hv].
    + destruct IH as (r & Hr & Hspec); [intros k Hk; apply Hin; right; exact Hk|].
      exists r. split; [exact Hr|]. destruct r as [k|].
      * destruct Hspec. split; [right|]; assumption.
      * intros k Hk. inversion Hk; subst; [exact Hv | auto].
Qed.

End sieve_correct.

(** ** Prime generation *)
Section gen_prime_correct.

Lemma prime_of_no_small_divisor (x : Z) :
  2 <= x -> (forall d, 2 <= d <= Z.sqrt x -> x mod d <> 0) -> Z.prime x.
Proof.
  intros Hx Hnone. split; [lia|]. intros n Hn [k Hk].
  pose proof (Z.sqrt_spec x ltac:(lia)) as [Hlo Hhi].
  pose proof (Z.sqrt_nonneg x) as Hs.
  assert (1 < k < x) as Hkr by nia.
  destruct (decide (n <= Z.sqrt x)) as [Hsmall|Hbig].
  - apply (Hnone n); [lia|]. subst x. apply Z.mod_mul. lia.
  - apply (Hnone k).
    + split; [lia|]. destruct (decide (k <= Z.sqrt x)); [assumption | nia].
    + subst x. rewrite Z.mul_comm. apply Z.mod_mul. lia.
Qed.

Lemma prime_no_small_divisor (x d : Z) :
  Z.prime x -> 2 <= d <= Z.sqrt x -> x mod d <> 0.
Proof.
  intros [Hx Hnone] Hd Hmod.
  assert (Z.sqrt x < x) by (apply Z.sqrt_lt_lin; lia).
  apply (Hnone d); [lia|]. apply Z.mod_divide; [lia | assumption].
Qed.

Lemma trial_division_prime_sound (x : Z) :
  trial_division_prime x = true -> Z.prime x.
Proof.
  unfold trial_division_prime. intros H.
  apply andb_true_iff in H as [Hx Hall]. apply bool_decide_eq_true in Hx.
  apply prime_of_no_small_divisor; [assumption|].
  intros d Hd. rewrite forallb_forall in Hall.
  specialize (Hall d). rewrite <- list_elem_of_In, elem_of_seqZ in Hall.
  specialize (Hall ltac:(lia)). apply negb_true_iff, Z.eqb_neq in Hall. exact Hall.
Qed.

(** One round of the [while True] loop, for the bound [stop] that the
    float expression gave: the window of the draw, its sieve and the scan
    for the first unmarked entry. *)
Lemma gen_prime_loop_round_stop `{!Libm} (a b midpoint stop : Z) (draws : list Z) :
  let start := Z.max a (midpoint - 50) in
  let end_ := Z.min b (midpoint + 50) in
  int_sqrt_plus_1 end_ = Return stop ->
  exists l found,
    sieve start end_ = Return l /\ table start end_ (marked_below stop) l /\
    first_unmarked l (range 0 (end_ - start + 1)) = Return found /\
    gen_prime_loop a b (midpoint :: draws) =
      match found with
      | Some i => Return (start + i, draws)
      | None => gen_prime_loop a b draws
      end /\
    match found with
    | Some i => 0 <= i <= end_ - start /\ ~ marked_below stop (start + i)
    | None => forall x, start <= x <= end_ -> marked_below stop x
    end.
Proof.
  intros start end_ Hstop.
  destruct (sieve_stop_spec start end_ stop Hstop) as (l & Hsieve & Htab).
  destruct (first_unmarked_spec l (range 0 (end_ - start + 1))) as (found & Hscan & Hfound).
  { intros i Hi. apply elem_of_range in Hi. destruct Htab as [Hlen _]. lia. }
  exists l, found. split; [exact Hsieve|]. split; [exact Htab|]. split; [exact Hscan|].
  split.
  - simpl. fold start end_. rewrite Hsieve, bind_Return, Hscan, bind_Return. reflexivity.
  - destruct found as [i|].
    + destruct Hfound as [Hi Htrue]. apply elem_of_range in Hi. split; [lia|].
      apply (table_lookup start end_ _ l (start + i) Htab); [lia|].
      replace (start + i - start) with i by lia. exact Htrue.
    + intros x Hx. destruct Htab as [_ Htab]. apply (Htab x Hx).
      apply Hfound. apply elem_of_range. lia.
Qed.

(** The same round where the bound is exact. *)
Lemma gen_prime_loop_round `{!Libm} (a b midpoint : Z) (draws : list Z) :
  let start := Z.max a (midpoint - 50) in
  let end_ := Z.min b (midpoint + 50) in
  0 <= end_ < exact_limit ->
  exists l found,
    sieve start end_ = Return l /\ table start end_ (trial_multiple end_) l /\
    first_unmarked l (range 0 (end_ - start + 1)) = Return found /\
    gen_prime_loop a b (midpoint :: draws) =
      match found with
      | Some i => Return (start + i, draws)
      | None => gen_prime_loop a b draws
      end /\
    match found with
    | Some i => 0 <= i <= end_ - start /\ ~ trial_multiple end_ (start + i)
    | None => forall x, start <= x <= end_ -> trial_multiple end_ x
    end.
Proof.
  intros start end_ Hend.
  destruct (sieve_spec start end_ Hend) as (l & Hsieve & Htab).
  destruct (first_unmarked_spec l (range 0 (end_ - start + 1))) as (found & Hscan & Hfound).
  { intros i Hi. apply elem_of_range in Hi. destruct Htab as [Hlen _]. lia. }
  exists l, found. split; [exact Hsieve|]. split; [exact Htab|]. split; [exact Hscan|].
  split.
  - simpl. fold start end_. rewrite Hsieve, bind_Return, Hscan, bind_Return. reflexivity.
  - destruct found as [i|].
    + destruct Hfound as [Hi Htrue]. apply elem_of_range in Hi. split; [lia|].
      apply (table_lookup start end_ _ l (start + i) Htab); [lia|].
      replace (start + i - start) with i by lia. exact Htrue.
    + intros x Hx. destruct Htab as [_ Htab]. apply (Htab x Hx).
      apply Hfound. apply elem_of_range. lia.
Qed.

(** A round whose float expression fails ends the call with its error. *)
Lemma gen_prime_loop_round_raise `{!Libm} (a b midpoint : Z) (draws : list Z) (e : exn) :
  int_sqrt_plus_1 (Z.min b (midpoint + 50)) = Raise e ->
  gen_prime_loop a b (midpoint :: draws) = Raise e.
Proof. intros Hstop. simpl. unfold sieve. rewrite Hstop. reflexivity. Qed.

(** Whatever the draws and the platform, a returned value comes from the
    window of one of the draws and is unmarked there. *)
Lemma gen_prime_loop_window `{!Libm} (a b : Z) (draws : list Z) (p : Z) (rest : list Z) :
  gen_prime_loop a b draws = Return (p, rest) ->
  exists midpoint stop, midpoint ∈ draws /\
    Z.max a (midpoint - 50) <= p <= Z.min b (midpoint + 50) /\
    int_sqrt_plus_1 (Z.min b (midpoint + 50)) = Return stop /\
    ~ marked_below stop p.
Proof.
  induction draws as [|midpoint draws IH]; intros Hrun; [discriminate|].
  destruct (int_sqrt_plus_1 (Z.min b (midpoint + 50))) as [stop|e|] eqn:Hstop.
  - destruct (gen_prime_loop_round_stop a b midpoint stop draws Hstop)
      as (l & found & _ & _ & _ & Heq & Hfound).
    rewrite Heq in Hrun. destruct found as [i|].
    + injection Hrun as <- <-. exists midpoint, stop. split; [left|].
      destruct Hfound as [Hi Hnot]. split; [lia|]. split; [exact Hstop | exact Hnot].
    + destruct (IH Hrun) as (m & st & Hm & Hrest). exists m, st.
      split; [right; exact Hm | exact Hrest].
  - rewrite (gen_prime_loop_round_raise a b midpoint draws e Hstop) in Hrun. discriminate.
  - exfalso. exact (int_sqrt_plus_1_finishes _ Hstop).
Qed.

(** Below [exact_limit], a value the loop returns lies in the range and is
    prime, whatever the draws. *)
Lemma gen_prime_loop_sound `{!Libm} (a b : Z) (draws : list Z) :
  2 <= a -> b < exact_limit ->
  forall p rest, gen_prime_loop a b draws = Return (p, rest) ->
    a <= p <= b /\ Z.prime p.
Proof.
  intros Ha Hb p rest Hrun.
  destruct (gen_prime_loop_window a b draws p rest Hrun) as (m & stop & _ & Hwin & Hstop & Hnot).
  rewrite int_sqrt_plus_1_exact in Hstop by lia. injection Hstop as <-.
  split; [lia|]. apply prime_of_no_small_divisor; [lia|].
  intros d Hd Hmod. apply Hnot. exists d. split; [|exact Hmod].
  split; [lia|]. assert (Z.sqrt p <= Z.sqrt (Z.min b (m + 50))); [|lia].
  apply Z.sqrt_le_mono. lia.
Qed.

(** The loop fails only where the float expression of one of its windows
    does: never with the range error, and never on windows inside the
    doubles. *)
Lemma gen_prime_loop_raises `{!Libm} (a b : Z) (draws : list Z) (e : exn) :
  gen_prime_loop a b draws = Raise e ->
  exists midpoint, midpoint ∈ draws /\
    ((e = OverflowError /\ float_limit <= Z.abs (Z.min b (midpoint + 50))) \/
     (e = TypeError /\ Z.min b (midpoint + 50) < 0)).
Proof.
  induction draws as [|midpoint draws IH]; intros Hrun; [discriminate|].
  destruct (int_sqrt_plus_1 (Z.min b (midpoint + 50))) as [stop|e'|] eqn:Hstop.
  - destruct (gen_prime_loop_round_stop a b midpoint stop draws Hstop)
      as (l & found & _ & _ & _ & Heq & _).
    rewrite Heq in Hrun. destruct found as [i|]; [discriminate|].
    destruct (IH Hrun) as (m & Hm & Hcase). exists m. split; [right; exact Hm | exact Hcase].
  - rewrite (gen_prime_loop_round_raise a b midpoint draws e' Hstop) in Hrun.
    injection Hrun as <-. exists midpoint. split; [left|].
    apply int_sqrt_plus_1_raises. exact Hstop.
  - exfalso. exact (int_sqrt_plus_1_finishes _ Hstop).
Qed.

(** A round whose window starts on an unmarked number returns it. *)
Lemma gen_prime_loop_first `{!Libm} (a b midpoint stop : Z) (draws : list Z) :
  let start := Z.max a (midpoint - 50) in
  let end_ := Z.min b (midpoint + 50) in
  int_sqrt_plus_1 end_ = Return stop -> start <= end_ -> ~ marked_below stop start ->
  gen_prime_loop a b (midpoint :: draws) = Return (start, draws).
Proof.
  intros start end_ Hstop Hwin Hnot.
  destruct (sieve_stop_spec start end_ stop Hstop) as (l & Hsieve & Htab).
  simpl. fold start end_. rewrite Hsieve, bind_Return.
  unfold range. rewrite seqZ_cons by lia. cbn [first_unmarked].
  assert (l !! 0%nat = Some true) as Hfirst.
  { apply (table_lookup start end_ _ l start Htab) in Hnot; [|lia].
    replace (start - start) with 0 in Hnot by lia. exact Hnot. }
  assert (getitem l 0 = Return true) as -> by (apply (getitem_front l 0 true Hfirst)).
  rewrite !bind_Return. rewrite Z.add_0_r. reflexivity.
Qed.

(** The divisors below [stop] mark neither a prime that is not below
    [stop] nor its square. *)
Lemma prime_unmarked (stop x : Z) : Z.prime x -> stop <= x -> ~ marked_below stop x.
Proof.
  intros [Hx Hprime] Hstop (d & Hd & Hmod).
  apply (Hprime d); [lia|]. apply Z.mod_divide; [lia | exact Hmod].
Qed.

Lemma prime_square_unmarked (stop x : Z) :
  Z.prime x -> stop <= x -> ~ marked_below stop (x * x).
Proof.
  intros Hx Hstop (d & Hd & Hmod). apply Z.mod_divide in Hmod; [|lia].
  assert (Z.gcd d x = 1) as Hco.
  { rewrite Z.gcd_comm. apply Z.coprime_prime_small; [exact Hx | lia]. }
  pose proof (Z.gauss d x x Hmod Hco) as Hdiv.
  destruct Hx as [_ Hprime]. apply (Hprime d); [lia | exact Hdiv].
Qed.

Lemma gen_prime_invalid `{!Libm} (a b : Z) (draws : list Z) :
  a < 2 \/ b < a -> gen_prime a b draws = Raise InvalidRangeError.
Proof. intros H0. unfold gen_prime. destruct (decide (a < 2 \/ b < a)); tauto. Qed.

Lemma gen_prime_valid `{!Libm} (a b : Z) (draws : list Z) :
  2 <= a -> a <= b -> gen_prime a b draws = gen_prime_loop a b draws.
Proof.
  intros Ha Hb. unfold gen_prime.
  destruct (decide (a < 2 \/ b < a)) as [[?|?]|_]; [lia | lia | reflexivity].
Qed.

(** A returned value lies in the range, on every platform. *)
Lemma gen_prime_in_range `{!Libm} (a b : Z) (draws : list Z) (p : Z) (rest : list Z) :
  gen_prime a b draws = Return (p, rest) -> 2 <= a /\ a <= p <= b.
Proof.
  unfold gen_prime. destruct (decide (a < 2 \/ b < a)) as [?|Hok]; [discriminate|].
  intros Hrun. split; [lia|].
  destruct (gen_prime_loop_window a b draws p rest Hrun) as (m & stop & _ & Hwin & _). lia.
Qed.

Lemma gen_prime_sound `{!Libm} (a b : Z) (draws : list Z) (p : Z) (rest : list Z) :
  b < exact_limit ->
  gen_prime a b draws = Return (p, rest) -> 2 <= a /\ a <= p <= b /\ Z.prime p.
Proof.
  intros Hb. unfold gen_prime. destruct (decide (a < 2 \/ b < a)) as [?|Hok]; [discriminate|].
  intros Hrun. split; [lia|].
  apply (gen_prime_loop_sound a b draws ltac:(lia) Hb p rest Hrun).
Qed.

End gen_prime_correct.

(** ** Trial-division factoring and the attack *)
Section attack_correct.

Lemma dual_factor_scan_first (N r : Z) :
  forall (k : nat) (lo cnt : Z),
    Z.to_nat (r - lo) = k -> 0 < lo -> lo <= r < lo + cnt ->
    N mod r = 0 -> (forall a, lo <= a < r -> N mod a <> 0) ->
    dual_factor_scan N (seqZ lo cnt) = Return (Some (r, N / r)).
Proof.
  induction k as [|k IH]; intros lo cnt Hk Hlo Hr Hdiv Hnone;
    rewrite seqZ_cons by lia; simpl; rewrite (mod_Return N lo), bind_Return by lia.
  - assert (lo = r) as -> by lia.
    destruct (decide (N mod r = 0)) as [_|?]; [|contradiction].
    rewrite (floordiv_Return N r), bind_Return by lia. reflexivity.
  - destruct (decide (N mod lo = 0)) as [Hz|_].
    + exfalso. apply (Hnone lo); [lia | exact Hz].
    + apply IH; try lia; try assumption. intros a Ha. apply Hnone. lia.
Qed.

Lemma dual_factor_scan_none (N : Z) (candidates : list Z) :
  (forall a, a ∈ candidates -> a <> 0 /\ N mod a <> 0) ->
  dual_factor_scan N candidates = Return None.
Proof.
  induction candidates as [|a rest IH]; intros Hnone; simpl; [reflexivity|].
  destruct (Hnone a ltac:(left)) as [Ha Hmod].
  rewrite (mod_Return N a Ha), bind_Return.
  destruct (decide (N mod a = 0)) as [?|_]; [contradiction|].
  apply IH. intros x Hx. apply Hnone. right. exact Hx.
Qed.

Lemma dual_factor_scan_spec (N : Z) (k : nat) :
  forall lo, 0 < lo ->
    (dual_factor_scan N (seqZ lo (Z.of_nat k)) = Return None /\
     forall x, lo <= x < lo + Z.of_nat k -> N mod x <> 0) \/
    (exists a, dual_factor_scan N (seqZ lo (Z.of_nat k)) = Return (Some (a, N / a)) /\
               lo <= a < lo + Z.of_nat k /\ N mod a = 0 /\
               forall x, lo <= x < a -> N mod x <> 0).
Proof.
  induction k as [|k IH]; intros lo Hlo.
  - left. rewrite seqZ_nil by lia. split; [reflexivity|]. intros x Hx. lia.
  - rewrite seqZ_cons by lia.
    replace (Z.pred (Z.of_nat (S k))) with (Z.of_nat k) by lia.
    simpl. rewrite (mod_Return N lo), bind_Return by lia.
    destruct (decide (N mod lo = 0)) as [Hdiv|Hndiv].
    + right. exists lo. rewrite (floordiv_Return N lo), bind_Return by lia.
      split; [reflexivity|]. split; [lia|]. split; [exact Hdiv|]. intros x Hx. lia.
    + destruct (IH (Z.succ lo) ltac:(lia)) as [[Hnone Hall]|(a & Hsome & Ha & Hmod & Hleast)].
      * left. split; [exact Hnone|]. intros x Hx.
        destruct (decide (x = lo)) as [->|?]; [exact Hndiv | apply Hall; lia].
      * right. exists a. split; [exact Hsome|]. split; [lia|]. split; [exact Hmod|].
        intros x Hx. destruct (decide (x = lo)) as [->|?]; [exact Hndiv | apply Hleast; lia].
Qed.

(** The scan with the bound [stop] that the float expression gave: it
    returns the least divisor of [N] in [[2, stop)] with its cofactor, or
    [None] when there is none. *)
Lemma dual_factor_stop_spec `{!Libm} (N stop : Z) :
  int_sqrt_plus_1 N = Return stop ->
  (dual_factor N = Return None /\
   forall x, 2 <= x < stop -> N mod x <> 0) \/
  (exists a, dual_factor N = Return (Some (a, N / a)) /\
             2 <= a < stop /\ N mod a = 0 /\
             forall x, 2 <= x < a -> N mod x <> 0).
Proof.
  intros Hstop. unfold dual_factor, range. rewrite Hstop, bind_Return.
  assert (seqZ 2 (stop - 2) = seqZ 2 (Z.of_nat (Z.to_nat (stop - 2)))) as ->.
  { unfold seqZ. rewrite Nat2Z.id. reflexivity. }
  destruct (dual_factor_scan_spec N (Z.to_nat (stop - 2)) 2 ltac:(lia))
    as [[Hnone Hall]|(a & Hsome & Ha & Hmod & Hleast)].
  - left. split; [exact Hnone|]. intros x Hx. apply Hall. lia.
  - right. exists a. split; [exact Hsome|]. split; [lia|]. split; assumption.
Qed.

Lemma dual_factor_spec `{!Libm} (N : Z) :
  0 <= N < exact_limit ->
  (dual_factor N = Return None /\
   forall x, 2 <= x <= Z.sqrt N -> N mod x <> 0) \/
  (exists a, dual_factor N = Return (Some (a, N / a)) /\
             2 <= a <= Z.sqrt N /\ N mod a = 0 /\
             forall x, 2 <= x < a -> N mod x <> 0).
Proof.
  intros HN.
  destruct (dual_factor_stop_spec N _ (int_sqrt_plus_1_exact N HN))
    as [[Hnone Hall]|(a & Hsome & Ha & Hmod & Hleast)].
  - left. split; [exact Hnone|]. intros x Hx. apply Hall. lia.
  - right. exists a. split; [exact Hsome|]. split; [lia|]. split; assumption.
Qed.

(** [dual_factor] fails only where the float expression does. *)
Lemma dual_factor_raises `{!Libm} (N : Z) (e : exn) :
  dual_factor N = Raise e ->
  (e = OverflowError /\ float_limit <= Z.abs N) \/ (e = TypeError /\ N < 0).
Proof.
  intros Hrun. destruct (int_sqrt_plus_1 N) as [stop|e'|] eqn:Hstop.
  - destruct (dual_factor_stop_spec N stop Hstop) as [[Hnone _]|(a & Hsome & _)].
    + rewrite Hnone in Hrun. discriminate.
    + rewrite Hsome in Hrun. discriminate.
  - unfold dual_factor in Hrun. rewrite Hstop in Hrun. injection Hrun as <-.
    apply int_sqrt_plus_1_raises. exact Hstop.
  - exfalso. exact (int_sqrt_plus_1_finishes _ Hstop).
Qed.

Lemma least_divisor_prime (N a : Z) :
  2 <= a -> N mod a = 0 -> (forall x, 2 <= x < a -> N mod x <> 0) -> Z.prime a.
Proof.
  intros Ha Hmod Hleast. split; [lia|]. intros n Hn Hdiv.
  apply (Hleast n ltac:(lia)). apply Z.mod0_divide.
  apply (Z.divide_trans n a N Hdiv). apply Z.mod_divide; [lia | exact Hmod].
Qed.

(** On the product of two primes the scan stops at the smaller one. *)
Lemma dual_factor_semiprime `{!Libm} (p q : Z) :
  Z.prime p -> Z.prime q -> p <= q -> p * q < exact_limit ->
  dual_factor (p * q) = Return (Some (p, q)).
Proof.
  intros Hp Hq Hle Hlim.
  pose proof (Z.prime_ge_2 p Hp) as Hp2. pose proof (Z.prime_ge_2 q Hq) as Hq2.
  assert (p <= Z.sqrt (p * q)) as Hroot.
  { apply Z.sqrt_le_square; nia. }
  assert ((p * q) mod p = 0) as Hmodp by (rewrite Z.mul_comm; apply Z.mod_mul; lia).
  destruct (dual_factor_spec (p * q) ltac:(nia))
    as [[_ Hall]|(a & Hsome & Ha & Hmod & Hleast)].
  - exfalso. exact (Hall p ltac:(lia) Hmodp).
  - assert (a = p) as ->.
    { destruct (decide (a < p)) as [Hlt|?].
      - exfalso. apply Z.mod_divide in Hmod; [|lia].
        assert (Z.gcd a p = 1) as Hco.
        { rewrite Z.gcd_comm. apply Z.coprime_prime_small; [assumption | lia]. }
        pose proof (Z.gauss a p q Hmod Hco) as Hdq.
        destruct Hq as [_ Hq]. apply (Hq a); [lia | exact Hdq].
      - destruct (decide (p < a)) as [Hgt|?]; [|lia].
        exfalso. exact (Hleast p ltac:(lia) Hmodp). }
    rewrite Hsome. rewrite (Z.mul_comm p q), Z.div_mul by lia. reflexivity.
Qed.

(** A number without a divisor up to its root has no factor pair to
    unpack. *)
Lemma dual_factor_none `{!Libm} (N : Z) :
  0 <= N < exact_limit -> (forall a, 2 <= a <= Z.sqrt N -> N mod a <> 0) ->
  dual_factor N = Return None.
Proof.
  intros HN Hnone.
  destruct (dual_factor_spec N HN) as [[Hrun _]|(a & _ & Ha & Hmod & _)].
  - exact Hrun.
  - exfalso. exact (Hnone a Ha Hmod).
Qed.

(** A prime that is a double has no factor pair either, whatever the
    rounding of the bound: the bound never exceeds the prime. *)
Lemma dual_factor_prime `{!Libm} (N : Z) :
  Z.prime N -> N < float_limit -> dual_factor N = Return None.
Proof.
  intros HN Hlim. pose proof (Z.prime_ge_2 N HN) as HN2.
  destruct (int_sqrt_plus_1_returns N ltac:(lia)) as (stop & Hstop & _ & Hle & _).
  destruct (dual_factor_stop_spec N stop Hstop) as [[Hrun _]|(a & _ & Ha & Hmod & _)].
  - exact Hrun.
  - exfalso. destruct HN as [_ HN]. apply (HN a); [lia|].
    apply Z.mod_divide; [lia | exact Hmod].
Qed.

Lemma crack_semiprime `{!Libm} (p q e : Z) :
  Z.prime p -> Z.prime q -> p * q < exact_limit ->
  crack (p * q) e = inverse_component e ((p - 1) * (q - 1)).
Proof.
  intros Hp Hq Hlim. unfold crack.
  destruct (decide (p <= q)) as [Hle|Hgt].
  - rewrite (dual_factor_semiprime p q Hp Hq Hle Hlim), bind_Return.
    destruct (inverse_component e ((p - 1) * (q - 1))); reflexivity.
  - rewrite (Z.mul_comm p q).
    rewrite (dual_factor_semiprime q p Hq Hp ltac:(lia)), bind_Return by lia.
    rewrite (Z.mul_comm (q - 1) (p - 1)).
    destruct (inverse_component e ((p - 1) * (q - 1))); reflexivity.
Qed.

Lemma inverse_component_spec (e phi : Z) :
  2 <= e -> 2 <= phi -> Z.gcd e phi = 1 ->
  exists d, inverse_component e phi = Return d /\ (e * d) mod phi = 1 /\ 0 <= d < phi.
Proof.
  intros He Hphi Hco.
  destruct (ex_gcd_inverse e phi He Hphi Hco) as (d & Hrun & Hinv & Hd).
  exists d. unfold inverse_component. rewrite Hrun, bind_Return. auto.
Qed.

End attack_correct.

(** ** Fermat's little theorem, iterated, and the RSA identity *)
Section rsa_identity.

Lemma fermat_power (p a : Z) :
  Z.prime p -> forall k, 0 <= k -> a ^ (1 + k * (p - 1)) mod p = a mod p.
Proof.
  intros Hp. pose proof (Z.prime_ge_2 p Hp) as Hp2.
  apply natlike_ind.
  - rewrite Z.mul_0_l, Z.add_0_r, Z.pow_1_r. reflexivity.
  - intros k Hk IH.
    replace (1 + Z.succ k * (p - 1)) with ((1 + k * (p - 1)) + (p - 1)) by lia.
    rewrite Z.pow_add_r by nia.
    rewrite <- Z.mul_mod_idemp_l, IH, Z.mul_mod_idemp_l by lia.
    replace (a * a ^ (p - 1)) with (a ^ p).
    + apply ZmodInv.Z.fermat. exact Hp.
    + replace p with (Z.succ (p - 1)) at 1 by lia. apply Z.pow_succ_r. lia.
Qed.

Lemma rsa_identity (p q e d m : Z) :
  Z.prime p -> Z.prime q -> p <> q -> 0 <= e -> 0 <= d ->
  (e * d) mod ((p - 1) * (q - 1)) = 1 ->
  m ^ (e * d) mod (p * q) = m mod (p * q).
Proof.
  intros Hp Hq Hne He Hd Hed.
  pose proof (Z.prime_ge_2 p Hp) as Hp2. pose proof (Z.prime_ge_2 q Hq) as Hq2.
  set (phi := (p - 1) * (q - 1)) in *.
  assert (0 < phi) as Hphi by (unfold phi; nia).
  pose proof (Z.div_mod (e * d) phi ltac:(lia)) as Hdm. rewrite Hed in Hdm.
  set (k := e * d / phi) in *.
  assert (0 <= k) as Hk by (unfold k; apply Z.div_pos; nia).
  assert (m ^ (e * d) mod p = m mod p) as Hmp.
  { replace (e * d) with (1 + (k * (q - 1)) * (p - 1)) by (unfold phi in Hdm; lia).
    apply fermat_power; [assumption | nia]. }
  assert (m ^ (e * d) mod q = m mod q) as Hmq.
  { replace (e * d) with (1 + (k * (p - 1)) * (q - 1)) by (unfold phi in Hdm; lia).
    apply fermat_power; [assumption | nia]. }
  apply Z.cong_iff_0 in Hmp, Hmq. apply Z.cong_iff_0.
  apply Z.mod_divide in Hmp, Hmq; try lia.
  apply Z.mod0_divide.
  destruct Hmp as [c Hc]. rewrite Hc in Hmq |- *.
  assert (Z.gcd q p = 1) as Hco.
  { apply Z.coprime_prime_l; [assumption|]. intros Hdiv.
    apply (Z.divide_prime_prime q p Hq Hp) in Hdiv. congruence. }
  rewrite Z.mul_comm in Hmq.
  destruct (Z.gauss q p c Hmq Hco) as [c' ->].
  exists c'. ring.
Qed.

End rsa_identity.

(** ** Certified primes

    The runs on which the float expression rounds away a divisor involve
    primes above [2^53], out of reach of trial division.  They are
    certified by Pocklington's criterion: if [q^n] divides [N - 1], and
    some [a] has [a^(N-1) = 1] and [a^((N-1)/q) - 1] coprime to [N] modulo
    [N], then every prime factor of [N] is 1 modulo [q^n]; with
    [N < (q^n + 1)^2] this leaves no room for a factor up to the root. *)
Section certified_primes.

Lemma pow_one_mod_mul (r b x k : Z) :
  1 < r -> 0 <= x -> 0 <= k -> b ^ x mod r = 1 -> b ^ (x * k) mod r = 1.
Proof.
  intros Hr Hx Hk Hone.
  rewrite Z.pow_mul_r by assumption. rewrite <- Z.mod_pow_l, Hone.
  rewrite Z.pow_1_l by assumption. apply Z.mod_1_l. exact Hr.
Qed.

Lemma pow_one_mod_gcd (r b : Z) :
  1 < r -> forall (fuel : nat) (x y : Z),
    (Z.to_nat y <= fuel)%nat -> 0 <= x -> 0 <= y ->
    b ^ x mod r = 1 -> b ^ y mod r = 1 -> b ^ Z.gcd x y mod r = 1.
Proof.
  intros Hr. induction fuel as [|fuel IH]; intros x y Hfuel Hx Hy Hbx Hby.
  - assert (y = 0) as -> by lia. rewrite Z.gcd_0_r_nonneg by assumption. exact Hbx.
  - destruct (decide (y = 0)) as [->|Hnz].
    + rewrite Z.gcd_0_r_nonneg by assumption. exact Hbx.
    + pose proof (Z.mod_pos_bound x y ltac:(lia)) as Hrem.
      assert (b ^ (x mod y) mod r = 1) as Hbr.
      { pose proof (Z.div_mod x y Hnz) as Hdm.
        assert (0 <= x / y) as Hq by (apply Z.div_pos; lia).
        rewrite Hdm in Hbx. rewrite Z.pow_add_r in Hbx by nia.
        rewrite <- Z.mul_mod_idemp_l in Hbx by lia.
        rewrite (pow_one_mod_mul r b y (x / y)) in Hbx by assumption.
        rewrite Z.mul_1_l in Hbx. exact Hbx. }
      specialize (IH y (x mod y) ltac:(lia) Hy ltac:(lia) Hby Hbr).
      rewrite Z.gcd_mod_r in IH. rewrite Z.gcd_comm. exact IH.
Qed.

Lemma divisor_of_prime_power (q : Z) :
  Z.prime q -> forall n, 0 <= n -> forall g, 0 < g -> (g | q ^ n) ->
  exists j, 0 <= j <= n /\ g = q ^ j.
Proof.
  intros Hq. pose proof (Z.prime_ge_2 q Hq) as Hq2.
  apply (natlike_ind (fun n => forall g, 0 < g -> (g | q ^ n) ->
                                 exists j, 0 <= j <= n /\ g = q ^ j)).
  - intros g Hg Hdiv. exists 0. split; [lia|].
    change (q ^ 0) with 1 in *. destruct (Z.divide_1_r g Hdiv); lia.
  - intros n Hn IH g Hg Hdiv. rewrite Z.pow_succ_r in Hdiv by assumption.
    destruct (decide (g mod q = 0)) as [Hqg|Hqg].
    + apply Z.mod_divide in Hqg; [|lia]. destruct Hqg as [g' ->].
      rewrite (Z.mul_comm g' q) in Hdiv. apply Z.mul_divide_cancel_l in Hdiv; [|lia].
      destruct (IH g' ltac:(nia) Hdiv) as (j & Hj & ->).
      exists (Z.succ j). split; [lia|]. rewrite Z.pow_succ_r by lia. ring.
    + assert (Z.gcd g q = 1) as Hco.
      { rewrite Z.gcd_comm. apply Z.coprime_prime_l; [exact Hq|].
        intros Hd. apply Hqg. apply Z.mod0_divide. exact Hd. }
      destruct (IH g Hg (Z.gauss g q (q ^ n) Hdiv Hco)) as (j & Hj & ->).
      exists j. split; [lia | reflexivity].
Qed.

Lemma fermat_unit (p b : Z) :
  Z.prime p -> ~ (p | b) -> b ^ (p - 1) mod p = 1.
Proof.
  intros Hp Hndiv. pose proof (Z.prime_ge_2 p Hp) as Hp2.
  pose proof (ZmodInv.Z.fermat p b Hp) as Hf.
  apply Z.cong_iff_0 in Hf. apply Z.mod_divide in Hf; [|lia].
  replace (b ^ p - b) with (b * (b ^ (p - 1) - 1)) in Hf.
  - assert (Z.gcd p b = 1) as Hco by (apply Z.coprime_prime_l; assumption).
    apply (Z.gauss p b _ Hf) in Hco.
    rewrite <- (Z.mod_1_l p) at 2 by lia. apply Z.cong_iff_0. apply Z.mod0_divide. exact Hco.
  - replace p with (Z.succ (p - 1)) at 2 by lia. rewrite Z.pow_succ_r by lia. ring.
Qed.

Lemma exists_prime_divisor (d : Z) : 2 <= d -> exists r, Z.prime r /\ (r | d) /\ r <= d.
Proof.
  intros Hd.
  destruct (dual_factor_scan_spec d (Z.to_nat (d - 1)) 2 ltac:(lia))
    as [[_ Hall]|(a & _ & Ha & Hmod & Hleast)].
  - exfalso. apply (Hall d); [lia|]. apply Z.mod_same. lia.
  - exists a. split; [apply (least_divisor_prime d a); [lia | assumption | assumption]|].
    split; [apply Z.mod_divide; [lia | exact Hmod] | lia].
Qed.

(** Every prime factor of [N] is 1 modulo [q^n]. *)
Lemma pocklington_factor (N q n R a r : Z) :
  Z.prime q -> 1 <= n -> 0 < R -> N - 1 = q ^ n * R ->
  a ^ (N - 1) mod N = 1 ->
  Z.gcd (a ^ (q ^ (n - 1) * R) mod N - 1) N = 1 ->
  Z.prime r -> (r | N) -> (q ^ n | r - 1).
Proof.
  intros Hq Hn HR HN Hone Hco Hr Hdiv.
  pose proof (Z.prime_ge_2 q Hq) as Hq2. pose proof (Z.prime_ge_2 r Hr) as Hr2.
  assert (0 < q ^ n) as Hqn by (apply Z.pow_pos_nonneg; lia).
  assert (0 < q ^ (n - 1)) as Hqn1 by (apply Z.pow_pos_nonneg; lia).
  set (b := a ^ R).
  assert (b ^ (q ^ n) mod r = 1) as Hb1.
  { unfold b. rewrite <- Z.pow_mul_r by lia. rewrite Z.mul_comm, <- HN.
    rewrite <- (Z.mod_mod_divide _ N r Hdiv), Hone. apply Z.mod_1_l. lia. }
  assert (b ^ (q ^ (n - 1)) mod r <> 1) as Hb2.
  { unfold b. rewrite <- Z.pow_mul_r by lia. rewrite (Z.mul_comm R). intros Hbad.
    assert ((r | a ^ (q ^ (n - 1) * R) mod N - 1)) as Hd1.
    { apply Z.mod_divide; [lia|]. rewrite <- Zminus_mod_idemp_l.
      rewrite (Z.mod_mod_divide _ N r Hdiv), Hbad. reflexivity. }
    pose proof (Z.gcd_greatest _ _ r Hd1 Hdiv) as Hg. rewrite Hco in Hg.
    destruct (Z.divide_1_r r Hg); lia. }
  assert (~ (r | b)) as Hrb.
  { intros Hd. apply Z.mod0_divide in Hd.
    rewrite <- Z.mod_pow_l, Hd, Z.pow_0_l, Z.mod_0_l in Hb1 by lia. discriminate. }
  pose proof (fermat_unit r b Hr Hrb) as Hb3.
  pose proof (pow_one_mod_gcd r b ltac:(lia) (Z.to_nat (r - 1)) (q ^ n) (r - 1)
                ltac:(lia) ltac:(lia) ltac:(lia) Hb1 Hb3) as Hg.
  pose proof (Z.gcd_divide_l (q ^ n) (r - 1)) as Hgl.
  pose proof (Z.gcd_divide_r (q ^ n) (r - 1)) as Hgr.
  pose proof (Z.gcd_nonneg (q ^ n) (r - 1)) as Hg0.
  assert (0 < Z.gcd (q ^ n) (r - 1)) as Hgpos.
  { destruct (decide (Z.gcd (q ^ n) (r - 1) = 0)) as [Hz|?]; [|lia].
    rewrite Hz in Hgl. destruct Hgl as [c Hc]. lia. }
  destruct (divisor_of_prime_power q Hq n ltac:(lia) _ Hgpos Hgl) as (j & Hj & Hgj).
  destruct (decide (j = n)) as [->|Hjn].
  - rewrite <- Hgj. exact Hgr.
  - exfalso. apply Hb2. rewrite Hgj in Hg.
    replace (n - 1) with (j + (n - 1 - j)) by lia.
    rewrite Z.pow_add_r by lia.
    apply pow_one_mod_mul;
      [lia | apply Z.pow_nonneg; lia | apply Z.pow_nonneg; lia | exact Hg].
Qed.

(** Pocklington's criterion. *)
Lemma pocklington (N q n R a : Z) :
  Z.prime q -> 1 <= n -> 0 < R -> N - 1 = q ^ n * R ->
  N < (q ^ n + 1) * (q ^ n + 1) ->
  a ^ (N - 1) mod N = 1 ->
  Z.gcd (a ^ (q ^ (n - 1) * R) mod N - 1) N = 1 ->
  Z.prime N.
Proof.
  intros Hq Hn HR HN Hsmall Hone Hco.
  pose proof (Z.prime_ge_2 q Hq) as Hq2.
  assert (0 < q ^ n) as Hqn by (apply Z.pow_pos_nonneg; lia).
  apply prime_of_no_small_divisor; [nia|].
  intros d Hd Hmod. apply Z.mod_divide in Hmod; [|lia].
  destruct (exists_prime_divisor d ltac:(lia)) as (r & Hr & Hrd & Hle).
  pose proof (Z.prime_ge_2 r Hr) as Hr2.
  pose proof (pocklington_factor N q n R a r Hq Hn HR HN Hone Hco Hr
                (Z.divide_trans _ _ _ Hrd Hmod)) as Hfac.
  apply Z.divide_pos_le in Hfac; [|lia].
  assert (d * d <= N) by (apply Z.sqrt_le_square; lia). nia.
Qed.

Lemma pow_mod_value (a b N c : Z) :
  0 < b -> 0 < N -> pow a b N = Return c -> a ^ b mod N = c.
Proof.
  intros Hb HN Hrun. rewrite pow_positive_exponent in Hrun by lia.
  injection Hrun as <-. reflexivity.
Qed.

Lemma root_prime_prime : Z.prime root_prime.
Proof.
  apply (pocklington root_prime 2 66 3 5).
  - exact Z.prime_2.
  - lia.
  - lia.
  - reflexivity.
  - apply Z.ltb_lt. vm_compute. reflexivity.
  - apply pow_mod_value; [reflexivity | reflexivity | vm_compute; reflexivity].
  - replace (2 ^ (66 - 1) * 3) with 110680464442257309696 by reflexivity.
    rewrite (pow_mod_value 5 110680464442257309696 root_prime (root_prime - 1));
      [| reflexivity | reflexivity | vm_compute; reflexivity].
    vm_compute. reflexivity.
Qed.

Lemma linked_prime_prime : Z.prime linked_prime.
Proof.
  apply (pocklington linked_prime root_prime 1 16 2).
  - exact root_prime_prime.
  - lia.
  - lia.
  - reflexivity.
  - apply Z.ltb_lt. vm_compute. reflexivity.
  - apply pow_mod_value; [reflexivity | reflexivity | vm_compute; reflexivity].
  - replace (root_prime ^ (1 - 1) * 16) with 16 by reflexivity.
    vm_compute. reflexivity.
Qed.

End certified_primes.

(** ** The properties of the specification *)

Lemma trial_division_prime_complete (x : Z) :
  Z.prime x -> trial_division_prime x = true.
Proof.
  intros Hx. unfold trial_division_prime. apply andb_true_iff. split.
  - apply bool_decide_eq_true. apply Z.prime_ge_2. exact Hx.
  - apply forallb_forall. intros d Hd.
    rewrite <- list_elem_of_In, elem_of_seqZ in Hd.
    apply negb_true_iff, Z.eqb_neq. apply prime_no_small_divisor; [exact Hx | lia].
Qed.

Lemma totient_at_least_2 (p q : Z) :
  Z.prime p -> Z.prime q -> p <> q -> 2 <= (p - 1) * (q - 1).
Proof.
  intros Hp Hq Hne.
  pose proof (Z.prime_ge_2 p Hp). pose proof (Z.prime_ge_2 q Hq). nia.
Qed.

Lemma prime_coprime_totient (p q e : Z) :
  Z.prime e -> 2 <= p <= e -> 2 <= q <= e -> Z.gcd e ((p - 1) * (q - 1)) = 1.
Proof.
  intros He Hp Hq. apply Z.coprime_mul_r; apply Z.coprime_prime_small; (assumption || lia).
Qed.

(** C1. Encryption followed by decryption gives the message back: for a key
    [(N, e, d)] with [N = p * q] for distinct primes [p], [q],
    [gcd(e, phi) = 1] and [(e * d) mod phi = 1] where
    [phi = (p - 1) * (q - 1)], whose exponents are Integers of the data model
    (not negative), and for every message [0 <= m < N],
    [decrypt(encrypt(m, N, e), N, d)] returns [m]. *)
Theorem encrypt_decrypt_round_trip (p q N e d m : Z) :
  Z.prime p -> Z.prime q -> p <> q -> N = p * q ->
  Z.gcd e ((p - 1) * (q - 1)) = 1 ->
  (e * d) mod ((p - 1) * (q - 1)) = 1 ->
  0 <= e -> 0 <= d -> 0 <= m < N ->
  (encrypt m N e ≫= fun c => decrypt c N d) = Return m.
Proof.
  intros Hp Hq Hne -> _ Hed He Hd Hm.
  pose proof (Z.prime_ge_2 p Hp) as Hp2. pose proof (Z.prime_ge_2 q Hq) as Hq2.
  pose proof (totient_at_least_2 p q Hp Hq Hne) as Hphi.
  assert (e * d <> 0) as Hnz.
  { intros Hz. rewrite Hz, Z.mod_0_l in Hed by lia. discriminate. }
  assert (0 < e /\ 0 < d) as [He1 Hd1] by nia.
  assert (0 < p * q) as HN by nia.
  unfold encrypt, decrypt.
  rewrite (pow_positive_exponent m e (p * q)) by lia. rewrite !bind_Return.
  rewrite (pow_positive_exponent (m ^ e mod (p * q)) d (p * q)) by lia.
  rewrite bind_Return. f_equal.
  rewrite Z.mod_pow_l, <- Z.pow_mul_r by lia.
  rewrite (rsa_identity p q e d m) by (assumption || lia).
  apply Z.mod_small. exact Hm.
Qed.

Lemma encrypt_decrypt_round_trip_witness :
  (encrypt 65 3233 17 ≫= fun c => decrypt c 3233 2753) = Return 65.
Proof.
  apply (encrypt_decrypt_round_trip 61 53 3233 17 2753 65).
  - apply trial_division_prime_sound. reflexivity.
  - apply trial_division_prime_sound. reflexivity.
  - lia.
  - reflexivity.
  - reflexivity.
  - reflexivity.
  - lia.
  - lia.
  - lia.
Defined.

(** C3 at the inputs where the program departs from it: the public
    exponent 1 is coprime to [(p - 1) * (q - 1)] and its inverse is 1, but
    [crack(p * q, 1)] raises [IndexError], as the [ex_gcd(1, phi)] of key
    generation does (line 46, the slip of C4). *)
Theorem crack_unit_exponent `{!Libm} (p q : Z) :
  Z.prime p -> Z.prime q -> p <> q -> p * q < exact_limit ->
  Z.gcd 1 ((p - 1) * (q - 1)) = 1 /\ (1 * 1) mod ((p - 1) * (q - 1)) = 1 /\
  inverse_component 1 ((p - 1) * (q - 1)) = Raise IndexError /\
  crack (p * q) 1 = Raise IndexError.
Proof.
  intros Hp Hq Hne Hlim.
  pose proof (totient_at_least_2 p q Hp Hq Hne) as Hphi.
  assert (inverse_component 1 ((p - 1) * (q - 1)) = Raise IndexError) as Hinv.
  { unfold inverse_component. rewrite ex_gcd_unit_operand by lia. reflexivity. }
  split; [apply Z.gcd_1_l|]. split; [apply Z.mod_1_l; lia|]. split; [exact Hinv|].
  rewrite (crack_semiprime p q 1 Hp Hq Hlim). exact Hinv.
Qed.

Lemma crack_unit_exponent_witness :
  Z.gcd 1 ((61 - 1) * (53 - 1)) = 1 /\ (1 * 1) mod ((61 - 1) * (53 - 1)) = 1 /\
  inverse_component 1 ((61 - 1) * (53 - 1)) = Raise IndexError /\
  crack (61 * 53) 1 = Raise IndexError.
Proof.
  apply (crack_unit_exponent 61 53).
  - apply trial_division_prime_sound. reflexivity.
  - apply trial_division_prime_sound. reflexivity.
  - lia.
  - reflexivity.
Defined.

(** C4 at the inputs where the program departs from it: for [a = 1] and
    every [b >= 2] the operands are coprime and 1 is the inverse of [a]
    modulo [b], but [ex_gcd(1, b)] raises [IndexError] at [vals[-3]]
    (line 46), the remainder sequence having two entries only. *)
Theorem ex_gcd_unit_first_operand (b : Z) :
  2 <= b ->
  Z.gcd 1 b = 1 /\ (1 * 1) mod b = 1 /\ ex_gcd 1 b = Raise IndexError.
Proof.
  intros Hb. split; [apply Z.gcd_1_l|]. split; [apply Z.mod_1_l; lia|].
  apply ex_gcd_unit_operand; lia.
Qed.

Lemma ex_gcd_unit_first_operand_witness :
  Z.gcd 1 5 = 1 /\ (1 * 1) mod 5 = 1 /\ ex_gcd 1 5 = Raise IndexError.
Proof. apply (ex_gcd_unit_first_operand 5). lia. Defined.

(** C5, as the program has it. For [N >= 2] without a divisor in
    [[2, sqrt N]]: when [N] is a double, [dual_factor(N)] returns [None]
    and [crack(N, e)] stops with the [TypeError] of unpacking it at line
    172; from [float_limit] on, [N**(1/2)] stops both with
    [OverflowError].  In neither case does [crack] fail with an exception
    that the program raises itself. *)
Theorem crack_prime_type_error `{!Libm} (N e : Z) :
  2 <= N -> (forall a, 2 <= a <= Z.sqrt N -> N mod a <> 0) ->
  (N < float_limit -> dual_factor N = Return None /\ crack N e = Raise TypeError) /\
  (float_limit <= N ->
   dual_factor N = Raise OverflowError /\ crack N e = Raise OverflowError) /\
  ~ (exists x, crack N e = Raise x /\ explicit_failure x).
Proof.
  intros HN Hnone.
  assert (N < float_limit -> dual_factor N = Return None /\ crack N e = Raise TypeError)
    as Hsmall.
  { intros Hlim.
    assert (dual_factor N = Return None) as Hfac.
    { apply dual_factor_prime; [|exact Hlim]. apply prime_of_no_small_divisor; assumption. }
    split; [exact Hfac|]. unfold crack. rewrite Hfac. reflexivity. }
  assert (float_limit <= N ->
          dual_factor N = Raise OverflowError /\ crack N e = Raise OverflowError) as Hlarge.
  { intros Hlim.
    assert (dual_factor N = Raise OverflowError) as Hfac.
    { unfold dual_factor. rewrite int_sqrt_plus_1_overflow by lia. reflexivity. }
    split; [exact Hfac|]. unfold crack. rewrite Hfac. reflexivity. }
  split; [exact Hsmall|]. split; [exact Hlarge|].
  intros (x & Hrun & msg & ->).
  destruct (decide (N < float_limit)) as [Hlim|Hlim].
  - destruct (Hsmall Hlim) as [_ Hcrack]. rewrite Hcrack in Hrun. discriminate.
  - destruct (Hlarge ltac:(lia)) as [_ Hcrack]. rewrite Hcrack in Hrun. discriminate.
Qed.

Lemma crack_prime_type_error_witness :
  (7 < float_limit -> dual_factor 7 = Return None /\ crack 7 3 = Raise TypeError) /\
  (float_limit <= 7 ->
   dual_factor 7 = Raise OverflowError /\ crack 7 3 = Raise OverflowError) /\
  ~ (exists x, crack 7 3 = Raise x /\ explicit_failure x).
Proof.
  apply (crack_prime_type_error 7 3).
  - lia.
  - intros a Ha. change (Z.sqrt 7) with 2 in Ha.
    assert (a = 2) as -> by lia. discriminate.
Defined.

(** C5 as stated fails at [N = 7]: [crack(7, 3)] does not fail with an
    explicit error of the program. *)
Lemma crack_prime_counterexample :
  2 <= 7 /\ (forall a, 2 <= a <= Z.sqrt 7 -> 7 mod a <> 0) /\
  dual_factor 7 = Return None /\ crack 7 3 = Raise TypeError /\
  ~ (exists x, crack 7 3 = Raise x /\ explicit_failure x).
Proof.
  split; [lia|]. split.
  - intros a Ha. change (Z.sqrt 7) with 2 in Ha.
    assert (a = 2) as -> by lia. discriminate.
  - split; [vm_compute; reflexivity|]. split; [vm_compute; reflexivity|].
    intros (x & Hrun & msg & ->). vm_compute in Hrun. discriminate.
Qed.

(** Where the contract of [pow] holds: a positive exponent, or a modulus
    other than 1. *)
Lemma pow_contract (base exponent modulus : Z) :
  0 <= exponent -> 1 <= modulus -> (exponent = 0 -> modulus <> 1) ->
  pow base exponent modulus = Return (base ^ exponent mod modulus).
Proof. intros He Hm H1. apply pow_spec; [lia | assumption | assumption]. Qed.

Example pow_4_13_497 : pow 4 13 497 = Return 445.
Proof. reflexivity. Qed.

(** C7 at the input where the program departs from it: with exponent 0 and
    modulus 1, [pow] returns the initial [ret = 1] of line 115, while
    [base ^ 0 mod 1] is 0. *)
Theorem pow_exponent_zero_modulus_one (base : Z) :
  pow base 0 1 = Return 1 /\ base ^ 0 mod 1 = 0 /\
  pow base 0 1 <> Return (base ^ 0 mod 1).
Proof.
  split; [apply pow_nonpositive_exponent; lia|].
  split; [apply Z.mod_1_r|].
  rewrite pow_nonpositive_exponent, Z.mod_1_r by lia. discriminate.
Qed.

(** C8, as the program has it. [gen_prime(low, high)] raises the range
    error if and only if [low < 2] or [high < low], before any draw is made
    and any window is sieved; on the draws that [random.randint(low, high)]
    can produce the only other error is the [OverflowError] of
    [end**0.5], which needs a window end that is no double
    ([float_limit <= high]); [gen_prime(1, 10)] raises the range error. *)
Theorem gen_prime_range_validation `{!Libm} (low high : Z) (draws : list Z) :
  draws_within low high draws ->
  (gen_prime low high draws = Raise InvalidRangeError <-> low < 2 \/ high < low) /\
  (forall e, gen_prime low high draws = Raise e -> e <> InvalidRangeError ->
             e = OverflowError /\ float_limit <= high) /\
  (low < 2 \/ high < low -> gen_prime low high [] = Raise InvalidRangeError) /\
  (forall ds, gen_prime 1 10 ds = Raise InvalidRangeError).
Proof.
  intros Hdraws.
  assert (forall e, ~ (low < 2 \/ high < low) -> gen_prime low high draws = Raise e ->
                    e = OverflowError /\ float_limit <= high) as Hvalid.
  { intros e Hok Hrun. rewrite gen_prime_valid in Hrun by lia.
    destruct (gen_prime_loop_raises _ _ _ _ Hrun) as (m & Hm & Hcase).
    unfold draws_within in Hdraws. rewrite Forall_forall in Hdraws.
    specialize (Hdraws m Hm). destruct Hcase as [[-> Hov]|[_ Hneg]]; [|lia].
    split; [reflexivity | lia]. }
  split; [|split; [|split]].
  - split.
    + intros Hrun. destruct (decide (low < 2 \/ high < low)) as [Hbad|Hok]; [exact Hbad|].
      exfalso. destruct (Hvalid _ Hok Hrun) as [Heq _]. discriminate.
    + apply gen_prime_invalid.
  - intros e Hrun Hne. destruct (decide (low < 2 \/ high < low)) as [Hbad|Hok].
    + exfalso. rewrite gen_prime_invalid in Hrun by exact Hbad. congruence.
    + exact (Hvalid e Hok Hrun).
  - apply gen_prime_invalid.
  - intros ds. apply gen_prime_invalid. lia.
Qed.

Lemma gen_prime_range_validation_witness :
  (gen_prime 2 10 [4] = Raise InvalidRangeError <-> 2 < 2 \/ 10 < 2) /\
  (forall e, gen_prime 2 10 [4] = Raise e -> e <> InvalidRangeError ->
             e = OverflowError /\ float_limit <= 10) /\
  (2 < 2 \/ 10 < 2 -> gen_prime 2 10 [] = Raise InvalidRangeError) /\
  (forall ds, gen_prime 1 10 ds = Raise InvalidRangeError).
Proof.
  apply (gen_prime_range_validation 2 10 [4]).
  unfold draws_within. apply Forall_cons. split; [lia | apply Forall_nil; exact I].
Defined.

(** C8 as stated fails on the range [[2^1024, 2^1024 + 10]]: it is a valid
    range, and on a draw from it the call raises [OverflowError], which is
    not the range error. *)
Lemma gen_prime_range_validation_counterexample :
  ~ (2 ^ 1024 < 2 \/ 2 ^ 1024 + 10 < 2 ^ 1024) /\
  draws_within (2 ^ 1024) (2 ^ 1024 + 10) [2 ^ 1024 + 3] /\
  gen_prime (2 ^ 1024) (2 ^ 1024 + 10) [2 ^ 1024 + 3] = Raise OverflowError /\
  gen_prime (2 ^ 1024) (2 ^ 1024 + 10) [2 ^ 1024 + 3] <> Raise InvalidRangeError.
Proof.
  split; [lia|]. split.
  - unfold draws_within. apply Forall_cons. split; [lia | apply Forall_nil; exact I].
  - split; [vm_compute; reflexivity | vm_compute; discriminate].
Qed.

(** C10. A trial divisor that lies in the window is marked composite by
    the sieve: every [d] of [range(2, int(end**0.5 + 1))], and with it, in
    a window of at most 101 entries or with its end below [2^52 - 1], every
    [d] from 2 to the root of [end]; for every draw of [random.randint(2, 10)] the window of
    [gen_prime(2, 10)] is [[2, 10]], only 5 and 7 stay unmarked in it, and
    the call returns 5. *)
Theorem sieve_marks_its_divisors `{!Libm} (midpoint : Z) (rest : list Z) :
  2 <= midpoint <= 10 ->
  (forall start end_ stop d is_prime,
      int_sqrt_plus_1 end_ = Return stop ->
      sieve start end_ = Return is_prime ->
      2 <= d < stop -> start <= d <= end_ ->
      is_prime !! Z.to_nat (d - start) = Some false) /\
  (forall start end_ d is_prime,
      end_ - start <= 100 \/ end_ < exact_limit ->
      sieve start end_ = Return is_prime ->
      2 <= d <= Z.sqrt end_ -> start <= d <= end_ ->
      is_prime !! Z.to_nat (d - start) = Some false) /\
  sieve (Z.max 2 (midpoint - 50)) (Z.min 10 (midpoint + 50)) =
    Return [false; false; false; true; false; true; false; false; false] /\
  gen_prime 2 10 (midpoint :: rest) = Return (5, rest).
Proof.
  intros Hm.
  assert (sieve 2 10 = Return [false; false; false; true; false; true; false; false; false])
    as Hsieve.
  { unfold sieve. rewrite (int_sqrt_plus_1_exact 10) by (unfold exact_limit; lia).
    reflexivity. }
  split; [|split; [|split]].
  - intros start end_ stop d is_prime Hstop Hrun Hd Hwin.
    destruct (sieve_stop_spec start end_ stop Hstop) as (l & Hl & _ & Htab).
    rewrite Hl in Hrun. injection Hrun as <-.
    apply (Htab d Hwin). exists d. split; [exact Hd|]. apply Z.mod_same. lia.
  - intros start end_ d is_prime Hlen Hrun Hd Hwin.
    assert (d * d <= end_) as Hsq by (apply Z.sqrt_le_square; lia).
    assert (end_ < exact_limit) as Hlim.
    { destruct Hlen as [Hlen|Hlen]; [unfold exact_limit; nia | exact Hlen]. }
    destruct (sieve_spec start end_ ltac:(lia)) as (l & Hl & _ & Htab).
    rewrite Hl in Hrun. injection Hrun as <-.
    apply (Htab d Hwin). exists d. split; [exact Hd|]. apply Z.mod_same. lia.
  - replace (Z.max 2 (midpoint - 50)) with 2 by lia.
    replace (Z.min 10 (midpoint + 50)) with 10 by lia. exact Hsieve.
  - rewrite gen_prime_valid by lia. cbn [gen_prime_loop].
    replace (Z.max 2 (midpoint - 50)) with 2 by lia.
    replace (Z.min 10 (midpoint + 50)) with 10 by lia.
    rewrite Hsieve. reflexivity.
Qed.

Lemma sieve_marks_its_divisors_witness :
  (forall start end_ stop d is_prime,
      int_sqrt_plus_1 end_ = Return stop ->
      sieve start end_ = Return is_prime ->
      2 <= d < stop -> start <= d <= end_ ->
      is_prime !! Z.to_nat (d - start) = Some false) /\
  (forall start end_ d is_prime,
      end_ - start <= 100 \/ end_ < exact_limit ->
      sieve start end_ = Return is_prime ->
      2 <= d <= Z.sqrt end_ -> start <= d <= end_ ->
      is_prime !! Z.to_nat (d - start) = Some false) /\
  sieve (Z.max 2 (7 - 50)) (Z.min 10 (7 + 50)) =
    Return [false; false; false; true; false; true; false; false; false] /\
  gen_prime 2 10 [7; 3] = Return (5, [3]).
Proof.
  apply (sieve_marks_its_divisors 7 [3]). lia.
Defined.

(** The primes 2, 3 and 7 are never returned by [gen_prime(2, 10)]. *)
Lemma gen_prime_2_10_only_5 `{!Libm} (draws : list Z) (p : Z) (rest : list Z) :
  draws_within 2 10 draws -> gen_prime 2 10 draws = Return (p, rest) -> p = 5.
Proof.
  intros Hdraws Hrun. destruct draws as [|midpoint draws]; [discriminate|].
  apply Forall_cons in Hdraws as [Hm _].
  rewrite gen_prime_valid in Hrun by lia. cbn [gen_prime_loop] in Hrun.
  replace (Z.max 2 (midpoint - 50)) with 2 in Hrun by lia.
  replace (Z.min 10 (midpoint + 50)) with 10 in Hrun by lia.
  unfold sieve in Hrun. rewrite (int_sqrt_plus_1_exact 10) in Hrun by (unfold exact_limit; lia).
  vm_compute in Hrun. congruence.
Qed.

(** The textbook key of the specification: [p = 61], [q = 53], [e = 17]. *)
Example textbook_key :
  encrypt 65 3233 17 = Return 2790 /\ decrypt 2790 3233 2753 = Return 65 /\
  crack 3233 17 = Return 2753 /\ ex_gcd 17 3120 = Return (1, 2753).
Proof. repeat split; vm_compute; reflexivity. Qed.

(** ** Further properties of the program *)

(** *** [ex_gcd] on all integers *)
Section ex_gcd_total.

Lemma ex_gcd_unfold (a b : Z) :
  ex_gcd a b =
  if decide (b > a) then ex_gcd_after_swap b a true else ex_gcd_after_swap a b false.
Proof. unfold ex_gcd. destruct (decide (b > a)); reflexivity. Qed.

Lemma remainder_loop_zero (x : Z) : remainder_loop x 0 = Return [x; 0].
Proof. reflexivity. Qed.

Lemma remainder_loop_divides (x y : Z) :
  y <> 0 -> x mod y = 0 -> remainder_loop x y = Return [x; y; 0].
Proof.
  intros Hy Hmod.
  assert (remainder_cond [x; y] = Return true) as Hgo.
  { transitivity (Return (negb (y =? 0))); [reflexivity|].
    rewrite (proj2 (Z.eqb_neq y 0) Hy). reflexivity. }
  assert (remainder_step [x; y] = Return [x; y; 0]) as Hstep.
  { transitivity (mod_ x y ≫= fun r => Return [x; y; r]); [reflexivity|].
    rewrite (mod_Return x y Hy), bind_Return, Hmod. reflexivity. }
  assert (remainder_cond [x; y; 0] = Return false) as Hstop by reflexivity.
  unfold remainder_loop.
  destruct (Z.abs_nat y) as [|k] eqn:Hk; [lia|].
  rewrite while_S, Hgo, bind_Return, Hstep, bind_Return.
  rewrite while_S, Hstop, bind_Return. reflexivity.
Qed.

(** With a zero divisor, or a divisor that divides at once, only the two
    operands are left of the remainder sequence and line 46 fails. *)
Lemma ex_gcd_after_swap_short (x y : Z) (did_swap : bool) :
  y = 0 \/ x mod y = 0 -> ex_gcd_after_swap x y did_swap = Raise IndexError.
Proof.
  intros Hshort. unfold ex_gcd_after_swap.
  destruct (decide (y = 0)) as [->|Hy].
  - rewrite remainder_loop_zero. reflexivity.
  - destruct Hshort as [?|Hmod]; [contradiction|].
    rewrite (remainder_loop_divides x y Hy Hmod). reflexivity.
Qed.

(** Otherwise the run goes through: no subscript is out of range, no
    divisor is zero, and the pair returned holds the last nonzero remainder
    [g] and one of its two Bezout coefficients, reduced. *)
Lemma ex_gcd_after_swap_long (x y : Z) (did_swap : bool) :
  y <> 0 -> x mod y <> 0 ->
  exists g s t,
    g = s * x + t * y /\ Z.abs g = Z.gcd x y /\ (0 <= x -> 0 <= y -> 0 <= g) /\
    x <> 0 /\
    ex_gcd_after_swap x y did_swap =
      Return (g, if did_swap then t mod x else s mod y).
Proof.
  intros Hy Hmod.
  assert (x <> 0) as Hx by (intros ->; apply Hmod, Z.mod_0_l; assumption).
  destruct (remainder_loop_returns x y) as (vals & Hrun & Hinv & Hlast).
  pose proof (chain_of_remainders x y vals Hinv) as Hchain.
  destruct Hinv as (Hv0 & Hv1 & Htriple & Hgcd & Hsign).
  rewrite last_lookup in Hlast.
  assert (2 <= length vals)%nat as Hlen2 by (apply lookup_lt_Some in Hv1; lia).
  assert (4 <= length vals)%nat as Hlen4.
  { destruct (decide (length vals = 2%nat)) as [E|?].
    { rewrite E in Hlast. simpl in Hlast. congruence. }
    destruct (lookup_lt_is_Some_2 vals 2%nat ltac:(lia)) as [r Hr].
    destruct (Htriple 0%nat x y r Hv0 Hv1 Hr) as [_ ->].
    destruct (decide (length vals = 3%nat)) as [E|?]; [|lia].
    rewrite E in Hlast. simpl in Hlast. congruence. }
  destruct (lookup_lt_is_Some_2 vals (length vals - 2)%nat ltac:(lia)) as [g Hg].
  assert (Z.abs g = Z.gcd x y) as Hgabs.
  { rewrite <- (Hgcd (length vals - 2)%nat g 0 Hg).
    - rewrite Z.gcd_0_r. reflexivity.
    - replace (S (length vals - 2)) with (pred (length vals)) by lia. exact Hlast. }
  set (V := drop_last vals) in *.
  assert (length V = (length vals - 1)%nat) as HlenV by apply length_drop_last.
  assert (last V = Some g) as HlastV.
  { rewrite last_lookup. apply lookup_drop_last. split; [|lia].
    replace (pred (length V)) with (length vals - 2)%nat by lia. exact Hg. }
  destruct (back_substitution V g Hchain ltac:(lia) HlastV)
    as (u & v & a' & b' & s & t & Hu & Hv & Hv0' & Ha' & Hb' & Hfor & Hcomb).
  apply lookup_drop_last in Ha' as [Ha' _], Hb' as [Hb' _].
  assert (a' = x) as -> by congruence. assert (b' = y) as -> by congruence.
  exists g, s, t. split; [exact Hcomb|]. split; [exact Hgabs|].
  split; [intros Hx0 Hy0; exact (Hsign Hx0 Hy0 _ _ Hg)|]. split; [exact Hx|].
  unfold ex_gcd_after_swap. rewrite Hrun, bind_Return. cbv zeta. fold V.
  assert (getitem V (-3) = Return u) as Hg3 by (apply (getitem_back V 3); [lia | exact Hu]).
  assert (getitem V (-2) = Return v) as Hg2 by (apply (getitem_back V 2); [lia | exact Hv]).
  rewrite Hg3, bind_Return, Hg2, bind_Return.
  rewrite (floordiv_Return u v Hv0'), bind_Return.
  rewrite Hfor, bind_Return.
  assert (getitem V (-1) = Return g) as Hg1.
  { apply (getitem_back V 1); [lia|]. rewrite last_lookup in HlastV.
    replace (length V - 1)%nat with (pred (length V)) by lia. exact HlastV. }
  destruct did_swap.
  - rewrite Hg1, bind_Return, (mod_Return t x Hx), bind_Return. reflexivity.
  - rewrite Hg1, bind_Return, (mod_Return s y Hy), bind_Return. reflexivity.
Qed.


Lemma ex_gcd_run_or_index_error (a b : Z) :
  ex_gcd a b = Raise IndexError \/
  exists g inverse, ex_gcd a b = Return (g, inverse) /\
                    Z.abs g = Z.gcd a b /\ (a * inverse) mod b = g mod b.
Proof.
  rewrite ex_gcd_unfold. destruct (decide (b > a)) as [Hswap|Hkeep].
  - destruct (decide (a = 0 \/ b mod a = 0)) as [Hshort|Hlong].
    + left. apply ex_gcd_after_swap_short. exact Hshort.
    + right. destruct (ex_gcd_after_swap_long b a true) as (g & s & t & Hg & Habs & _ & Hb & Hrun);
        [tauto | tauto |].
      exists g, (t mod b). split; [exact Hrun|]. split; [rewrite Z.gcd_comm; exact Habs|].
      rewrite Z.mul_mod_idemp_r by assumption.
      replace (a * t) with (g + (- s) * b) by lia. apply Z.mod_add. assumption.
  - destruct (decide (b = 0 \/ a mod b = 0)) as [Hshort|Hlong].
    + left. apply ex_gcd_after_swap_short. exact Hshort.
    + right. destruct (ex_gcd_after_swap_long a b false) as (g & s & t & Hg & Habs & _ & _ & Hrun);
        [tauto | tauto |].
      exists g, (s mod b). split; [exact Hrun|]. split; [exact Habs|].
      rewrite Z.mul_mod_idemp_r by tauto.
      replace (a * s) with (g + (- t) * b) by lia. apply Z.mod_add. tauto.
Qed.

Lemma ex_gcd_positive_run (a b : Z) :
  1 <= a -> 1 <= b -> Z.max a b mod Z.min a b <> 0 ->
  exists inverse, ex_gcd a b = Return (Z.gcd a b, inverse) /\
                  0 <= inverse < b /\ (a * inverse) mod b = Z.gcd a b.
Proof.
  intros Ha Hb Hndiv.
  assert (0 < Z.gcd a b < b) as Hgb.
  { pose proof (Z.gcd_nonneg a b) as Hnn.
    assert (Z.gcd a b <> 0) as Hnz by (intros Hz; apply Z.gcd_eq_0_l in Hz; lia).
    pose proof (Z.divide_pos_le (Z.gcd a b) b ltac:(lia) (Z.gcd_divide_r a b)) as Hle.
    split; [lia|]. destruct (decide (Z.gcd a b = b)) as [Heq|?]; [|lia].
    exfalso. pose proof (Z.gcd_divide_l a b) as Hdiv. rewrite Heq in Hdiv.
    pose proof (Z.divide_pos_le b a ltac:(lia) Hdiv) as Hba.
    apply Hndiv. rewrite Z.max_l, Z.min_r by lia. apply Z.mod0_divide. exact Hdiv. }
  rewrite ex_gcd_unfold. destruct (decide (b > a)) as [Hswap|Hkeep].
  - rewrite Z.max_r, Z.min_l in Hndiv by lia.
    destruct (ex_gcd_after_swap_long b a true) as (g & s & t & Hg & Habs & Hsign & _ & Hrun);
      [lia | assumption |].
    specialize (Hsign ltac:(lia) ltac:(lia)).
    assert (g = Z.gcd a b) as Hgeq by (rewrite Z.gcd_comm; lia).
    exists (t mod b). rewrite <- Hgeq. split; [exact Hrun|].
    split; [apply Z.mod_pos_bound; lia|].
    rewrite Z.mul_mod_idemp_r by lia.
    replace (a * t) with (g + (- s) * b) by lia.
    rewrite Z.mod_add by lia. apply Z.mod_small. lia.
  - rewrite Z.max_l, Z.min_r in Hndiv by lia.
    destruct (ex_gcd_after_swap_long a b false) as (g & s & t & Hg & Habs & Hsign & _ & Hrun);
      [lia | assumption |].
    specialize (Hsign ltac:(lia) ltac:(lia)).
    assert (g = Z.gcd a b) as Hgeq by lia.
    exists (s mod b). rewrite <- Hgeq. split; [exact Hrun|].
    split; [apply Z.mod_pos_bound; lia|].
    rewrite Z.mul_mod_idemp_r by lia.
    replace (a * s) with (g + (- t) * b) by lia.
    rewrite Z.mod_add by lia. apply Z.mod_small. lia.
Qed.

(** X1. On every pair of integers [ex_gcd] comes to an end, and the only
    exception it can raise is the [IndexError] of line 46: no division is
    by zero.  When it returns [(g, inverse)], [g] is the gcd up to sign and
    [a * inverse] is congruent to [g] modulo [b]. *)
Theorem ex_gcd_outcomes (a b : Z) :
  ex_gcd a b = Raise IndexError \/
  exists g inverse, ex_gcd a b = Return (g, inverse) /\
                    Z.abs g = Z.gcd a b /\ (a * inverse) mod b = g mod b.
Proof. exact (ex_gcd_run_or_index_error a b). Qed.

(** X2. On positive operands of which the smaller does not divide the
    larger, [ex_gcd(a, b)] returns the gcd as its first component and, as
    its second, a number of [[0, b)] whose product with [a] leaves the gcd
    modulo [b]. *)
Theorem ex_gcd_positive (a b : Z) :
  1 <= a -> 1 <= b -> Z.max a b mod Z.min a b <> 0 ->
  exists inverse, ex_gcd a b = Return (Z.gcd a b, inverse) /\
                  0 <= inverse < b /\ (a * inverse) mod b = Z.gcd a b.
Proof. intros Ha Hb Hndiv. exact (ex_gcd_positive_run a b Ha Hb Hndiv). Qed.

Lemma ex_gcd_positive_witness :
  exists inverse, ex_gcd 4 6 = Return (Z.gcd 4 6, inverse) /\
                  0 <= inverse < 6 /\ (4 * inverse) mod 6 = Z.gcd 4 6.
Proof.
  apply (ex_gcd_positive 4 6).
  - lia.
  - lia.
  - vm_compute. discriminate.
Defined.

(** X3. On positive operands [ex_gcd] fails, with [IndexError], exactly
    when the smaller operand divides the larger: equal operands, a unit
    operand, or any multiple. *)
Theorem ex_gcd_index_error_iff (a b : Z) :
  1 <= a -> 1 <= b ->
  (ex_gcd a b = Raise IndexError <-> Z.max a b mod Z.min a b = 0).
Proof.
  intros Ha Hb. split.
  - intros Hraise. destruct (decide (Z.max a b mod Z.min a b = 0)) as [?|Hndiv]; [assumption|].
    destruct (ex_gcd_positive_run a b Ha Hb Hndiv) as (inv & Hrun & _).
    rewrite Hrun in Hraise. discriminate.
  - intros Hdiv. rewrite ex_gcd_unfold. destruct (decide (b > a)) as [Hswap|Hkeep].
    + rewrite Z.max_r, Z.min_l in Hdiv by lia. apply ex_gcd_after_swap_short. tauto.
    + rewrite Z.max_l, Z.min_r in Hdiv by lia. apply ex_gcd_after_swap_short. tauto.
Qed.

Lemma ex_gcd_index_error_iff_witness :
  ex_gcd 6 3 = Raise IndexError <-> Z.max 6 3 mod Z.min 6 3 = 0.
Proof.
  apply (ex_gcd_index_error_iff 6 3).
  - lia.
  - lia.
Defined.

End ex_gcd_total.

(** *** [pow], [encrypt] and [decrypt] on all integers *)
Section cipher_total.

Lemma pow_step_zero_modulus (ret a b : Z) :
  pow_step 0 (ret, a, b) = Raise ZeroDivisionError.
Proof.
  unfold pow_step. rewrite (mod_Return b 2), bind_Return by lia.
  destruct (decide (b mod 2 = 1)); [reflexivity|].
  rewrite bind_Return, (floordiv_Return b 2), bind_Return by lia. reflexivity.
Qed.

(** X4. What [pow(a, b, N)] does on every triple of integers: an exponent
    that is not positive gives 1 whatever the modulus; a positive exponent
    with modulus 0 stops with [ZeroDivisionError]; otherwise the result is
    [a ^ b mod N], also for a negative base or modulus. *)
Theorem pow_outcomes (a b N : Z) :
  pow a b N =
  if decide (b <= 0) then Return 1
  else if decide (N = 0) then Raise ZeroDivisionError
  else Return (a ^ b mod N).
Proof.
  destruct (decide (b <= 0)) as [Hb|Hb]; [apply pow_nonpositive_exponent; exact Hb|].
  destruct (decide (N = 0)) as [->|HN]; [|apply pow_positive_exponent; lia].
  unfold pow.
  replace (Z.to_nat (Z.log2 b) + 2)%nat with (S (Z.to_nat (Z.log2 b) + 1)) by lia.
  rewrite while_S. change (pow_cond (1, a, b)) with (Return (bool_decide (b > 0))).
  rewrite bind_Return, bool_decide_eq_true_2 by lia.
  rewrite pow_step_zero_modulus. reflexivity.
Qed.

Lemma round_trip_modulo (p q N e d m : Z) :
  Z.prime p -> Z.prime q -> p <> q -> N = p * q ->
  (e * d) mod ((p - 1) * (q - 1)) = 1 -> 0 <= e -> 0 <= d ->
  (encrypt m N e ≫= fun c => decrypt c N d) = Return (m mod N).
Proof.
  intros Hp Hq Hne -> Hed He Hd.
  pose proof (Z.prime_ge_2 p Hp) as Hp2. pose proof (Z.prime_ge_2 q Hq) as Hq2.
  pose proof (totient_at_least_2 p q Hp Hq Hne) as Hphi.
  assert (e * d <> 0) as Hnz.
  { intros Hz. rewrite Hz, Z.mod_0_l in Hed by lia. discriminate. }
  assert (0 < e /\ 0 < d) as [He1 Hd1] by nia.
  assert (0 < p * q) as HN by nia.
  unfold encrypt, decrypt.
  rewrite (pow_positive_exponent m e (p * q)) by lia. rewrite !bind_Return.
  rewrite (pow_positive_exponent (m ^ e mod (p * q)) d (p * q)) by lia.
  rewrite bind_Return. f_equal.
  rewrite Z.mod_pow_l, <- Z.pow_mul_r by lia.
  apply rsa_identity; assumption.
Qed.

(** X5. A message outside [[0, N)] is not rejected: under a valid key,
    decrypting the encryption of any integer [m] gives [m mod N]. *)
Theorem round_trip_reduces_message (p q N e d m : Z) :
  Z.prime p -> Z.prime q -> p <> q -> N = p * q ->
  (e * d) mod ((p - 1) * (q - 1)) = 1 -> 0 <= e -> 0 <= d ->
  (encrypt m N e ≫= fun c => decrypt c N d) = Return (m mod N).
Proof. apply round_trip_modulo. Qed.

Lemma round_trip_reduces_message_witness :
  (encrypt 12345 3233 17 ≫= fun c => decrypt c 3233 2753) = Return (12345 mod 3233).
Proof.
  apply (round_trip_reduces_message 61 53 3233 17 2753 12345).
  - apply trial_division_prime_sound. reflexivity.
  - apply trial_division_prime_sound. reflexivity.
  - lia.
  - reflexivity.
  - reflexivity.
  - lia.
  - lia.
Defined.

(** X6. The two exponents also work in the other order: under a valid key,
    encrypting the decryption of [c] in [[0, N)] gives [c] back. *)
Theorem decrypt_encrypt_round_trip (p q N e d c : Z) :
  Z.prime p -> Z.prime q -> p <> q -> N = p * q ->
  (e * d) mod ((p - 1) * (q - 1)) = 1 -> 0 <= e -> 0 <= d -> 0 <= c < N ->
  (decrypt c N d ≫= fun m => encrypt m N e) = Return c.
Proof.
  intros Hp Hq Hne HN Hed He Hd Hc.
  rewrite <- (Z.mod_small c N Hc) at 2.
  rewrite (Z.mul_comm e d) in Hed.
  exact (round_trip_modulo p q N d e c Hp Hq Hne HN Hed Hd He).
Qed.

Lemma decrypt_encrypt_round_trip_witness :
  (decrypt 65 3233 2753 ≫= fun m => encrypt m 3233 17) = Return 65.
Proof.
  apply (decrypt_encrypt_round_trip 61 53 3233 17 2753 65).
  - apply trial_division_prime_sound. reflexivity.
  - apply trial_division_prime_sound. reflexivity.
  - lia.
  - reflexivity.
  - reflexivity.
  - lia.
  - lia.
  - lia.
Defined.

(** X7. Encryption is multiplicative: for a positive exponent and a nonzero
    modulus, the encryption of a product is the product of the encryptions
    modulo [N]. *)
Theorem encrypt_multiplicative (m1 m2 N e : Z) :
  1 <= e -> N <> 0 ->
  exists c1 c2,
    encrypt m1 N e = Return c1 /\ encrypt m2 N e = Return c2 /\
    encrypt (m1 * m2) N e = Return ((c1 * c2) mod N).
Proof.
  intros He HN. exists (m1 ^ e mod N), (m2 ^ e mod N). unfold encrypt.
  rewrite !pow_positive_exponent by lia. rewrite !bind_Return.
  split; [reflexivity|]. split; [reflexivity|].
  rewrite Z.pow_mul_l, <- Z.mul_mod by assumption. reflexivity.
Qed.

Lemma encrypt_multiplicative_witness :
  exists c1 c2,
    encrypt 65 3233 17 = Return c1 /\ encrypt 2 3233 17 = Return c2 /\
    encrypt (65 * 2) 3233 17 = Return ((c1 * c2) mod 3233).
Proof.
  apply (encrypt_multiplicative 65 2 3233 17).
  - lia.
  - lia.
Defined.


End cipher_total.

(** *** [dual_factor] and [crack] on all integers *)
(** *** [dual_factor] and [crack] on all integers *)
Section factoring_total.

Lemma dual_factor_some `{!Libm} (N a c : Z) :
  dual_factor N = Return (Some (a, c)) ->
  Z.prime a /\ a * c = N /\ a <= c /\ (forall x, 2 <= x < a -> N mod x <> 0).
Proof.
  intros Hrun. destruct (int_sqrt_plus_1 N) as [stop|e|] eqn:Hstop;
    [|unfold dual_factor in Hrun; rewrite Hstop in Hrun; discriminate..].
  destruct (int_sqrt_plus_1_Return_inv N stop Hstop) as (HN & _ & Hle & _).
  destruct (dual_factor_stop_spec N stop Hstop) as [[Hnone _]|(a' & Hsome & Ha & Hmod & Hleast)].
  { rewrite Hnone in Hrun. discriminate. }
  rewrite Hsome in Hrun. injection Hrun as -> <-.
  split; [apply (least_divisor_prime N a); [lia | assumption | assumption]|].
  assert (a * (N / a) = N) as Hprod.
  { symmetry. apply Z.div_exact; [lia | exact Hmod]. }
  split; [exact Hprod|]. split; [|exact Hleast].
  assert (2 <= N) as HN2.
  { destruct (decide (2 <= N)) as [?|Hsmall]; [assumption|]. exfalso.
    rewrite int_sqrt_plus_1_exact in Hstop by (unfold exact_limit; lia).
    injection Hstop as <-.
    assert (Z.sqrt N <= 1); [|lia].
    destruct (decide (N = 0)) as [->|?]; [vm_compute; discriminate|].
    assert (N = 1) as -> by lia. vm_compute. discriminate. }
  specialize (Hle HN2).
  set (c := N / a) in *.
  destruct (decide (a <= c)) as [?|Hlt]; [assumption|]. exfalso.
  assert (2 <= c) by nia.
  apply (Hleast c ltac:(lia)). rewrite <- Hprod. apply Z.mod_mul. lia.
Qed.

Lemma dual_factor_none_prime `{!Libm} (N : Z) :
  2 <= N < exact_limit -> (dual_factor N = Return None <-> Z.prime N).
Proof.
  intros HN. split.
  - intros Hrun.
    destruct (dual_factor_spec N ltac:(lia)) as [[_ Hall]|(a & Hsome & _)].
    + apply prime_of_no_small_divisor; [lia | assumption].
    + rewrite Hsome in Hrun. discriminate.
  - intros Hprime. apply dual_factor_none; [lia|].
    intros a Ha. apply prime_no_small_divisor; assumption.
Qed.

Lemma inverse_component_not_type_error (e phi : Z) :
  inverse_component e phi <> Raise TypeError.
Proof.
  unfold inverse_component.
  destruct (ex_gcd_run_or_index_error e phi) as [Hraise|(g & inv & Hrun & _)].
  - rewrite Hraise. discriminate.
  - rewrite Hrun. discriminate.
Qed.

(** X8. A pair that [dual_factor(N)] returns is [(a, N // a)] with [a] the
    least prime factor of [N]: [a] is prime, [a * (N // a) = N], [a] is not
    above its cofactor and nothing from 2 up to [a] divides [N]. *)
Theorem dual_factor_least_prime_factor `{!Libm} (N a c : Z) :
  dual_factor N = Return (Some (a, c)) ->
  Z.prime a /\ a * c = N /\ a <= c /\ (forall x, 2 <= x < a -> N mod x <> 0).
Proof. apply dual_factor_some. Qed.

Lemma dual_factor_least_prime_factor_witness :
  Z.prime 3 /\ 3 * 15 = 45 /\ 3 <= 15 /\ (forall x, 2 <= x < 3 -> 45 mod x <> 0).
Proof.
  apply (dual_factor_least_prime_factor 45 3 15). vm_compute. reflexivity.
Defined.

(** X9. For [2 <= N < 2^52 - 1], [dual_factor(N)] returns [None] exactly
    when [N] is prime, as the comment above the function says. *)
Theorem dual_factor_none_iff_prime `{!Libm} (N : Z) :
  2 <= N < exact_limit -> (dual_factor N = Return None <-> Z.prime N).
Proof. apply dual_factor_none_prime. Qed.

Lemma dual_factor_none_iff_prime_witness :
  dual_factor 97 = Return None <-> Z.prime 97.
Proof. apply (dual_factor_none_iff_prime 97). unfold exact_limit. lia. Defined.

(** X10. For [N] below [2^52 - 1] and not so negative that it is no
    double, [crack(N, e)] stops with [TypeError] exactly when [N] is prime
    or below 2 (for a negative [N] the error is that of the complex square
    root); on every composite [N], also one with more than two prime
    factors, a factor pair is found and unpacked. *)
Theorem crack_type_error_iff `{!Libm} (N e : Z) :
  - float_limit < N < exact_limit ->
  (crack N e = Raise TypeError <-> N <= 1 \/ Z.prime N).
Proof.
  intros HN. unfold crack. split.
  - intros Hraise. destruct (decide (N <= 1)) as [?|Hbig]; [left; assumption|]. right.
    destruct (dual_factor_spec N ltac:(lia)) as [[Hnone Hall]|(a & Hsome & _)].
    + apply prime_of_no_small_divisor; [lia | assumption].
    + exfalso. rewrite Hsome, bind_Return in Hraise.
      apply (inverse_component_not_type_error e ((a - 1) * (N / a - 1))).
      destruct (inverse_component e ((a - 1) * (N / a - 1))); (discriminate || assumption).
  - intros [Hsmall|Hprime].
    + destruct (decide (N < 0)) as [Hneg|Hnn].
      * unfold dual_factor. rewrite int_sqrt_plus_1_negative by lia. reflexivity.
      * rewrite dual_factor_none; [reflexivity | lia |].
        intros a Ha. assert (Z.sqrt N <= 1); [|lia].
        destruct (decide (N = 0)) as [->|?]; [vm_compute; discriminate|].
        assert (N = 1) as -> by lia. vm_compute. discriminate.
    + assert (2 <= N) by (apply Z.prime_ge_2; exact Hprime).
      rewrite (proj2 (dual_factor_none_prime N ltac:(lia)) Hprime). reflexivity.
Qed.

Lemma crack_type_error_iff_witness :
  crack 97 5 = Raise TypeError <-> 97 <= 1 \/ Z.prime 97.
Proof.
  apply (crack_type_error_iff 97 5). split.
  - apply Z.ltb_lt. vm_compute. reflexivity.
  - apply Z.ltb_lt. vm_compute. reflexivity.
Defined.

End factoring_total.

(** *** What [gen_prime] returns, and when it does not *)
Section gen_prime_rounds.

Lemma unmarked_iff (end_ x : Z) :
  2 <= x <= end_ -> (~ trial_multiple end_ x <-> Z.prime x /\ Z.sqrt end_ < x).
Proof.
  intros Hx. split.
  - intros Hnot. split.
    + apply prime_of_no_small_divisor; [lia|]. intros d Hd Hmod.
      apply Hnot. exists d. split; [|exact Hmod]. split; [lia|].
      etransitivity; [exact (proj2 Hd)|]. apply Z.sqrt_le_mono. lia.
    + destruct (decide (Z.sqrt end_ < x)) as [?|Hle]; [assumption|].
      exfalso. apply Hnot. exists x. split; [lia|]. apply Z.mod_same. lia.
  - intros [[_ Hprime] Hroot] (d & Hd & Hmod).
    apply (Hprime d); [lia|]. apply Z.mod_divide; [lia | exact Hmod].
Qed.

Lemma first_unmarked_least (l : list bool) (k : nat) :
  forall lo, 0 <= lo -> lo + Z.of_nat k <= Z.of_nat (length l) ->
    (first_unmarked l (seqZ lo (Z.of_nat k)) = Return None /\
     forall i, lo <= i < lo + Z.of_nat k -> l !! Z.to_nat i = Some false) \/
    (exists i, first_unmarked l (seqZ lo (Z.of_nat k)) = Return (Some i) /\
               lo <= i < lo + Z.of_nat k /\ l !! Z.to_nat i = Some true /\
               forall j, lo <= j < i -> l !! Z.to_nat j = Some false).
Proof.
  induction k as [|k IH]; intros lo Hlo Hlen.
  - left. rewrite seqZ_nil by lia. split; [reflexivity|]. intros i Hi. lia.
  - rewrite seqZ_cons by lia.
    replace (Z.pred (Z.of_nat (S k))) with (Z.of_nat k) by lia. simpl.
    destruct (lookup_lt_is_Some_2 l (Z.to_nat lo) ltac:(lia)) as [v Hv].
    assert (getitem l lo = Return v) as Hget.
    { replace lo with (Z.of_nat (Z.to_nat lo)) by lia. apply getitem_front. exact Hv. }
    rewrite Hget, bind_Return. destruct v.
    + right. exists lo. split; [reflexivity|]. split; [lia|]. split; [exact Hv|].
      intros j Hj. lia.
    + destruct (IH (Z.succ lo) ltac:(lia) ltac:(lia))
        as [[Hnone Hall]|(i & Hsome & Hi & Htrue & Hleast)].
      * left. split; [exact Hnone|]. intros i Hi.
        destruct (decide (i = lo)) as [->|?]; [exact Hv | apply Hall; lia].
      * right. exists i. split; [exact Hsome|]. split; [lia|]. split; [exact Htrue|].
        intros j Hj. destruct (decide (j = lo)) as [->|?]; [exact Hv | apply Hleast; lia].
Qed.

(** One round of the loop, in full, where the bound of the sieve is exact:
    the window of the draw is searched for its least prime above the root
    of its upper end; without one, the draw is used up and the loop goes
    on. *)
Lemma gen_prime_loop_round_least `{!Libm} (a b midpoint : Z) (draws : list Z) :
  let start := Z.max a (midpoint - 50) in
  let end_ := Z.min b (midpoint + 50) in
  2 <= a -> 0 <= end_ < exact_limit ->
  (gen_prime_loop a b (midpoint :: draws) = gen_prime_loop a b draws /\
   forall x, start <= x <= end_ -> ~ (Z.prime x /\ Z.sqrt end_ < x)) \/
  (exists x, gen_prime_loop a b (midpoint :: draws) = Return (x, draws) /\
             start <= x <= end_ /\ Z.prime x /\ Z.sqrt end_ < x /\
             forall y, start <= y < x -> ~ (Z.prime y /\ Z.sqrt end_ < y)).
Proof.
  intros start end_ Ha Hend.
  destruct (sieve_spec start end_ Hend) as (l & Hsieve & Htab).
  pose proof (proj1 Htab) as Hlen.
  assert (range 0 (end_ - start + 1) = seqZ 0 (Z.of_nat (Z.to_nat (end_ - start + 1)))) as Hrange.
  { unfold range, seqZ. rewrite Nat2Z.id. do 2 f_equal. lia. }
  assert (forall x, start <= x <= end_ ->
            (l !! Z.to_nat (x - start) = Some false <-> ~ (Z.prime x /\ Z.sqrt end_ < x)))
    as Hfalse.
  { intros x Hx. rewrite <- (unmarked_iff end_ x) by lia.
    rewrite <- (table_lookup start end_ _ l x Htab Hx).
    destruct (lookup_lt_is_Some_2 l (Z.to_nat (x - start)) ltac:(lia)) as [v Hv].
    rewrite Hv. destruct v; split; congruence. }
  assert (Hstep : gen_prime_loop a b (midpoint :: draws) =
            first_unmarked l (seqZ 0 (Z.of_nat (Z.to_nat (end_ - start + 1)))) ≫= fun found =>
            match found with
            | Some i => Return (start + i, draws)
            | None => gen_prime_loop a b draws
            end).
  { simpl. fold start end_. rewrite Hsieve, bind_Return, Hrange. reflexivity. }
  destruct (first_unmarked_least l (Z.to_nat (end_ - start + 1)) 0 ltac:(lia) ltac:(lia))
    as [[Hnone Hall]|(i & Hsome & Hi & Htrue & Hleast)].
  - left. rewrite Hstep, Hnone, bind_Return. split; [reflexivity|].
    intros x Hx. apply (Hfalse x Hx). apply Hall. lia.
  - right. exists (start + i). rewrite Hstep, Hsome, bind_Return.
    split; [reflexivity|]. split; [lia|].
    assert (Z.prime (start + i) /\ Z.sqrt end_ < start + i) as [Hp Hroot].
    { apply (unmarked_iff end_ (start + i)); [lia|].
      apply (table_lookup start end_ _ l (start + i) Htab); [lia|].
      replace (start + i - start) with i by lia. exact Htrue. }
    split; [exact Hp|]. split; [exact Hroot|].
    intros y Hy. apply (Hfalse y ltac:(lia)). apply Hleast. lia.
Qed.

Lemma gen_prime_loop_starved `{!Libm} (a b : Z) (draws : list Z) :
  2 <= a -> b < exact_limit ->
  (forall x, a <= x <= b -> ~ Z.prime x) -> draws_within a b draws ->
  gen_prime_loop a b draws = Unfinished.
Proof.
  intros Ha Hb Hnone Hdraws.
  destruct (gen_prime_loop a b draws) as [[p rest]|e|] eqn:Hrun; [| |reflexivity].
  - exfalso. destruct (gen_prime_loop_sound a b draws Ha Hb p rest Hrun) as [Hrange Hprime].
    exact (Hnone p Hrange Hprime).
  - exfalso. destruct (gen_prime_loop_raises a b draws e Hrun) as (m & Hm & Hcase).
    unfold draws_within in Hdraws. rewrite Forall_forall in Hdraws.
    specialize (Hdraws m Hm). unfold exact_limit in Hb. unfold float_limit in Hcase.
    destruct Hcase as [[_ Hov]|[_ Hneg]]; lia.
Qed.

(** X11. One round of [gen_prime(a, b)] on a draw [midpoint], for a range
    below [2^52 - 1]: with [start, end_] the window of the draw, the call
    returns the least prime of the window that exceeds the integer root of
    [end_] and keeps the other draws; if the window has no such prime, the
    draw is used up and the call behaves as on the remaining draws. *)
Theorem gen_prime_round `{!Libm} (a b midpoint : Z) (draws : list Z) :
  2 <= a -> a <= b -> b < exact_limit -> a <= midpoint <= b ->
  let start := Z.max a (midpoint - 50) in
  let end_ := Z.min b (midpoint + 50) in
  (gen_prime a b (midpoint :: draws) = gen_prime a b draws /\
   forall x, start <= x <= end_ -> ~ (Z.prime x /\ Z.sqrt end_ < x)) \/
  (exists x, gen_prime a b (midpoint :: draws) = Return (x, draws) /\
             start <= x <= end_ /\ Z.prime x /\ Z.sqrt end_ < x /\
             forall y, start <= y < x -> ~ (Z.prime y /\ Z.sqrt end_ < y)).
Proof.
  intros Ha Hb Hlim Hm start end_. rewrite !gen_prime_valid by assumption.
  apply gen_prime_loop_round_least; [assumption | lia].
Qed.

Lemma gen_prime_round_witness :
  let start := Z.max 2 (60 - 50) in
  let end_ := Z.min 200 (60 + 50) in
  (gen_prime 2 200 [60; 7] = gen_prime 2 200 [7] /\
   forall x, start <= x <= end_ -> ~ (Z.prime x /\ Z.sqrt end_ < x)) \/
  (exists x, gen_prime 2 200 [60; 7] = Return (x, [7]) /\
             start <= x <= end_ /\ Z.prime x /\ Z.sqrt end_ < x /\
             forall y, start <= y < x -> ~ (Z.prime y /\ Z.sqrt end_ < y)).
Proof.
  apply (gen_prime_round 2 200 60 [7]).
  - lia.
  - lia.
  - reflexivity.
  - lia.
Defined.

(** X12. The lock-up of the comment on line 95: on a valid range below
    [2^52 - 1] without a prime, [gen_prime] uses up any number of draws of
    [random.randint] without returning and without raising. *)
Theorem gen_prime_locks_up `{!Libm} (a b : Z) (draws : list Z) :
  2 <= a -> a <= b -> b < exact_limit -> (forall x, a <= x <= b -> ~ Z.prime x) ->
  draws_within a b draws ->
  gen_prime a b draws = Unfinished.
Proof.
  intros Ha Hb Hlim Hnone Hdraws. rewrite gen_prime_valid by assumption.
  apply gen_prime_loop_starved; assumption.
Qed.

Lemma gen_prime_locks_up_witness : gen_prime 24 28 [25; 28; 24] = Unfinished.
Proof.
  apply (gen_prime_locks_up 24 28 [25; 28; 24]).
  - lia.
  - lia.
  - reflexivity.
  - intros x Hx [_ Hprime].
    assert (x = 24 \/ x = 25 \/ x = 26 \/ x = 27 \/ x = 28) as Hcases by lia.
    destruct Hcases as [->|[->|[->|[->| ->]]]].
    + apply (Hprime 2); [lia | exists 12; reflexivity].
    + apply (Hprime 5); [lia | exists 5; reflexivity].
    + apply (Hprime 2); [lia | exists 13; reflexivity].
    + apply (Hprime 3); [lia | exists 9; reflexivity].
    + apply (Hprime 2); [lia | exists 14; reflexivity].
  - unfold draws_within. repeat (apply Forall_cons; split; [lia|]). apply Forall_nil. exact I.
Defined.

(** X13. The self-marking of the sieve, for every range: a value [p] that
    [gen_prime(a, b)] returns on draws of [random.randint(a, b)] has
    [p * p > min(b, a + 50)], so the primes up to the root of
    [min(b, a + 50)] are never produced. *)
Theorem gen_prime_skips_small_primes `{!Libm} (a b : Z) (draws : list Z) (p : Z)
  (rest : list Z) :
  draws_within a b draws ->
  gen_prime a b draws = Return (p, rest) ->
  Z.min b (a + 50) < p * p.
Proof.
  intros Hdraws Hrun. unfold gen_prime in Hrun.
  destruct (decide (a < 2 \/ b < a)) as [?|Hok]; [discriminate|].
  destruct (gen_prime_loop_window a b draws p rest Hrun) as (m & stop & Hm & Hwin & Hstop & Hnot).
  unfold draws_within in Hdraws. rewrite Forall_forall in Hdraws.
  specialize (Hdraws m Hm).
  destruct (decide (Z.min b (m + 50) < exact_limit)) as [Hexact|Hlarge].
  - rewrite int_sqrt_plus_1_exact in Hstop by lia. injection Hstop as <-.
    assert (Z.sqrt (Z.min b (m + 50)) < p) as Hroot.
    { destruct (decide (Z.sqrt (Z.min b (m + 50)) < p)) as [?|Hle]; [assumption|].
      exfalso. apply Hnot. exists p. split; [lia|]. apply Z.mod_same. lia. }
    apply Z.sqrt_lt_square in Hroot; lia.
  - unfold exact_limit in Hlarge. nia.
Qed.

Lemma gen_prime_skips_small_primes_witness : Z.min 100 (2 + 50) < 11 * 11.
Proof.
  apply (gen_prime_skips_small_primes 2 100 [50] 11 []).
  - unfold draws_within. apply Forall_cons. split; [lia | apply Forall_nil; exact I].
  - vm_compute. reflexivity.
Defined.

End gen_prime_rounds.

(** *** Generated keys, end to end *)
Section generated_keys.

(** A returned inverse component is never 0. *)
Lemma inverse_component_returned (e phi d : Z) :
  1 <= e -> 1 <= phi -> inverse_component e phi = Return d ->
  1 <= d < phi /\ (e * d) mod phi = Z.gcd e phi.
Proof.
  intros He Hphi Hrun. unfold inverse_component in Hrun.
  destruct (decide (Z.max e phi mod Z.min e phi = 0)) as [Hdiv|Hndiv].
  - exfalso. rewrite ex_gcd_unfold in Hrun.
    destruct (decide (phi > e)) as [Hswap|Hkeep].
    + rewrite Z.max_r, Z.min_l in Hdiv by lia.
      rewrite ex_gcd_after_swap_short in Hrun by tauto. discriminate.
    + rewrite Z.max_l, Z.min_r in Hdiv by lia.
      rewrite ex_gcd_after_swap_short in Hrun by tauto. discriminate.
  - destruct (ex_gcd_positive_run e phi He Hphi Hndiv) as (inv & Hgcd & Hinv & Hmod).
    rewrite Hgcd, bind_Return in Hrun. injection Hrun as <-. simpl in *.
    split; [|exact Hmod].
    assert (0 < Z.gcd e phi).
    { pose proof (Z.gcd_nonneg e phi).
      destruct (decide (Z.gcd e phi = 0)) as [Hz|?]; [|lia].
      apply Z.gcd_eq_0_l in Hz. lia. }
    destruct (decide (inv = 0)) as [->|?]; [|lia].
    rewrite Z.mul_0_r, Z.mod_0_l in Hmod by lia. lia.
Qed.

(** What a returned key says about the run that made it, on every
    platform and for every bound. *)
Lemma gen_keys_below_run `{!Libm} (max_gen : Z) (draws : list Z) (N e d : Z) (rest : list Z) :
  gen_keys_below max_gen draws = Return (N, e, d, rest) ->
  exists p q draws1 draws2,
    gen_prime 2 max_gen draws = Return (p, draws1) /\
    gen_prime 2 max_gen draws1 = Return (q, draws2) /\
    gen_prime (Z.max p q) max_gen draws2 = Return (e, rest) /\
    inverse_component e ((p - 1) * (q - 1)) = Return d /\
    N = p * q /\ 2 <= p <= max_gen /\ 2 <= q <= max_gen /\ Z.max p q <= e <= max_gen /\
    1 <= d < (p - 1) * (q - 1) /\ (e * d) mod ((p - 1) * (q - 1)) = Z.gcd e ((p - 1) * (q - 1)).
Proof.
  intros Hrun. unfold gen_keys_below in Hrun.
  apply bind_Return_inv in Hrun as ([p draws1] & Hp & Hrun).
  apply bind_Return_inv in Hrun as ([q draws2] & Hq & Hrun).
  apply bind_Return_inv in Hrun as ([e' draws3] & He & Hrun).
  apply bind_Return_inv in Hrun as (d' & Hinv & Hrun).
  injection Hrun as <- <- <- <-.
  destruct (gen_prime_in_range _ _ _ _ _ Hp) as (_ & Hp_range).
  destruct (gen_prime_in_range _ _ _ _ _ Hq) as (_ & Hq_range).
  destruct (gen_prime_in_range _ _ _ _ _ He) as (_ & He_range).
  destruct (inverse_component_returned e' ((p - 1) * (q - 1)) d' ltac:(lia) ltac:(nia) Hinv)
    as [Hd Hmod].
  exists p, q, draws1, draws2.
  split; [exact Hp|]. split; [exact Hq|]. split; [exact He|]. split; [exact Hinv|].
  split; [reflexivity|]. split; [lia|]. split; [lia|]. split; [lia|].
  split; [exact Hd | exact Hmod].
Qed.

(** The same below [exact_limit], where the values drawn are primes. *)
Lemma gen_keys_below_returned `{!Libm} (max_gen : Z) (draws : list Z) (N e d : Z) (rest : list Z) :
  max_gen < exact_limit ->
  gen_keys_below max_gen draws = Return (N, e, d, rest) ->
  exists p q draws1 draws2,
    gen_prime 2 max_gen draws = Return (p, draws1) /\
    gen_prime 2 max_gen draws1 = Return (q, draws2) /\
    gen_prime (Z.max p q) max_gen draws2 = Return (e, rest) /\
    inverse_component e ((p - 1) * (q - 1)) = Return d /\
    N = p * q /\ Z.prime p /\ Z.prime q /\ Z.prime e /\
    p <= max_gen /\ q <= max_gen /\ Z.max p q <= e <= max_gen /\
    2 <= (p - 1) * (q - 1) /\ Z.gcd e ((p - 1) * (q - 1)) = 1 /\
    (e * d) mod ((p - 1) * (q - 1)) = 1 /\ 1 <= d < (p - 1) * (q - 1).
Proof.
  intros Hlim Hrun.
  destruct (gen_keys_below_run _ _ _ _ _ _ Hrun)
    as (p & q & draws1 & draws2 & Hp & Hq & He & Hinv & HN & Hp_range & Hq_range
        & He_range & Hd & Hmod).
  destruct (gen_prime_sound _ _ _ _ _ Hlim Hp) as (_ & _ & Hp_prime).
  destruct (gen_prime_sound _ _ _ _ _ Hlim Hq) as (_ & _ & Hq_prime).
  destruct (gen_prime_sound _ _ _ _ _ Hlim He) as (_ & _ & He_prime).
  assert (Z.gcd e ((p - 1) * (q - 1)) = 1) as Hco
    by (apply prime_coprime_totient; [assumption | lia | lia]).
  rewrite Hco in Hmod.
  exists p, q, draws1, draws2.
  split; [exact Hp|]. split; [exact Hq|]. split; [exact He|]. split; [exact Hinv|].
  split; [exact HN|]. split; [exact Hp_prime|]. split; [exact Hq_prime|].
  split; [exact He_prime|]. split; [lia|]. split; [lia|]. split; [lia|].
  split; [lia|]. split; [exact Hco|]. split; [exact Hmod | exact Hd].
Qed.

Lemma gen_keys_returned `{!Libm} (max_digits : Z) (draws : list Z) (N e d : Z) (rest : list Z) :
  gen_keys max_digits draws = Return (N, e, d, rest) ->
  exists max_gen, max_gen_of max_digits = Return max_gen /\
                  gen_keys_below max_gen draws = Return (N, e, d, rest).
Proof.
  intros Hrun. unfold gen_keys in Hrun.
  apply bind_Return_inv in Hrun as (max_gen & Hmg & Hrun). eauto.
Qed.

Lemma max_gen_of_nonpositive `{!Libm} (max_digits max_gen : Z) :
  max_digits <= 0 -> max_gen_of max_digits = Return max_gen -> max_gen <= 1.
Proof.
  intros Hmd Hrun. unfold max_gen_of in Hrun.
  destruct (decide (2 * float_limit <= Z.abs max_digits)) as [Hov|Hin].
  { rewrite int_pow10_half_unrepresentable in Hrun by assumption. discriminate. }
  rewrite int_pow10_half_divides in Hrun by lia.
  destruct (decide (max_digits < 0)) as [?|?]; [injection Hrun as <-; lia|].
  destruct (decide (max_digits = 0)) as [?|?]; [injection Hrun as <-; lia | lia].
Qed.

Lemma max_gen_of_exact `{!Libm} (max_digits : Z) :
  1 <= max_digits <= 31 ->
  max_gen_of max_digits = Return (Z.sqrt (10 ^ max_digits)) /\
  3 <= Z.sqrt (10 ^ max_digits) < exact_limit.
Proof.
  intros Hmd. split; [apply int_pow10_half_exact; lia|].
  assert (10 ^ 1 <= 10 ^ max_digits <= 10 ^ 31) as Hpow
    by (split; apply Z.pow_le_mono_r; lia).
  split.
  - apply Z.sqrt_le_square; [lia | lia|]. change (10 ^ 1) with 10 in Hpow. lia.
  - apply Z.sqrt_lt_square; [lia | unfold exact_limit; lia|].
    eapply Z.le_lt_trans; [exact (proj2 Hpow)|]. reflexivity.
Qed.

(** A key that [gen_keys] returns within 31 digits, through its run. *)
Lemma gen_keys_exact_run `{!Libm} (max_digits : Z) (draws : list Z) (N e d : Z) (rest : list Z) :
  max_digits <= 31 ->
  gen_keys max_digits draws = Return (N, e, d, rest) ->
  1 <= max_digits /\
  max_gen_of max_digits = Return (Z.sqrt (10 ^ max_digits)) /\
  Z.sqrt (10 ^ max_digits) < exact_limit /\
  gen_keys_below (Z.sqrt (10 ^ max_digits)) draws = Return (N, e, d, rest).
Proof.
  intros Hmd Hrun. destruct (gen_keys_returned _ _ _ _ _ _ Hrun) as (max_gen & Hmg & Hbelow).
  destruct (decide (1 <= max_digits)) as [Hpos|Hsmall].
  - destruct (max_gen_of_exact max_digits ltac:(lia)) as (Heq & _ & Hlim).
    rewrite Heq in Hmg. injection Hmg as <-. auto.
  - exfalso. assert (max_digits <= 0) as Hnp by lia.
    pose proof (max_gen_of_nonpositive _ _ Hnp Hmg) as Hle.
    unfold gen_keys_below in Hbelow. rewrite gen_prime_invalid in Hbelow by lia. discriminate.
Qed.

Lemma crack_generated `{!Libm} (max_gen : Z) (draws : list Z) (N e d : Z) (rest : list Z) :
  max_gen * max_gen < exact_limit ->
  gen_keys_below max_gen draws = Return (N, e, d, rest) -> crack N e = Return d.
Proof.
  intros Hlim Hrun.
  assert (max_gen < exact_limit) as Hlim1.
  { destruct (gen_keys_below_run _ _ _ _ _ _ Hrun) as (p & _ & _ & _ & _ & _ & _ & _ & _ & Hp & _).
    nia. }
  destruct (gen_keys_below_returned _ _ _ _ _ _ Hlim1 Hrun)
    as (p & q & _ & _ & _ & _ & _ & Hinv & -> & Hp & Hq & _ & Hp_le & Hq_le & _).
  pose proof (Z.prime_ge_2 p Hp). pose proof (Z.prime_ge_2 q Hq).
  rewrite (crack_semiprime p q e Hp Hq ltac:(nia)). exact Hinv.
Qed.

Lemma modulus_below_budget (max_digits p q : Z) :
  1 <= max_digits -> Z.prime p -> Z.prime q ->
  p <= Z.sqrt (10 ^ max_digits) -> q <= Z.sqrt (10 ^ max_digits) ->
  p * q < 10 ^ max_digits.
Proof.
  intros Hmd Hp Hq Hp_le Hq_le.
  pose proof (Z.prime_ge_2 p Hp). pose proof (Z.prime_ge_2 q Hq).
  assert (0 <= 10 ^ max_digits) as Hpow by (apply Z.pow_nonneg; lia).
  pose proof (Z.sqrt_spec (10 ^ max_digits) Hpow) as [Hlo _].
  set (g := Z.sqrt (10 ^ max_digits)) in *.
  destruct (decide (p * q = 10 ^ max_digits)) as [Heq|?]; [|nia].
  exfalso. assert (p = g /\ q = g) as [-> ->] by nia.
  assert (10 ^ max_digits = 10 * 10 ^ (max_digits - 1)) as Hten.
  { replace max_digits with (Z.succ (max_digits - 1)) at 1 by lia.
    apply Z.pow_succ_r. lia. }
  assert ((2 | g * g)) as Hdiv.
  { rewrite Heq, Hten. exists (5 * 10 ^ (max_digits - 1)). ring. }
  apply (Z.divide_prime_mul g g 2 Z.prime_2) in Hdiv.
  assert ((2 | g)) as Hdiv2 by tauto.
  apply (Z.divide_prime_prime 2 g Z.prime_2 Hp) in Hdiv2. subst g.
  rewrite <- Hdiv2 in Heq. lia.
Qed.

(** X14. The digit budget of [gen_keys], up to 31 digits: a returned
    modulus has at most [max_digits] decimal digits,
    [6 <= N < 10 ^ max_digits]. *)
Theorem gen_keys_modulus_digits `{!Libm} (max_digits : Z) (draws : list Z)
  (N e d : Z) (rest : list Z) :
  max_digits <= 31 ->
  gen_keys max_digits draws = Return (N, e, d, rest) ->
  6 <= N < 10 ^ max_digits.
Proof.
  intros Hmd Hrun.
  destruct (gen_keys_exact_run _ _ _ _ _ _ Hmd Hrun) as (Hpos & _ & Hlim & Hbelow).
  destruct (gen_keys_below_returned _ _ _ _ _ _ Hlim Hbelow)
    as (p & q & _ & _ & _ & _ & _ & _ & -> & Hp & Hq & _ & Hp_le & Hq_le & _ & Hphi & _).
  pose proof (Z.prime_ge_2 p Hp). pose proof (Z.prime_ge_2 q Hq).
  split; [nia|]. apply modulus_below_budget; assumption.
Qed.

Lemma gen_keys_modulus_digits_witness : 6 <= 2761 < 10 ^ 5.
Proof.
  apply (gen_keys_modulus_digits 5 [50; 300; 300] 2761 251 2251 []).
  - lia.
  - vm_compute. reflexivity.
Defined.

(** X15. The exponents of a key returned within 31 digits: [e] is a prime
    not below either of the primes drawn and coprime to
    [phi = (p - 1) * (q - 1)], and [d] is the inverse of [e] modulo [phi]
    inside [[1, phi)]. *)
Theorem gen_keys_exponents `{!Libm} (max_digits : Z) (draws : list Z)
  (N e d : Z) (rest : list Z) :
  max_digits <= 31 ->
  gen_keys max_digits draws = Return (N, e, d, rest) ->
  exists max_gen p q draws1 draws2,
    max_gen_of max_digits = Return max_gen /\
    gen_prime 2 max_gen draws = Return (p, draws1) /\
    gen_prime 2 max_gen draws1 = Return (q, draws2) /\
    Z.prime e /\ Z.max p q <= e <= max_gen /\
    Z.gcd e ((p - 1) * (q - 1)) = 1 /\
    (e * d) mod ((p - 1) * (q - 1)) = 1 /\ 1 <= d < (p - 1) * (q - 1).
Proof.
  intros Hmd Hrun.
  destruct (gen_keys_exact_run _ _ _ _ _ _ Hmd Hrun) as (_ & Hmg & Hlim & Hbelow).
  destruct (gen_keys_below_returned _ _ _ _ _ _ Hlim Hbelow)
    as (p & q & d1 & d2 & Hp & Hq & _ & _ & _ & _ & _ & He & _ & _ & He_range & _ & Hco & Hed & Hd).
  exists (Z.sqrt (10 ^ max_digits)), p, q, d1, d2. tauto.
Qed.

Lemma gen_keys_exponents_witness :
  exists max_gen p q draws1 draws2,
    max_gen_of 5 = Return max_gen /\
    gen_prime 2 max_gen [50; 300; 300] = Return (p, draws1) /\
    gen_prime 2 max_gen draws1 = Return (q, draws2) /\
    Z.prime 251 /\ Z.max p q <= 251 <= max_gen /\
    Z.gcd 251 ((p - 1) * (q - 1)) = 1 /\
    (251 * 2251) mod ((p - 1) * (q - 1)) = 1 /\ 1 <= 2251 < (p - 1) * (q - 1).
Proof.
  apply (gen_keys_exponents 5 [50; 300; 300] 2761 251 2251 []).
  - lia.
  - vm_compute. reflexivity.
Defined.

(** X16. A key generated within 31 digits works: when [gen_keys] returns
    [(N, e, d)] and the two primes it drew differ,
    [decrypt(encrypt(m, N, e), N, d)] returns [m] for every message
    [0 <= m < N]. *)
Theorem generated_key_round_trip `{!Libm} (max_digits max_gen : Z)
  (draws draws1 draws2 : list Z) (N e d p q m : Z) (rest : list Z) :
  max_digits <= 31 ->
  gen_keys max_digits draws = Return (N, e, d, rest) ->
  max_gen_of max_digits = Return max_gen ->
  gen_prime 2 max_gen draws = Return (p, draws1) ->
  gen_prime 2 max_gen draws1 = Return (q, draws2) ->
  p <> q -> 0 <= m < N ->
  (encrypt m N e ≫= fun c => decrypt c N d) = Return m.
Proof.
  intros Hmd Hrun Hmg Hp Hq Hne Hm.
  destruct (gen_keys_exact_run _ _ _ _ _ _ Hmd Hrun) as (_ & Hmg' & Hlim & Hbelow).
  rewrite Hmg in Hmg'. injection Hmg' as ->.
  destruct (gen_keys_below_returned _ _ _ _ _ _ Hlim Hbelow)
    as (p' & q' & d1 & d2 & Hp' & Hq' & _ & _ & HN & Hp_prime & Hq_prime & He_prime
        & _ & _ & _ & _ & _ & Hed & Hd).
  rewrite Hp in Hp'. injection Hp' as <- <-.
  rewrite Hq in Hq'. injection Hq' as <- <-.
  rewrite <- (Z.mod_small m N Hm) at 2.
  apply (round_trip_modulo p q N e d m); try assumption.
  - pose proof (Z.prime_ge_2 e He_prime). lia.
  - lia.
Qed.

Lemma generated_key_round_trip_witness :
  (encrypt 1234 2761 251 ≫= fun c => decrypt c 2761 2251) = Return 1234.
Proof.
  apply (generated_key_round_trip 5 316 [50; 300; 300] [300; 300] [300]
           2761 251 2251 11 251 1234 []).
  - lia.
  - vm_compute. reflexivity.
  - vm_compute. reflexivity.
  - vm_compute. reflexivity.
  - vm_compute. reflexivity.
  - lia.
  - lia.
Defined.

(** X17. The attack recovers a key generated within 15 digits, where the
    modulus stays below [2^52 - 1]: whatever key [gen_keys] returns, also
    one with [p = q], [crack] applied to its public half [(N, e)] returns
    its private exponent [d]. *)
Theorem crack_breaks_generated_key `{!Libm} (max_digits : Z) (draws : list Z)
  (N e d : Z) (rest : list Z) :
  max_digits <= 15 ->
  gen_keys max_digits draws = Return (N, e, d, rest) -> crack N e = Return d.
Proof.
  intros Hmd Hrun.
  assert (max_digits <= 31) as Hmd31 by lia.
  destruct (gen_keys_exact_run _ _ _ _ _ _ Hmd31 Hrun) as (Hpos & _ & _ & Hbelow).
  refine (crack_generated _ _ _ _ _ _ _ Hbelow).
  assert (0 <= 10 ^ max_digits) as Hnn by (apply Z.pow_nonneg; lia).
  pose proof (Z.sqrt_spec (10 ^ max_digits) Hnn) as [Hlo _].
  assert (10 ^ max_digits <= 10 ^ 15) by (apply Z.pow_le_mono_r; lia).
  unfold exact_limit. change (10 ^ 15) with 1000000000000000 in *. lia.
Qed.

Lemma crack_breaks_generated_key_witness : crack 121 11 = Return 91.
Proof.
  apply (crack_breaks_generated_key 4 [50; 50; 50] 121 11 91 []).
  - lia.
  - vm_compute. reflexivity.
Defined.

(** X18. The collision that [gen_keys] does not guard against: when both
    draws give the same prime [p], the returned key does not decrypt the
    message [p]; [decrypt(encrypt(p, N, e), N, d)] returns 0. *)
Theorem colliding_primes_break_round_trip `{!Libm} (max_digits max_gen : Z)
  (draws draws1 draws2 : list Z) (N e d p : Z) (rest : list Z) :
  gen_keys max_digits draws = Return (N, e, d, rest) ->
  max_gen_of max_digits = Return max_gen ->
  gen_prime 2 max_gen draws = Return (p, draws1) ->
  gen_prime 2 max_gen draws1 = Return (p, draws2) ->
  0 < p < N /\ (encrypt p N e ≫= fun c => decrypt c N d) = Return 0.
Proof.
  intros Hrun Hmg Hp Hq.
  destruct (gen_keys_returned _ _ _ _ _ _ Hrun) as (max_gen' & Hmg' & Hbelow).
  rewrite Hmg in Hmg'. injection Hmg' as <-.
  destruct (gen_keys_below_run _ _ _ _ _ _ Hbelow)
    as (p' & q' & d1 & d2 & Hp' & Hq' & _ & _ & HN & Hp2 & _ & He_range & Hd & _).
  rewrite Hp in Hp'. injection Hp' as <- <-.
  rewrite Hq in Hq'. injection Hq' as <- <-.
  subst N. split; [nia|].
  assert (2 <= e) as He by lia.
  unfold encrypt, decrypt.
  rewrite (pow_positive_exponent p e (p * p)) by nia. rewrite !bind_Return.
  assert (p ^ e mod (p * p) = 0) as ->.
  { replace e with (2 + (e - 2)) by lia. rewrite Z.pow_add_r, Z.pow_2_r by lia.
    rewrite Z.mul_comm. apply Z.mod_mul. nia. }
  rewrite (pow_positive_exponent 0 d (p * p)) by nia. rewrite bind_Return.
  rewrite Z.pow_0_l by lia. rewrite Z.mod_0_l by nia. reflexivity.
Qed.

Lemma colliding_primes_break_round_trip_witness :
  0 < 11 < 121 /\ (encrypt 11 121 11 ≫= fun c => decrypt c 121 91) = Return 0.
Proof.
  apply (colliding_primes_break_round_trip 4 100 [50; 50; 50] [50; 50] [50] 121 11 91 11 []).
  - vm_compute. reflexivity.
  - vm_compute. reflexivity.
  - vm_compute. reflexivity.
  - vm_compute. reflexivity.
Defined.

End generated_keys.

(** *** Failures of [gen_keys], and the script *)
Section script_runs.

Lemma gen_prime_valid_raises `{!Libm} (a b : Z) (draws : list Z) (x : exn) :
  2 <= a -> a <= b -> gen_prime a b draws = Raise x ->
  x = OverflowError \/ x = TypeError.
Proof.
  intros Ha Hb Hrun. rewrite gen_prime_valid in Hrun by assumption.
  destruct (gen_prime_loop_raises a b draws x Hrun) as (m & _ & [[-> _]|[-> _]]); auto.
Qed.

Lemma inverse_component_raises (e phi : Z) (x : exn) :
  inverse_component e phi = Raise x -> x = IndexError.
Proof.
  unfold inverse_component. intros Hrun.
  destruct (ex_gcd_run_or_index_error e phi) as [Hraise|(g & inv & Hret & _)].
  - rewrite Hraise in Hrun. injection Hrun as <-. reflexivity.
  - rewrite Hret in Hrun. discriminate.
Qed.

Lemma gen_keys_below_raises `{!Libm} (max_gen : Z) (draws : list Z) (x : exn) :
  2 <= max_gen -> gen_keys_below max_gen draws = Raise x ->
  x = OverflowError \/ x = TypeError \/ x = IndexError.
Proof.
  intros Hmg Hrun. unfold gen_keys_below in Hrun.
  destruct (gen_prime 2 max_gen draws) as [[p draws1]|x1|] eqn:Hp; [| |discriminate].
  - rewrite bind_Return in Hrun.
    destruct (gen_prime 2 max_gen draws1) as [[q draws2]|x2|] eqn:Hq; [| |discriminate].
    + rewrite bind_Return in Hrun.
      destruct (gen_prime_in_range _ _ _ _ _ Hp) as (_ & Hp_range).
      destruct (gen_prime_in_range _ _ _ _ _ Hq) as (_ & Hq_range).
      destruct (gen_prime (Z.max p q) max_gen draws2) as [[e draws3]|x3|] eqn:He;
        [| |discriminate].
      * rewrite bind_Return in Hrun.
        destruct (inverse_component e ((p - 1) * (q - 1))) as [d|x4|] eqn:Hd;
          [discriminate| |discriminate].
        injection Hrun as <-. right. right. exact (inverse_component_raises _ _ _ Hd).
      * injection Hrun as <-.
        destruct (gen_prime_valid_raises (Z.max p q) max_gen draws2 x3 ltac:(lia) ltac:(lia) He);
          auto.
    + injection Hrun as <-.
      destruct (gen_prime_valid_raises 2 max_gen draws1 x2 ltac:(lia) ltac:(lia) Hq); auto.
  - injection Hrun as <-.
    destruct (gen_prime_valid_raises 2 max_gen draws x1 ltac:(lia) ltac:(lia) Hp); auto.
Qed.

(** X19. [gen_keys(max_digits)] fails with the range error of [gen_prime]
    exactly when [max_digits <= 0] and [max_digits/2] is still a double,
    whatever the draws: the bound [max_gen] is then below 2 and the first
    call is refused.  Beyond that the division raises [OverflowError]. *)
Theorem gen_keys_range_error_iff `{!Libm} (max_digits : Z) (draws : list Z) :
  gen_keys max_digits draws = Raise InvalidRangeError <->
  - (2 * float_limit) < max_digits <= 0.
Proof.
  pose proof float_limit_large as Hlim. unfold gen_keys, max_gen_of. split.
  - intros Hrun.
    destruct (decide (2 * float_limit <= Z.abs max_digits)) as [Hov|Hin].
    { rewrite int_pow10_half_unrepresentable in Hrun by assumption. discriminate. }
    destruct (decide (max_digits <= 0)) as [?|Hbig]; [lia|]. exfalso.
    destruct (decide (617 <= max_digits)) as [Hhuge|Hmid].
    { rewrite int_pow10_half_overflow in Hrun by assumption. discriminate. }
    destruct (int_pow10_half_returns max_digits ltac:(lia)) as (max_gen & Hmg & Hrange).
    rewrite Hmg, bind_Return in Hrun.
    assert (2 <= max_gen) as Hmg2 by lia.
    destruct (gen_keys_below_raises _ _ _ Hmg2 Hrun) as [?|[?|?]]; discriminate.
  - intros Hsmall. rewrite int_pow10_half_divides by lia.
    destruct (decide (max_digits < 0)) as [?|?].
    + rewrite bind_Return. unfold gen_keys_below. rewrite gen_prime_invalid by lia. reflexivity.
    + destruct (decide (max_digits = 0)) as [?|?]; [|lia].
      rewrite bind_Return. unfold gen_keys_below. rewrite gen_prime_invalid by lia. reflexivity.
Qed.

(** X20. The script after key generation: whenever [gen_keys(5)] returns a
    key, the script runs to its end; it leaves [N < 100000], the key's own
    private exponent in [d] (as found again by [crack]), and in [m2] the
    message 12345 reduced modulo [N] when the two primes differ, which is
    not the message once [N] is not above 12345. *)
Theorem script_outcome `{!Libm} (draws : list Z) (N e d : Z) (rest : list Z) :
  gen_keys 5 draws = Return (N, e, d, rest) ->
  exists p q draws1 draws2 c m2,
    gen_prime 2 316 draws = Return (p, draws1) /\
    gen_prime 2 316 draws1 = Return (q, draws2) /\
    script draws = Return (Globals N e d 12345 c m2, rest) /\
    N < 100000 /\ c = 12345 ^ e mod N /\
    (p <> q -> m2 = 12345 mod N /\ (m2 = 12345 <-> 12345 < N)).
Proof.
  intros Hrun. unfold script. rewrite Hrun, bind_Return.
  assert (5 <= 31) as Hmd by lia.
  destruct (gen_keys_exact_run _ _ _ _ _ _ Hmd Hrun) as (_ & _ & Hlim & Hbelow).
  change (Z.sqrt (10 ^ 5)) with 316 in *.
  rewrite (crack_generated 316 _ _ _ _ _ ltac:(reflexivity) Hbelow).
  destruct (gen_keys_below_returned _ _ _ _ _ _ Hlim Hbelow)
    as (p & q & d1 & d2 & Hp & Hq & _ & _ & HN & Hp_prime & Hq_prime & He_prime
        & Hp_le & Hq_le & _ & _ & _ & Hed & Hd).
  pose proof (Z.prime_ge_2 p Hp_prime). pose proof (Z.prime_ge_2 q Hq_prime).
  pose proof (Z.prime_ge_2 e He_prime).
  assert (0 < N) as HNpos by nia.
  exists p, q, d1, d2, (12345 ^ e mod N), ((12345 ^ e mod N) ^ d mod N).
  split; [exact Hp|]. split; [exact Hq|]. split.
  - unfold encrypt, decrypt.
    rewrite (pow_positive_exponent 12345 e N) by lia. rewrite !bind_Return.
    rewrite (pow_positive_exponent (12345 ^ e mod N) d N) by lia. rewrite !bind_Return.
    reflexivity.
  - split; [nia|]. split; [reflexivity|]. intros Hne.
    assert ((12345 ^ e mod N) ^ d mod N = 12345 mod N) as ->.
    { rewrite Z.mod_pow_l, <- Z.pow_mul_r by lia. subst N.
      apply rsa_identity; (assumption || lia). }
    split; [reflexivity|]. split.
    + intros Heq. pose proof (Z.mod_pos_bound 12345 N HNpos). lia.
    + intros Hlt. apply Z.mod_small. lia.
Qed.

Lemma script_outcome_witness :
  exists p q draws1 draws2 c m2,
    gen_prime 2 316 [151; 152; 200] = Return (p, draws1) /\
    gen_prime 2 316 draws1 = Return (q, draws2) /\
    script [151; 152; 200] = Return (Globals 10403 151 1351 12345 c m2, []) /\
    10403 < 100000 /\ c = 12345 ^ 151 mod 10403 /\
    (p <> q -> m2 = 12345 mod 10403 /\ (m2 = 12345 <-> 12345 < 10403)).
Proof.
  apply (script_outcome [151; 152; 200] 10403 151 1351 []).
  vm_compute. reflexivity.
Defined.

(** X21. The range of the public exponent starts at [max(p, q)] itself:
    below [2^52 - 1], whenever the draw for [e] has its window start there
    and the larger prime exceeds the root of the window's end, the call
    returns [e = max(p, q)], a public exponent that divides [N = p * q]. *)
Theorem public_exponent_can_divide_modulus `{!Libm} (max_gen p q midpoint : Z)
  (rest : list Z) :
  Z.prime p -> Z.prime q -> max_gen < exact_limit ->
  Z.max p q <= midpoint <= max_gen -> midpoint - 50 <= Z.max p q ->
  Z.sqrt (Z.min max_gen (midpoint + 50)) < Z.max p q ->
  gen_prime (Z.max p q) max_gen (midpoint :: rest) = Return (Z.max p q, rest) /\
  (Z.max p q | p * q).
Proof.
  intros Hp Hq Hlim Hm Hwin Hroot.
  pose proof (Z.prime_ge_2 p Hp). pose proof (Z.prime_ge_2 q Hq).
  assert (Z.prime (Z.max p q)) as Hmax.
  { destruct (Z.max_spec p q) as [[_ ->]|[_ ->]]; assumption. }
  split.
  - rewrite gen_prime_valid by lia.
    destruct (gen_prime_loop_round_least (Z.max p q) max_gen midpoint rest ltac:(lia) ltac:(lia))
      as [[_ Hnone]|(x & Hrun & Hx & _ & _ & Hleast)].
    + exfalso. apply (Hnone (Z.max p q)); [lia | split; assumption].
    + rewrite Hrun. destruct (decide (x = Z.max p q)) as [->|Hne]; [reflexivity|].
      exfalso. apply (Hleast (Z.max p q)); [lia | split; assumption].
  - destruct (Z.max_spec p q) as [[_ ->]|[_ ->]].
    + apply Z.divide_factor_r.
    + apply Z.divide_factor_l.
Qed.

Lemma public_exponent_can_divide_modulus_witness :
  gen_prime (Z.max 11 251) 316 [300] = Return (Z.max 11 251, []) /\
  (Z.max 11 251 | 11 * 251).
Proof.
  apply (public_exponent_can_divide_modulus 316 11 251 300 []).
  - apply trial_division_prime_sound. reflexivity.
  - apply trial_division_prime_sound. reflexivity.
  - reflexivity.
  - lia.
  - lia.
  - vm_compute. reflexivity.
Defined.

End script_runs.

(** *** The narration of [ex_gcd] *)
Section narration.

Lemma quiet_bind_Return {A B : Type} (v : A) (k : A -> run B) :
  (quiet (Return v) ≫= k) = k v.
Proof. unfold mbind, run_bind. simpl. destruct (k v); reflexivity. Qed.

Lemma quiet_bind_Raise {A B : Type} (e : exn) (k : A -> run B) :
  (quiet (Raise e) ≫= k) = quiet (Raise e).
Proof. reflexivity. Qed.

Lemma print_bind {B : Type} (text : string) (k : run B) :
  (print text ;; k) = Run (Line text :: stdout k) (result k).
Proof. reflexivity. Qed.

Lemma print_equation_bind {B : Type} (prefix : string) (r s a t b : Z) (suffix : string)
  (k : run B) :
  (print_equation prefix r s a t b suffix ;; k) =
  Run (Equation prefix r s a t b suffix :: stdout k) (result k).
Proof. reflexivity. Qed.

Lemma run_bind_Return {A B : Type} (out : list event) (v : A) (k : A -> run B) :
  (Run out (Return v) ≫= k) = Run (out ++ stdout (k v)) (result (k v)).
Proof. reflexivity. Qed.

Lemma run_bind_Raise {A B : Type} (out : list event) (e : exn) (k : A -> run B) :
  (Run out (Raise e) ≫= k) = Run out (Raise e).
Proof. reflexivity. Qed.

Lemma substitute_steps_run (vals : list Z) (show_steps : bool) (i s t w x y g : Z) :
  getitem vals (i - 2) = Return w -> getitem vals (i - 1) = Return x ->
  getitem vals i = Return y -> getitem vals (-1) = Return g -> x <> 0 ->
  substitute_steps vals show_steps i (s, t) =
  Run (if show_steps
       then [Equation "  ^ " y 1 w (- (w / x)) x (" -> " +:+ newline);
             Equation "" g t w (s + t * - (w / x)) x ""]
       else [])
      (Return (t, s + t * - (w / x))).
Proof.
  intros Hw Hx Hy Hg Hx0. unfold substitute_steps.
  rewrite Hw, Hx, Hy, Hg. rewrite !quiet_bind_Return.
  rewrite (floordiv_Return w x Hx0), quiet_bind_Return.
  destruct show_steps; reflexivity.
Qed.


(** A narrated [for] loop that keeps an invariant runs to its end; the
    silent loop returns the same state, and what is printed on the way
    satisfies whatever every round's output satisfies. *)
Lemma for_run_inv {A S : Type} (body : A -> S -> run S) (body' : A -> S -> outcome S)
  (Q : event -> Prop) (xs : list A) :
  forall (P : nat -> S -> Prop) (s : S),
    P 0%nat s ->
    (forall j x s, xs !! j = Some x -> P j s ->
       exists out s', body x s = Run out (Return s') /\ body' x s = Return s' /\
                      P (Datatypes.S j) s' /\ Forall Q out) ->
    exists out s', for_run xs body s = Run out (Return s') /\
                   for_ xs body' s = Return s' /\ P (length xs) s' /\ Forall Q out.
Proof.
  induction xs as [|x xs IH]; intros P s H0 Hstep; simpl.
  - exists [], s. repeat split; try assumption. apply Forall_nil. exact I.
  - destruct (Hstep 0%nat x s eq_refl H0) as (out1 & s1 & Hb & Hb' & H1 & HQ1).
    destruct (IH (fun j => P (Datatypes.S j)) s1 H1) as (out2 & s2 & Hr & Hr' & H2 & HQ2).
    { intros j y s2 Hy Hj. apply (Hstep (Datatypes.S j)); assumption. }
    exists (out1 ++ out2), s2. rewrite Hb, run_bind_Return, Hr, Hb', bind_Return.
    repeat split; try assumption. apply Forall_app. split; assumption.
Qed.

Lemma remainders_long (x y : Z) :
  y <> 0 -> x mod y <> 0 ->
  exists vals g u v,
    remainder_loop x y = Return vals /\
    remainder_chain (drop_last vals) /\ (3 <= length (drop_last vals))%nat /\
    drop_last vals !! (length (drop_last vals) - 3)%nat = Some u /\
    drop_last vals !! (length (drop_last vals) - 2)%nat = Some v /\
    drop_last vals !! (length (drop_last vals) - 1)%nat = Some g /\
    v <> 0 /\ g = u mod v /\ x <> 0.
Proof.
  intros Hy Hmod.
  assert (x <> 0) as Hx by (intros ->; apply Hmod, Z.mod_0_l; assumption).
  destruct (remainder_loop_returns x y) as (vals & Hrun & Hinv & Hlast).
  pose proof (chain_of_remainders x y vals Hinv) as Hchain.
  destruct Hinv as (Hv0 & Hv1 & Htriple & _).
  rewrite last_lookup in Hlast.
  assert (2 <= length vals)%nat as Hlen2 by (apply lookup_lt_Some in Hv1; lia).
  assert (4 <= length vals)%nat as Hlen4.
  { destruct (decide (length vals = 2%nat)) as [E|?].
    { rewrite E in Hlast. simpl in Hlast. congruence. }
    destruct (lookup_lt_is_Some_2 vals 2%nat ltac:(lia)) as [r Hr].
    destruct (Htriple 0%nat x y r Hv0 Hv1 Hr) as [_ ->].
    destruct (decide (length vals = 3%nat)) as [E|?]; [|lia].
    rewrite E in Hlast. simpl in Hlast. congruence. }
  pose proof (length_drop_last vals) as HlenV.
  destruct (lookup_lt_is_Some_2 (drop_last vals) (length (drop_last vals) - 3)%nat ltac:(lia))
    as [u Hu].
  destruct (lookup_lt_is_Some_2 (drop_last vals) (length (drop_last vals) - 2)%nat ltac:(lia))
    as [v Hv].
  destruct (lookup_lt_is_Some_2 (drop_last vals) (length (drop_last vals) - 1)%nat ltac:(lia))
    as [g Hg].
  exists vals, g, u, v. split; [exact Hrun|]. split; [exact Hchain|]. split; [lia|].
  split; [exact Hu|]. split; [exact Hv|]. split; [exact Hg|].
  destruct (Hchain (length (drop_last vals) - 3)%nat u v Hu) as [Hv0' Hz].
  { replace (S (length (drop_last vals) - 3)) with (length (drop_last vals) - 2)%nat by lia.
    exact Hv. }
  split; [exact Hv0'|]. split; [|exact Hx]. apply Hz.
  replace (S (S (length (drop_last vals) - 3))) with (length (drop_last vals) - 1)%nat by lia.
  exact Hg.
Qed.

(** The narrated back-substitution on a remainder chain: it prints only
    true equations, nothing when silent, and ends in the state of the silent
    loop. *)
Lemma narrated_substitution (vals : list Z) (show_steps : bool) (g u v : Z) :
  remainder_chain vals -> (3 <= length vals)%nat ->
  vals !! (length vals - 3)%nat = Some u ->
  vals !! (length vals - 2)%nat = Some v ->
  vals !! (length vals - 1)%nat = Some g ->
  v <> 0 -> g = u mod v ->
  exists out s t,
    for_run (range_step (len vals - 2) 1 (-1)) (substitute_steps vals show_steps)
            (1, - (u / v)) = Run out (Return (s, t)) /\
    for_ (range_step (len vals - 2) 1 (-1)) (substitute vals) (1, - (u / v))
      = Return (s, t) /\
    Forall (fun e => equation_holds e /\ show_steps = true) out.
Proof.
  intros Hchain Hlen Hu Hv Hg Hv0 Hguv.
  assert (getitem vals (-1) = Return g) as Hg1 by (apply (getitem_back vals 1); [lia | exact Hg]).
  destruct (for_run_inv (substitute_steps vals show_steps) (substitute vals)
              (fun e => equation_holds e /\ show_steps = true)
              (range_step (len vals - 2) 1 (-1))
              (substitution_invariant vals g) (1, - (u / v)))
    as (out & [s t] & Hrun & Hquiet & _ & Hout).
  - exists u, v. rewrite !Nat.sub_0_r. repeat split; try assumption.
    rewrite Hguv, Z.mod_eq by assumption. ring.
  - intros j i [s t] Hi (x1 & y1 & Hx1 & Hy1 & Hcomb).
    apply lookup_range_down in Hi as [Hi Hlow]. unfold len in Hi, Hlow.
    destruct (lookup_lt_is_Some_2 vals (length vals - 4 - j)%nat ltac:(lia)) as [w Hw].
    destruct (Hchain (length vals - 4 - j)%nat w x1 Hw) as [Hx0 Hz].
    { replace (S (length vals - 4 - j)) with (length vals - 3 - j)%nat by lia. exact Hx1. }
    assert (y1 = w mod x1) as Hy1eq.
    { apply Hz. replace (S (S (length vals - 4 - j))) with (length vals - 2 - j)%nat by lia.
      exact Hy1. }
    assert (getitem vals (i - 2) = Return w) as Hgw.
    { replace (i - 2) with (Z.of_nat (length vals - 4 - j)) by lia.
      apply getitem_front. exact Hw. }
    assert (getitem vals (i - 1) = Return x1) as Hgx.
    { replace (i - 1) with (Z.of_nat (length vals - 3 - j)) by lia.
      apply getitem_front. exact Hx1. }
    assert (getitem vals i = Return y1) as Hgy.
    { replace i with (Z.of_nat (length vals - 2 - j)) by lia.
      apply getitem_front. exact Hy1. }
    eexists _, (t, s + t * - (w / x1)).
    split; [apply (substitute_steps_run vals show_steps i s t w x1 y1 g); assumption|].
    split.
    { unfold substitute. rewrite Hgw, bind_Return, Hgx, bind_Return.
      rewrite (floordiv_Return w x1 Hx0), bind_Return. reflexivity. }
    assert (g = t * w + (s + t * - (w / x1)) * x1) as Hnext.
    { rewrite Hcomb, Hy1eq, Z.mod_eq by assumption. ring. }
    split.
    { exists w, x1.
      replace (length vals - 3 - S j)%nat with (length vals - 4 - j)%nat by lia.
      replace (length vals - 2 - S j)%nat with (length vals - 3 - j)%nat by lia.
      repeat split; assumption. }
    destruct show_steps; [|apply Forall_nil; exact I].
    apply Forall_cons. split.
    { split; [|reflexivity]. simpl. rewrite Hy1eq, Z.mod_eq by assumption. ring. }
    apply Forall_cons. split; [|apply Forall_nil; exact I].
    split; [exact Hnext | reflexivity].
  - exists out, s, t. repeat split; assumption.
Qed.


Lemma narrated_long (x y : Z) (did_swap show_steps : bool) :
  y <> 0 -> x mod y <> 0 ->
  exists out,
    ex_gcd_steps_after_swap x y did_swap show_steps
      = Run out (ex_gcd_after_swap x y did_swap) /\
    Forall (fun e => equation_holds e /\ show_steps = true) out.
Proof.
  intros Hy Hmod.
  destruct (remainders_long x y Hy Hmod)
    as (vals & g & u & v & Hrun & Hchain & Hlen & Hu & Hv & Hg & Hv0 & Hguv & Hx).
  set (V := drop_last vals) in *.
  assert (getitem V (-1) = Return g) as Hg1 by (apply (getitem_back V 1); [lia | exact Hg]).
  assert (getitem V (-2) = Return v) as Hg2 by (apply (getitem_back V 2); [lia | exact Hv]).
  assert (getitem V (-3) = Return u) as Hg3 by (apply (getitem_back V 3); [lia | exact Hu]).
  destruct (narrated_substitution V show_steps g u v Hchain Hlen Hu Hv Hg Hv0 Hguv)
    as (out & s & t & Hfr & Hf & Hout).
  unfold ex_gcd_steps_after_swap, ex_gcd_after_swap.
  rewrite Hrun, quiet_bind_Return, bind_Return. cbv zeta. fold V.
  rewrite Hg1, Hg2, Hg3. rewrite !quiet_bind_Return, !bind_Return.
  rewrite (floordiv_Return u v Hv0), quiet_bind_Return, bind_Return.
  rewrite Hfr, Hf, bind_Return.
  destruct did_swap, show_steps;
    cbn [mbind run_bind stdout result print print_equation quiet when app];
    rewrite ?(mod_Return t x Hx), ?(mod_Return s y Hy);
    cbn [mbind run_bind outcome_bind bind stdout result print print_equation quiet when app].
  all: eexists; split; [reflexivity|].
  - do 3 (apply Forall_cons; split; [split; [exact I | reflexivity]|]).
    apply Forall_cons. split.
    { split; [|reflexivity]. simpl. rewrite Hguv, Z.mod_eq by assumption. ring. }
    apply Forall_app. split; [exact Hout|].
    apply Forall_cons. split; [split; [exact I | reflexivity] | apply Forall_nil; exact I].
  - apply Forall_app. split; [exact Hout | apply Forall_nil; exact I].
  - do 3 (apply Forall_cons; split; [split; [exact I | reflexivity]|]).
    apply Forall_cons. split.
    { split; [|reflexivity]. simpl. rewrite Hguv, Z.mod_eq by assumption. ring. }
    apply Forall_app. split; [exact Hout|].
    apply Forall_cons. split; [split; [exact I | reflexivity] | apply Forall_nil; exact I].
  - apply Forall_app. split; [exact Hout | apply Forall_nil; exact I].
Qed.

Lemma narrated_short (x y : Z) (did_swap show_steps : bool) :
  y = 0 \/ x mod y = 0 ->
  exists out,
    ex_gcd_steps_after_swap x y did_swap show_steps = Run out (Raise IndexError) /\
    Forall (fun e => equation_holds e /\ show_steps = true) out.
Proof.
  intros Hshort. unfold ex_gcd_steps_after_swap.
  destruct (decide (y = 0)) as [->|Hy].
  - rewrite remainder_loop_zero, quiet_bind_Return. cbv zeta.
    change (drop_last [x; 0]) with [x].
    change (getitem [x] (-1)) with (Return (A := Z) x).
    change (getitem [x] (-3)) with (Raise (A := Z) IndexError).
    destruct show_steps;
      cbn [mbind run_bind stdout result print print_equation quiet when app];
      (eexists; split; [reflexivity|]).
    + do 3 (apply Forall_cons; split; [split; [exact I | reflexivity]|]).
      apply Forall_nil. exact I.
    + apply Forall_nil. exact I.
  - destruct Hshort as [?|Hmod]; [contradiction|].
    rewrite (remainder_loop_divides x y Hy Hmod), quiet_bind_Return. cbv zeta.
    change (drop_last [x; y; 0]) with [x; y].
    change (getitem [x; y] (-1)) with (Return (A := Z) y).
    change (getitem [x; y] (-3)) with (Raise (A := Z) IndexError).
    destruct show_steps;
      cbn [mbind run_bind stdout result print print_equation quiet when app];
      (eexists; split; [reflexivity|]).
    + do 3 (apply Forall_cons; split; [split; [exact I | reflexivity]|]).
      apply Forall_nil. exact I.
    + apply Forall_nil. exact I.
Qed.

Lemma ex_gcd_steps_unfold (a b : Z) (show_steps : bool) :
  ex_gcd_steps a b show_steps =
  (when show_steps (
     print ("Finding GCD of " +:+ pretty a +:+ " and " +:+ pretty b
            +:+ " and the inverse of " +:+ pretty a +:+ " mod " +:+ pretty b
            +:+ "..." +:+ newline)) ;;
   if decide (b > a) then ex_gcd_steps_after_swap b a true show_steps
   else ex_gcd_steps_after_swap a b false show_steps).
Proof. unfold ex_gcd_steps. destruct (decide (b > a)); reflexivity. Qed.

Lemma narrated_after_swap (x y : Z) (did_swap show_steps : bool) :
  exists out,
    ex_gcd_steps_after_swap x y did_swap show_steps
      = Run out (ex_gcd_after_swap x y did_swap) /\
    Forall (fun e => equation_holds e /\ show_steps = true) out.
Proof.
  destruct (decide (y = 0 \/ x mod y = 0)) as [Hshort|Hlong].
  - rewrite (ex_gcd_after_swap_short x y did_swap Hshort).
    apply narrated_short. exact Hshort.
  - apply narrated_long; tauto.
Qed.

(** The whole narrated run: its result is that of the silent model, and
    every entry of its output is printed with [show_steps] on and is a true
    equation if it is an equation. *)
Lemma ex_gcd_steps_run (a b : Z) (show_steps : bool) :
  result (ex_gcd_steps a b show_steps) = ex_gcd a b /\
  Forall (fun e => equation_holds e /\ show_steps = true)
         (stdout (ex_gcd_steps a b show_steps)).
Proof.
  rewrite ex_gcd_steps_unfold, ex_gcd_unfold.
  destruct (decide (b > a)) as [Hswap|Hkeep].
  - destruct (narrated_after_swap b a true show_steps) as (out & -> & Hout).
    destruct show_steps; cbn [mbind run_bind stdout result print quiet when app].
    + split; [reflexivity|].
      apply Forall_cons. split; [split; [exact I | reflexivity] | exact Hout].
    + split; [reflexivity | exact Hout].
  - destruct (narrated_after_swap a b false show_steps) as (out & -> & Hout).
    destruct show_steps; cbn [mbind run_bind stdout result print quiet when app].
    + split; [reflexivity|].
      apply Forall_cons. split; [split; [exact I | reflexivity] | exact Hout].
    + split; [reflexivity | exact Hout].
Qed.

(** X22. The narration does not change what [ex_gcd] computes: with
    [show_steps] on or off the run ends in the same returned pair or the
    same exception, and with [show_steps] off nothing is printed. *)
Theorem narration_keeps_result (a b : Z) (show_steps : bool) :
  result (ex_gcd_steps a b show_steps) = ex_gcd a b /\
  stdout (ex_gcd_steps a b false) = [].
Proof.
  split; [exact (proj1 (ex_gcd_steps_run a b show_steps))|].
  destruct (ex_gcd_steps_run a b false) as [_ Hout].
  destruct (stdout (ex_gcd_steps a b false)) as [|e out]; [reflexivity|].
  apply Forall_cons in Hout as [[_ Hshow] _]. discriminate.
Qed.

(** X23. Every equation that the narration of [ex_gcd] prints through
    [format_rsatb] is true: in each printed [r = s * a + t * b] the left
    side is the value of the right side, for every pair of integers and
    also in a run that ends in an exception. *)
Theorem narrated_equations_hold (a b : Z) (show_steps : bool) :
  Forall equation_holds (stdout (ex_gcd_steps a b show_steps)).
Proof.
  destruct (ex_gcd_steps_run a b show_steps) as [_ Hout].
  eapply Forall_impl; [exact Hout|]. intros e [He _]. exact He.
Qed.

End narration.

(** ** Where the rounding of the float expressions shows *)
Section rounding.

(** The two roots that the doubles get wrong, on every platform: the bound
    for the square of [root_prime], with or without 100 added, is one less
    than [root_prime], so [root_prime] is not among the trial divisors. *)
Lemma root_prime_square_bound `{!Libm} :
  int_sqrt_plus_1 (root_prime * root_prime) = Return (root_prime - 1) /\
  int_sqrt_plus_1 (root_prime * root_prime + 100) = Return (root_prime - 1).
Proof. split; apply int_sqrt_plus_1_both; vm_compute; reflexivity. Qed.

Lemma root_prime_square_composite : ~ Z.prime (root_prime * root_prime).
Proof.
  intros [_ Hprime]. apply (Hprime root_prime).
  - split; apply Z.ltb_lt; vm_compute; reflexivity.
  - apply Z.divide_factor_l.
Qed.

(** C6 at an input where the program departs from it: on the one-point
    range of the square of the prime [3 * 2^66 + 1] the sieve tries the
    divisors below [int(end**0.5 + 1)], which the doubles make
    [3 * 2^66], one short of the only divisor there is; the square stays
    unmarked and [gen_prime] returns it. *)
Theorem gen_prime_returns_composite `{!Libm} :
  let n := root_prime * root_prime in
  2 <= n /\ draws_within n n [n] /\
  int_sqrt_plus_1 n = Return (root_prime - 1) /\
  gen_prime n n [n] = Return (n, []) /\
  Z.prime root_prime /\ ~ Z.prime n.
Proof.
  intros n. pose proof root_prime_prime as Hprime.
  pose proof (Z.prime_ge_2 _ Hprime) as Hge.
  destruct root_prime_square_bound as [Hstop _].
  split; [unfold n; nia|]. split.
  { unfold draws_within. apply Forall_cons. split; [lia | apply Forall_nil; exact I]. }
  split; [exact Hstop|]. split; [|split; [exact Hprime | exact root_prime_square_composite]].
  rewrite gen_prime_valid by (unfold n; nia).
  pose proof (gen_prime_loop_first n n n (root_prime - 1) []) as Hfirst.
  cbv zeta in Hfirst.
  replace (Z.max n (n - 50)) with n in Hfirst by lia.
  replace (Z.min n (n + 50)) with n in Hfirst by lia.
  apply Hfirst; [exact Hstop | lia|].
  apply prime_square_unmarked; [exact Hprime | lia].
Qed.

(** The bound of an 82-digit budget has room for the square of
    [root_prime], whichever way [pow] rounds [10**41.0]. *)
Lemma max_gen_of_82 `{!Libm} :
  exists max_gen, max_gen_of 82 = Return max_gen /\
                  root_prime * root_prime + 100 <= max_gen.
Proof.
  unfold max_gen_of. destruct (int_pow10_half_cases 82) as [-> | ->].
  - eexists. split; [vm_compute; reflexivity|]. apply Z.leb_le. vm_compute. reflexivity.
  - eexists. split; [vm_compute; reflexivity|]. apply Z.leb_le. vm_compute. reflexivity.
Qed.

(** C2 at an input where the program departs from it: with an 82-digit
    budget, [gen_keys] can draw the prime [p = 16 * r + 1] for
    [r = 3 * 2^66 + 1], then [q = 11], and then, for the public exponent,
    the composite [e = r * r] that the sieve leaves unmarked (see C6).
    [e] shares the factor [r] with [phi = (p - 1) * (q - 1)], [ex_gcd]
    returns the gcd [r] with its coefficient, and the key comes back with
    [(e * d) mod phi = r], not 1. *)
Theorem gen_keys_inverse_fails `{!Libm} :
  let p := linked_prime in
  let q := 11 in
  let e := root_prime * root_prime in
  let draws := [p + 50; 60; e + 50] in
  exists max_gen d,
    max_gen_of 82 = Return max_gen /\ draws_within 2 max_gen draws /\
    gen_prime 2 max_gen draws = Return (p, [60; e + 50]) /\
    gen_prime 2 max_gen [60; e + 50] = Return (q, [e + 50]) /\
    gen_keys 82 draws = Return (p * q, e, d, []) /\
    Z.prime p /\ Z.prime q /\
    (e * d) mod ((p - 1) * (q - 1)) = root_prime /\
    (e * d) mod ((p - 1) * (q - 1)) <> 1.
Proof.
  intros p q e draws.
  destruct max_gen_of_82 as (max_gen & Hmg & Hroom). fold e in Hroom.
  destruct root_prime_square_bound as [_ Hstop_e]. fold e in Hstop_e.
  pose proof root_prime_prime as Hr. pose proof linked_prime_prime as Hp.
  assert (2 <= p /\ p + 100 <= e /\ 11 < p /\ 59512812589 <= p /\ 1 < root_prime) as Hnum.
  { repeat split; (apply Z.leb_le || apply Z.ltb_lt); vm_compute; reflexivity. }
  assert (int_sqrt_plus_1 (p + 100) = Return 59512812589) as Hstop_p.
  { apply int_sqrt_plus_1_both; vm_compute; reflexivity. }
  assert (gen_prime 2 max_gen draws = Return (p, [60; e + 50])) as Hrun_p.
  { rewrite gen_prime_valid by lia.
    pose proof (gen_prime_loop_first 2 max_gen (p + 50) 59512812589 [60; e + 50]) as Hfirst.
    cbv zeta in Hfirst.
    replace (Z.max 2 (p + 50 - 50)) with p in Hfirst by lia.
    replace (Z.min max_gen (p + 50 + 50)) with (p + 100) in Hfirst by lia.
    apply Hfirst; [exact Hstop_p | lia|].
    apply prime_unmarked; [exact Hp | lia]. }
  assert (gen_prime 2 max_gen [60; e + 50] = Return (q, [e + 50])) as Hrun_q.
  { rewrite gen_prime_valid by lia. cbn [gen_prime_loop].
    replace (Z.max 2 (60 - 50)) with 10 by lia.
    replace (Z.min max_gen (60 + 50)) with 110 by lia.
    unfold sieve. rewrite (int_sqrt_plus_1_exact 110) by (unfold exact_limit; lia).
    vm_compute. reflexivity. }
  assert (gen_prime (Z.max p q) max_gen [e + 50] = Return (e, [])) as Hrun_e.
  { rewrite gen_prime_valid by (unfold q; lia).
    pose proof (gen_prime_loop_first (Z.max p q) max_gen (e + 50) (root_prime - 1) []) as Hfirst.
    cbv zeta in Hfirst.
    replace (Z.max (Z.max p q) (e + 50 - 50)) with e in Hfirst by (unfold q; lia).
    replace (Z.min max_gen (e + 50 + 50)) with (e + 100) in Hfirst by lia.
    apply Hfirst; [exact Hstop_e | lia|].
    apply prime_square_unmarked; [exact Hr | lia]. }
  assert (Z.gcd e ((p - 1) * (q - 1)) = root_prime) as Hgcd by (vm_compute; reflexivity).
  destruct (ex_gcd_positive_run e ((p - 1) * (q - 1))) as (d & Hex & Hd & Hmod).
  { unfold q; lia. }
  { unfold q; lia. }
  { vm_compute. discriminate. }
  rewrite Hgcd in Hex, Hmod.
  exists max_gen, d.
  split; [exact Hmg|]. split.
  { unfold draws_within, draws, q.
    repeat (apply Forall_cons; split; [lia|]). apply Forall_nil. exact I. }
  split; [exact Hrun_p|]. split; [exact Hrun_q|]. split.
  { unfold gen_keys. rewrite Hmg, bind_Return. unfold gen_keys_below.
    rewrite Hrun_p, bind_Return, Hrun_q, bind_Return, Hrun_e, bind_Return.
    unfold inverse_component. rewrite Hex, !bind_Return. reflexivity. }
  split; [exact Hp|]. split; [apply trial_division_prime_sound; reflexivity|].
  split; [exact Hmod|]. rewrite Hmod. lia.
Qed.

End rounding.

(** ** The bound of key generation is never drawn *)
Section exponent_range.








End exponent_range.

(** ** Where the float expressions are exact *)
Section within_the_doubles.

(** X24. Prime generation below [2^52 - 1]: a value that
    [gen_prime(low, high)] returns lies in [[low, high]] and is prime, by
    the definition and by trial division, whatever the draws. *)
Theorem gen_prime_returns_prime `{!Libm} (low high : Z) (draws : list Z) (p : Z)
  (rest : list Z) :
  high < exact_limit ->
  gen_prime low high draws = Return (p, rest) ->
  2 <= low /\ low <= p <= high /\ Z.prime p /\ trial_division_prime p = true.
Proof.
  intros Hlim Hrun. destruct (gen_prime_sound _ _ _ _ _ Hlim Hrun) as (Hlow & Hp & Hprime).
  split; [exact Hlow|]. split; [exact Hp|]. split; [exact Hprime|].
  apply trial_division_prime_complete. exact Hprime.
Qed.

Lemma gen_prime_returns_prime_witness :
  2 <= 2 /\ 2 <= 11 <= 100 /\ Z.prime 11 /\ trial_division_prime 11 = true.
Proof.
  apply (gen_prime_returns_prime 2 100 [50] 11 []).
  - unfold exact_limit. lia.
  - vm_compute. reflexivity.
Defined.

(** X25. Key generation within 31 digits: a returned key [(N, e, d)] has
    [N = p * q] for the two primes drawn, both prime, and
    [(e * d) mod ((p - 1) * (q - 1)) = 1]. *)
Theorem gen_keys_postcondition `{!Libm} (max_digits : Z) (draws : list Z)
  (N e d : Z) (rest : list Z) :
  max_digits <= 31 ->
  gen_keys max_digits draws = Return (N, e, d, rest) ->
  exists max_gen p q draws1 draws2,
    max_gen_of max_digits = Return max_gen /\
    gen_prime 2 max_gen draws = Return (p, draws1) /\
    gen_prime 2 max_gen draws1 = Return (q, draws2) /\
    Z.prime p /\ Z.prime q /\ N = p * q /\
    (e * d) mod ((p - 1) * (q - 1)) = 1.
Proof.
  intros Hmd Hrun.
  destruct (gen_keys_exact_run _ _ _ _ _ _ Hmd Hrun) as (_ & Hmg & Hlim & Hbelow).
  destruct (gen_keys_below_returned _ _ _ _ _ _ Hlim Hbelow)
    as (p & q & d1 & d2 & Hp & Hq & _ & _ & HN & Hp_prime & Hq_prime & _ & _ & _ & _ & _
        & _ & Hed & _).
  exists (Z.sqrt (10 ^ max_digits)), p, q, d1, d2. tauto.
Qed.

Lemma gen_keys_postcondition_witness :
  exists max_gen p q draws1 draws2,
    max_gen_of 5 = Return max_gen /\
    gen_prime 2 max_gen [50; 300; 300] = Return (p, draws1) /\
    gen_prime 2 max_gen draws1 = Return (q, draws2) /\
    Z.prime p /\ Z.prime q /\ 2761 = p * q /\
    (251 * 2251) mod ((p - 1) * (q - 1)) = 1.
Proof.
  apply (gen_keys_postcondition 5 [50; 300; 300] 2761 251 2251 []).
  - lia.
  - vm_compute. reflexivity.
Defined.

(** X26. The attack on a modulus below [2^52 - 1]: for [N = p * q] with
    [p], [q] distinct primes and [e] coprime to [(p - 1) * (q - 1)],
    [crack(N, e)] is the inverse component of
    [ex_gcd(e, (p - 1) * (q - 1))], the private exponent as key generation
    computes it (line 143); for [e >= 2] this is a returned [d] with
    [(e * d) mod ((p - 1) * (q - 1)) = 1]. *)
Theorem crack_agrees_with_key_generation `{!Libm} (p q e : Z) :
  Z.prime p -> Z.prime q -> p <> q -> p * q < exact_limit ->
  Z.gcd e ((p - 1) * (q - 1)) = 1 ->
  crack (p * q) e = inverse_component e ((p - 1) * (q - 1)) /\
  (2 <= e -> exists d, crack (p * q) e = Return d /\
                       (e * d) mod ((p - 1) * (q - 1)) = 1 /\
                       0 <= d < (p - 1) * (q - 1)).
Proof.
  intros Hp Hq Hne Hlim Hco. split; [apply crack_semiprime; assumption|].
  intros He. rewrite (crack_semiprime p q e Hp Hq Hlim).
  apply inverse_component_spec; [assumption | | assumption].
  apply totient_at_least_2; assumption.
Qed.

Lemma crack_agrees_with_key_generation_witness :
  crack (61 * 53) 17 = inverse_component 17 ((61 - 1) * (53 - 1)) /\
  (2 <= 17 -> exists d, crack (61 * 53) 17 = Return d /\
                        (17 * d) mod ((61 - 1) * (53 - 1)) = 1 /\
                        0 <= d < (61 - 1) * (53 - 1)).
Proof.
  apply (crack_agrees_with_key_generation 61 53 17).
  - apply trial_division_prime_sound. reflexivity.
  - apply trial_division_prime_sound. reflexivity.
  - lia.
  - unfold exact_limit. lia.
  - reflexivity.
Defined.

(** X27. The extended gcd on coprime operands from 2 on: [ex_gcd(a, b)]
    returns the gcd 1 and an [inverse] with [(a * inverse) mod b = 1];
    [ex_gcd(3, 11)] returns [(1, 4)]. *)
Theorem ex_gcd_bezout (a b : Z) :
  2 <= a -> 2 <= b -> Z.gcd a b = 1 ->
  (exists inverse, ex_gcd a b = Return (1, inverse) /\ (a * inverse) mod b = 1) /\
  ex_gcd 3 11 = Return (1, 4).
Proof.
  intros Ha Hb Hco. split; [|reflexivity].
  destruct (ex_gcd_inverse a b Ha Hb Hco) as (inv & Hrun & Hinv & _). eauto.
Qed.

Lemma ex_gcd_bezout_witness :
  (exists inverse, ex_gcd 3 11 = Return (1, inverse) /\ (3 * inverse) mod 11 = 1) /\
  ex_gcd 3 11 = Return (1, 4).
Proof. apply (ex_gcd_bezout 3 11); [lia | lia | reflexivity]. Defined.

(** X28. The bound of the trial divisors, [int(x**0.5 + 1)] (lines 80 and
    103): below [2^52 - 1] it is the integer square root plus one on every
    platform; for every [x] that is a double it is a number from 1 to [x];
    from [2^1024 - 2^970] on the conversion of [x] raises [OverflowError];
    a negative [x] raises [TypeError]; and at the square of the prime
    [3 * 2^66 + 1] it is one less than the root. *)
Theorem trial_bound_outcomes `{!Libm} (x : Z) :
  (0 <= x < exact_limit -> int_sqrt_plus_1 x = Return (Z.sqrt x + 1)) /\
  (0 <= x < float_limit ->
   exists stop, int_sqrt_plus_1 x = Return stop /\ 1 <= stop /\ (2 <= x -> stop <= x)) /\
  (float_limit <= Z.abs x -> int_sqrt_plus_1 x = Raise OverflowError) /\
  (- float_limit < x < 0 -> int_sqrt_plus_1 x = Raise TypeError) /\
  int_sqrt_plus_1 (root_prime * root_prime) = Return (Z.sqrt (root_prime * root_prime) - 1).
Proof.
  split; [apply int_sqrt_plus_1_exact|]. split.
  { intros Hx. destruct (int_sqrt_plus_1_returns x Hx) as (stop & Hrun & H1 & Hle & _).
    exists stop. auto. }
  split; [apply int_sqrt_plus_1_overflow|]. split; [apply int_sqrt_plus_1_negative|].
  destruct root_prime_square_bound as [-> _].
  rewrite Z.sqrt_square by (apply Z.leb_le; vm_compute; reflexivity). reflexivity.
Qed.

(** X29. The bound of key generation, [int(10**(max_digits/2))] (line
    128): up to 32 digits it is the integer square root of
    [10 ^ max_digits] on every platform; from 33 to 616 digits it is an
    even number from [2^53] on; from 617 digits on the power raises
    [OverflowError]; for a budget of zero or less it is at most 1, until
    the division itself raises [OverflowError]. *)
Theorem max_gen_of_outcomes `{!Libm} (max_digits : Z) :
  (1 <= max_digits <= 32 -> max_gen_of max_digits = Return (Z.sqrt (10 ^ max_digits))) /\
  (33 <= max_digits <= 616 ->
   exists max_gen, max_gen_of max_digits = Return max_gen /\
                   2 ^ 53 <= max_gen < float_limit /\ (2 | max_gen)) /\
  (617 <= max_digits -> max_gen_of max_digits = Raise OverflowError) /\
  (- (2 * float_limit) < max_digits <= 0 ->
   exists max_gen, max_gen_of max_digits = Return max_gen /\ 0 <= max_gen <= 1) /\
  (max_digits <= - (2 * float_limit) -> max_gen_of max_digits = Raise OverflowError).
Proof.
  unfold max_gen_of. split; [apply int_pow10_half_exact|]. split.
  { intros Hmd. destruct (int_pow10_half_returns max_digits ltac:(lia)) as (mg & Hrun & Hmg).
    destruct (int_pow10_half_even max_digits mg ltac:(lia) Hrun) as [Hbig Heven].
    exists mg. split; [exact Hrun|]. split; [lia | exact Heven]. }
  split; [apply int_pow10_half_overflow|]. split.
  { intros Hmd. pose proof float_limit_large as Hlim.
    rewrite int_pow10_half_divides by lia.
    destruct (decide (max_digits < 0)) as [?|?]; [exists 0; split; [reflexivity | lia]|].
    destruct (decide (max_digits = 0)) as [?|?]; [exists 1; split; [reflexivity | lia] | lia]. }
  intros Hmd. apply int_pow10_half_unrepresentable. lia.
Qed.

End within_the_doubles.
